(** * trurl with the [--iterate] extension: a shallow embedding of [trurl.c]

    The program is a command line tool on top of libcurl's URL API.  The
    embedding follows [trurl.c] function by function:

    - C strings are [string] values holding the bytes before the
      terminating NUL;
    - the objects the program reaches through pointers (the [struct option]
      records of the variant chain, the [curl_slist] lists, the open
      [FILE] streams, the global [qpairs] array, and the two output
      streams) live in a [world] record, and every function of the source
      is a computation in a small state monad over it whose outcome is a
      normal return, a call of [exit], a fault (undefined behaviour) or a
      loop that does not end;
    - libcurl itself (the URL engine, [curl_easy_escape] and the version
      strings) is not part of the program: it is an interface,
      [UrlEngine], over which every definition is generic.

    [unsigned int] is taken to be 32 bits wide.  Left out: allocation
    failure ([malloc], [strdup], [curl_slist_append] and [curl_maprintf]
    always succeed), the release of memory, the global initialisation of
    libcurl, and the functions [optgetend], [cloneopts] and [print_slist],
    which nothing calls. *)

From Stdlib Require Import String Ascii List ZArith Lia Bool Arith
  RelationClasses.
Import ListNotations.

Local Open Scope list_scope.
Local Open Scope string_scope.

(** ** C strings *)

Module CStr.

Definition nl : string := String "010"%char "".
Definition cr : string := String "013"%char "".
Definition tab : string := String "009"%char "".

Definition code (c : ascii) : Z := Z.of_nat (nat_of_ascii c).

(** [strchr s c]: offset of the first [c] in [s], if any. *)
Fixpoint strchr (s : string) (c : ascii) : option nat :=
  match s with
  | EmptyString => None
  | String x s' =>
      if Ascii.eqb x c then Some 0%nat else option_map S (strchr s' c)
  end.

(** [take n s]: the first [n] bytes of [s] (all of it when shorter). *)
Fixpoint take (n : nat) (s : string) : string :=
  match n, s with
  | S n', String c s' => String c (take n' s')
  | _, _ => EmptyString
  end.

(** [drop n s]: the string at [s + n]. *)
Fixpoint drop (n : nat) (s : string) : string :=
  match n, s with
  | S n', String _ s' => drop n' s'
  | _, _ => s
  end.

(** [s[n]], the terminator being read as NUL. *)
Definition at_ (s : string) (n : nat) : ascii :=
  match drop n s with
  | String c _ => c
  | EmptyString => zero
  end.

Definition is_upper (c : ascii) : bool :=
  ((65 <=? nat_of_ascii c) && (nat_of_ascii c <=? 90))%nat.

(** [tolower] in the C locale. *)
Definition tolower (c : ascii) : ascii :=
  if is_upper c then ascii_of_nat (nat_of_ascii c + 32) else c.

Fixpoint strncmp (a b : string) (n : nat) : Z :=
  match n with
  | O => 0
  | S n' =>
      match a, b with
      | EmptyString, EmptyString => 0
      | EmptyString, String y _ => - code y
      | String x _, EmptyString => code x
      | String x a', String y b' =>
          if Ascii.eqb x y then strncmp a' b' n' else code x - code y
      end
  end%Z.

Definition strcmp (a b : string) : Z :=
  strncmp a b (S (Nat.max (String.length a) (String.length b))).

Fixpoint strncasecmp (a b : string) (n : nat) : Z :=
  match n with
  | O => 0
  | S n' =>
      match a, b with
      | EmptyString, EmptyString => 0
      | EmptyString, String y _ => - code (tolower y)
      | String x _, EmptyString => code (tolower x)
      | String x a', String y b' =>
          if Ascii.eqb (tolower x) (tolower y) then strncasecmp a' b' n'
          else code (tolower x) - code (tolower y)
      end
  end%Z.

(** [!e] for an [int] expression. *)
Definition is0 (z : Z) : bool := Z.eqb z 0.

(** The C string a buffer of bytes holds: the bytes before the first
    NUL. *)
Fixpoint c_str (s : string) : string :=
  match s with
  | EmptyString => EmptyString
  | String c s' =>
      if Ascii.eqb c zero then EmptyString else String c (c_str s')
  end.

(** [n + 1] in [unsigned int], which is taken to be 32 bits wide. *)
Definition uint_succ (n : nat) : nat :=
  N.to_nat ((N.of_nat n + 1) mod 4294967296)%N.

End CStr.
Import CStr.

(** ** The libcurl interface *)

Inductive CURLUPart :=
| CURLUPART_URL | CURLUPART_SCHEME | CURLUPART_USER | CURLUPART_PASSWORD
| CURLUPART_OPTIONS | CURLUPART_HOST | CURLUPART_PORT | CURLUPART_PATH
| CURLUPART_QUERY | CURLUPART_FRAGMENT | CURLUPART_ZONEID.

Inductive CURLUcode :=
| CURLUE_OK | CURLUE_BAD_HANDLE | CURLUE_BAD_PARTPOINTER
| CURLUE_MALFORMED_INPUT | CURLUE_BAD_PORT_NUMBER
| CURLUE_UNSUPPORTED_SCHEME | CURLUE_URLDECODE | CURLUE_OUT_OF_MEMORY
| CURLUE_USER_NOT_ALLOWED | CURLUE_UNKNOWN_PART
| CURLUE_NO_SCHEME | CURLUE_NO_USER | CURLUE_NO_PASSWORD
| CURLUE_NO_OPTIONS | CURLUE_NO_HOST | CURLUE_NO_PORT | CURLUE_NO_QUERY
| CURLUE_NO_FRAGMENT | CURLUE_NO_ZONEID
| CURLUE_other (n : Z).

Definition is_ok (rc : CURLUcode) : bool :=
  match rc with CURLUE_OK => true | _ => false end.

(** Flag bits of [curl/urlapi.h]. *)
Definition CURLU_DEFAULT_PORT : Z := Z.shiftl 1 0.
Definition CURLU_NO_DEFAULT_PORT : Z := Z.shiftl 1 1.
Definition CURLU_NON_SUPPORT_SCHEME : Z := Z.shiftl 1 3.
Definition CURLU_URLDECODE : Z := Z.shiftl 1 6.
Definition CURLU_URLENCODE : Z := Z.shiftl 1 7.
Definition CURLU_GUESS_SCHEME : Z := Z.shiftl 1 9.
Definition CURLU_ALLOW_SPACE : Z := Z.shiftl 1 11.

(** The collaborator: libcurl's URL handle and the few other entry points
    the program calls.  [curl_url_get] returns the code together with the
    string it stored through its out-parameter, which is meaningful only
    when the code is [CURLUE_OK]. *)
Class UrlEngine := {
  CURLU : Type;
  curl_url : option CURLU;
  curl_url_set : CURLU -> CURLUPart -> option string -> Z -> CURLU * CURLUcode;
  curl_url_get : CURLU -> CURLUPart -> Z -> CURLUcode * string;
  curl_url_strerror : CURLUcode -> string;
  curl_easy_escape : string -> nat -> option string;
  curl_version : string;
  TRURL_VERSION_TXT : string
}.

(** ** Program constants *)

Definition NUM_COMPONENTS : nat := 11.
Definition PROGNAME : string := "trurl".

Definition variables : list (string * CURLUPart) :=
  [ ("url", CURLUPART_URL); ("scheme", CURLUPART_SCHEME);
    ("user", CURLUPART_USER); ("password", CURLUPART_PASSWORD);
    ("options", CURLUPART_OPTIONS); ("host", CURLUPART_HOST);
    ("port", CURLUPART_PORT); ("path", CURLUPART_PATH);
    ("query", CURLUPART_QUERY); ("fragment", CURLUPART_FRAGMENT);
    ("zoneid", CURLUPART_ZONEID) ].

Definition ERROR_PREFIX : string := PROGNAME ++ " error: ".
Definition WARN_PREFIX : string := PROGNAME ++ " note: ".

Definition ERROR_FILE : Z := 1.
Definition ERROR_APPEND : Z := 2.
Definition ERROR_ARG : Z := 3.
Definition ERROR_FLAG : Z := 4.
Definition ERROR_SET : Z := 5.
Definition ERROR_MEM : Z := 6.
Definition ERROR_URL : Z := 7.
Definition ERROR_TRIM : Z := 8.
Definition ERROR_BADURL : Z := 9.
Definition ERROR_ITER : Z := 10.

Definition MAX_QPAIRS : nat := 1000.
Arguments MAX_QPAIRS : simpl never.

(** ** Memory *)

(** A pointer is an address or NULL. *)
Definition ptr : Type := option nat.

(** [struct option].  The fields carry an [o_] prefix (the source's field
    [iterate] shares its name with a function). *)
Record struct_option := mk_option {
  o_url_list : ptr;
  o_append_path : ptr;
  o_append_query : ptr;
  o_set_list : ptr;
  o_trim_list : ptr;
  o_redirect : option string;
  o_format : option string;
  o_url : ptr;
  o_urlopen : bool;
  o_jsonout : bool;
  o_iterate : ptr;
  o_verify : bool;
  o_accept_space : bool;
  o_output : Z;
  o_urls : nat
}.

(** Assignment to one field, [o->f = x]. *)
Definition set_o_url_list x v :=
  mk_option x (o_append_path v) (o_append_query v) (o_set_list v)
    (o_trim_list v) (o_redirect v) (o_format v) (o_url v) (o_urlopen v)
    (o_jsonout v) (o_iterate v) (o_verify v) (o_accept_space v) (o_output v)
    (o_urls v).
Definition set_o_append_path x v :=
  mk_option (o_url_list v) x (o_append_query v) (o_set_list v)
    (o_trim_list v) (o_redirect v) (o_format v) (o_url v) (o_urlopen v)
    (o_jsonout v) (o_iterate v) (o_verify v) (o_accept_space v) (o_output v)
    (o_urls v).
Definition set_o_append_query x v :=
  mk_option (o_url_list v) (o_append_path v) x (o_set_list v)
    (o_trim_list v) (o_redirect v) (o_format v) (o_url v) (o_urlopen v)
    (o_jsonout v) (o_iterate v) (o_verify v) (o_accept_space v) (o_output v)
    (o_urls v).
Definition set_o_set_list x v :=
  mk_option (o_url_list v) (o_append_path v) (o_append_query v) x
    (o_trim_list v) (o_redirect v) (o_format v) (o_url v) (o_urlopen v)
    (o_jsonout v) (o_iterate v) (o_verify v) (o_accept_space v) (o_output v)
    (o_urls v).
Definition set_o_trim_list x v :=
  mk_option (o_url_list v) (o_append_path v) (o_append_query v)
    (o_set_list v) x (o_redirect v) (o_format v) (o_url v) (o_urlopen v)
    (o_jsonout v) (o_iterate v) (o_verify v) (o_accept_space v) (o_output v)
    (o_urls v).
Definition set_o_redirect x v :=
  mk_option (o_url_list v) (o_append_path v) (o_append_query v)
    (o_set_list v) (o_trim_list v) x (o_format v) (o_url v) (o_urlopen v)
    (o_jsonout v) (o_iterate v) (o_verify v) (o_accept_space v) (o_output v)
    (o_urls v).
Definition set_o_format x v :=
  mk_option (o_url_list v) (o_append_path v) (o_append_query v)
    (o_set_list v) (o_trim_list v) (o_redirect v) x (o_url v) (o_urlopen v)
    (o_jsonout v) (o_iterate v) (o_verify v) (o_accept_space v) (o_output v)
    (o_urls v).
Definition set_o_url x v :=
  mk_option (o_url_list v) (o_append_path v) (o_append_query v)
    (o_set_list v) (o_trim_list v) (o_redirect v) (o_format v) x
    (o_urlopen v) (o_jsonout v) (o_iterate v) (o_verify v)
    (o_accept_space v) (o_output v) (o_urls v).
Definition set_o_urlopen x v :=
  mk_option (o_url_list v) (o_append_path v) (o_append_query v)
    (o_set_list v) (o_trim_list v) (o_redirect v) (o_format v) (o_url v) x
    (o_jsonout v) (o_iterate v) (o_verify v) (o_accept_space v) (o_output v)
    (o_urls v).
Definition set_o_jsonout x v :=
  mk_option (o_url_list v) (o_append_path v) (o_append_query v)
    (o_set_list v) (o_trim_list v) (o_redirect v) (o_format v) (o_url v)
    (o_urlopen v) x (o_iterate v) (o_verify v) (o_accept_space v)
    (o_output v) (o_urls v).
Definition set_o_iterate x v :=
  mk_option (o_url_list v) (o_append_path v) (o_append_query v)
    (o_set_list v) (o_trim_list v) (o_redirect v) (o_format v) (o_url v)
    (o_urlopen v) (o_jsonout v) x (o_verify v) (o_accept_space v)
    (o_output v) (o_urls v).
Definition set_o_verify x v :=
  mk_option (o_url_list v) (o_append_path v) (o_append_query v)
    (o_set_list v) (o_trim_list v) (o_redirect v) (o_format v) (o_url v)
    (o_urlopen v) (o_jsonout v) (o_iterate v) x (o_accept_space v)
    (o_output v) (o_urls v).
Definition set_o_accept_space x v :=
  mk_option (o_url_list v) (o_append_path v) (o_append_query v)
    (o_set_list v) (o_trim_list v) (o_redirect v) (o_format v) (o_url v)
    (o_urlopen v) (o_jsonout v) (o_iterate v) (o_verify v) x (o_output v)
    (o_urls v).
Definition set_o_urls x v :=
  mk_option (o_url_list v) (o_append_path v) (o_append_query v)
    (o_set_list v) (o_trim_list v) (o_redirect v) (o_format v) (o_url v)
    (o_urlopen v) (o_jsonout v) (o_iterate v) (o_verify v)
    (o_accept_space v) (o_output v) x.

(** [memset(&o, 0, sizeof(o))] *)
Definition zero_option : struct_option :=
  mk_option None None None None None None None None false false None
            false false 0 0.

(** The world a run acts on.

    - [w_opts]: the [struct option] objects by address; address 0 is the
      [o] of [main], the others come from [malloc];
    - [w_slists]: the [curl_slist] chains by the address of their head;
    - [w_qpairs]: the entries [qpairs[0 .. nqpairs-1]] of the global array
      (so [nqpairs] is its length);
    - [w_streams]: the unread rest of every open [FILE]; stream 0 is
      [stdin];
    - [w_fs]: the files [fopen] can find, by name;
    - [w_out], [w_err]: what has been written to [stdout] and [stderr]. *)
Record world := mk_world {
  w_opts : list struct_option;
  w_slists : list (list string);
  w_qpairs : list string;
  w_streams : list string;
  w_fs : list (string * string);
  w_out : string;
  w_err : string
}.

Definition nqpairs (w : world) : nat := List.length (w_qpairs w).

Definition with_opts v w :=
  mk_world v (w_slists w) (w_qpairs w) (w_streams w) (w_fs w) (w_out w) (w_err w).
Definition with_slists v w :=
  mk_world (w_opts w) v (w_qpairs w) (w_streams w) (w_fs w) (w_out w) (w_err w).
Definition with_qpairs v w :=
  mk_world (w_opts w) (w_slists w) v (w_streams w) (w_fs w) (w_out w) (w_err w).
Definition with_streams v w :=
  mk_world (w_opts w) (w_slists w) (w_qpairs w) v (w_fs w) (w_out w) (w_err w).
Definition with_out v w :=
  mk_world (w_opts w) (w_slists w) (w_qpairs w) (w_streams w) (w_fs w) v (w_err w).
Definition with_err v w :=
  mk_world (w_opts w) (w_slists w) (w_qpairs w) (w_streams w) (w_fs w) (w_out w) v.

(** [l[i] = x]; out of range the list is left as it is. *)
Fixpoint update {A} (i : nat) (x : A) (l : list A) : list A :=
  match l, i with
  | [], _ => []
  | _ :: l', O => x :: l'
  | y :: l', S i' => y :: update i' x l'
  end.

(** ** The monad of the program *)

Inductive outcome (A : Type) :=
| Ret (a : A) (w : world)       (* normal return *)
| Exit (code : Z) (w : world)   (* [exit(code)] *)
| Fault (w : world)             (* undefined behaviour: NULL dereference,
                                   write past a buffer *)
| Diverge (w : world).          (* a loop that does not end *)
Arguments Ret {A} a w.
Arguments Exit {A} code w.
Arguments Fault {A} w.
Arguments Diverge {A} w.

Definition M (A : Type) : Type := world -> outcome A.

Definition ret {A} (a : A) : M A := fun w => Ret a w.

Definition bind {A B} (m : M A) (k : A -> M B) : M B :=
  fun w =>
    match m w with
    | Ret a w' => k a w'
    | Exit c w' => Exit c w'
    | Fault w' => Fault w'
    | Diverge w' => Diverge w'
    end.

Notation "x <- m ;; k" := (bind m (fun x => k))
  (at level 61, m at next level, right associativity).
Notation "m ;;; k" := (bind m (fun _ => k))
  (at level 61, right associativity).

Definition gets {A} (f : world -> A) : M A := fun w => Ret (f w) w.
Definition modify (f : world -> world) : M unit := fun w => Ret tt (f w).
Definition exit {A} (code : Z) : M A := fun w => Exit code w.
Definition fault {A} : M A := fun w => Fault w.
Definition diverge {A} : M A := fun w => Diverge w.

Definition when (b : bool) (m : M unit) : M unit := if b then m else ret tt.

(** [for] over the elements of a list. *)
Fixpoint forM {A} (l : list A) (f : A -> M unit) : M unit :=
  match l with
  | [] => ret tt
  | x :: l' => f x ;;; forM l' f
  end.

Definition fputs (s : string) : M unit :=
  modify (fun w => with_out (w_out w ++ s) w).
Definition eputs (s : string) : M unit :=
  modify (fun w => with_err (w_err w ++ s) w).

Definition warnf_text (msg : string) : string := WARN_PREFIX ++ msg ++ nl.
Definition errorf_text (msg : string) : string :=
  ERROR_PREFIX ++ msg ++ nl ++ ERROR_PREFIX ++ "Try " ++ PROGNAME ++ " -h for help" ++ nl.

(** [warnf] and [errorf], the message already formatted. *)
Definition warnf (msg : string) : M unit := eputs (warnf_text msg).
Definition errorf {A} (exit_code : Z) (msg : string) : M A :=
  eputs (errorf_text msg) ;;; exit exit_code.

(** *** [struct option] objects *)

Definition deref (p : ptr) : M struct_option :=
  fun w =>
    match p with
    | None => Fault w
    | Some a =>
        match nth_error (w_opts w) a with
        | Some v => Ret v w
        | None => Fault w
        end
    end.

Definition store (p : ptr) (v : struct_option) : M unit :=
  fun w =>
    match p with
    | None => Fault w
    | Some a =>
        if (a <? List.length (w_opts w))%nat
        then Ret tt (with_opts (update a v (w_opts w)) w)
        else Fault w
    end.

(** [malloc(sizeof(struct option))] followed by [memcpy] of [v] into it. *)
Definition malloc_copy (v : struct_option) : M ptr :=
  fun w => Ret (Some (List.length (w_opts w))) (with_opts ((w_opts w ++ [v])%list) w).

(** *** [curl_slist] *)

(** The data of the nodes of the chain that starts at [p]. *)
Definition slist_data (w : world) (p : ptr) : list string :=
  match p with
  | None => []
  | Some a => nth a (w_slists w) []
  end.

(** [curl_slist_append]: a new one-node chain for NULL, else the node is
    linked at the tail of the chain, whose head stays where it is. *)
Definition curl_slist_append (list : ptr) (data : string) : M ptr :=
  fun w =>
    match list with
    | None =>
        Ret (Some (List.length (w_slists w)))
            (with_slists ((w_slists w ++ [[data]])%list) w)
    | Some a =>
        Ret (Some a)
            (with_slists
               (update a ((nth a (w_slists w) [] ++ [data])%list) (w_slists w))
               w)
    end.

(** *** [FILE] streams *)

Definition stdin : ptr := Some 0%nat.

Fixpoint lookup_file (name : string) (fs : list (string * string)) : option string :=
  match fs with
  | [] => None
  | (n, c) :: fs' => if String.eqb n name then Some c else lookup_file name fs'
  end.

(** [fopen(file, "rt")] *)
Definition fopen (file : string) : M ptr :=
  fun w =>
    match lookup_file file (w_fs w) with
    | None => Ret None w
    | Some c =>
        Ret (Some (List.length (w_streams w)))
            (with_streams ((w_streams w ++ [c])%list) w)
    end.

(** What one [fgets] with a buffer of [S n] bytes takes from the unread
    text: at most [n] bytes, ending after the first newline. *)
Fixpoint fgets_split (n : nat) (s : string) : string * string :=
  match n, s with
  | S n', String c s' =>
      if Ascii.eqb c "010"%char then (String c "", s')
      else let (l, r) := fgets_split n' s' in (String c l, r)
  | _, _ => ("", s)
  end.

(** [fgets(buffer, size, f)]: the line read, or NULL at end of file. *)
Definition fgets (size : nat) (f : ptr) : M (option string) :=
  fun w =>
    match f with
    | None => Fault w
    | Some a =>
        match nth_error (w_streams w) a with
        | None => Fault w
        | Some EmptyString => Ret None w
        | Some s =>
            let (l, r) := fgets_split (size - 1) s in
            Ret (Some l) (with_streams (update a r (w_streams w)) w)
        end
    end.

(** ** The program *)

Section Program.

Context {E : UrlEngine}.

Definition help_text : string :=
  "Usage: " ++ PROGNAME ++ " [options] [URL]" ++ nl ++
  "  -a, --append [component]=[data] - append data to component" ++ nl ++
  "  --accept-space               - give in to this URL abuse" ++ nl ++
  "  -f, --url-file [file/-]      - read URLs from file or stdin" ++ nl ++
  "  -g, --get [{component}s]     - output component(s)" ++ nl ++
  "  -h, --help                   - this help" ++ nl ++
  "  --json                       - output URL as JSON" ++ nl ++
  "  --redirect [URL]             - redirect to this" ++ nl ++
  "  -s, --set [component]=[data] - set component content" ++ nl ++
  "  --trim [component]=[what]    - trim component" ++ nl ++
  "  --url [URL]                  - URL to work with" ++ nl ++
  "  -v, --version                - show version" ++ nl ++
  "  --verify                     - return error on (first) bad URL" ++ nl ++
  " URL COMPONENTS:" ++ nl ++
  "  ".

Fixpoint help_loop (i : nat) (vars : list (string * CURLUPart)) : M unit :=
  match vars with
  | [] => ret tt
  | (name, _) :: vars' =>
      eputs ((if (i =? 0)%nat then "" else ", ") ++ name) ;;;
      help_loop (S i) vars'
  end.

Definition help {A} : M A :=
  eputs help_text ;;;
  help_loop 0 variables ;;;
  eputs nl ;;;
  exit 1.

Definition show_version {A} : M A :=
  fputs (PROGNAME ++ " version " ++ TRURL_VERSION_TXT ++ " libcurl/"
         ++ curl_version ++ nl) ;;;
  exit 0.

Definition urladd (o : ptr) (url : string) : M unit :=
  v <- deref o ;;
  n <- curl_slist_append (o_url_list v) url ;;
  match n with
  | Some _ => v <- deref o ;; store o (set_o_url_list n v)
  | None => ret tt
  end.

(** read URLs from this file/stdin *)
Definition urlfile (o : ptr) (file : string) : M unit :=
  v <- deref o ;;
  when (match o_url v with Some _ => true | None => false end)
       (errorf ERROR_FLAG "only one --url-file is supported") ;;;
  f <- (if negb (is0 (strcmp "-" file)) then
          f <- fopen file ;;
          match f with
          | None => errorf ERROR_FILE ("--url-file " ++ file ++ " not found")
          | Some _ =>
              v <- deref o ;; store o (set_o_urlopen true v) ;;; ret f
          end
        else ret stdin) ;;
  v <- deref o ;; store o (set_o_url f v).

Definition pathadd (o : ptr) (path : string) : M unit :=
  match curl_easy_escape path 0 with
  | Some urle =>
      v <- deref o ;;
      n <- curl_slist_append (o_append_path v) urle ;;
      match n with
      | Some _ => v <- deref o ;; store o (set_o_append_path n v)
      | None => ret tt
      end
  | None => ret tt
  end.

(** [%s] of [curl_maprintf] *)
Definition printf_s (s : option string) : string :=
  match s with Some x => x | None => "(nil)" end.

Definition queryadd (o : ptr) (query : string) : M unit :=
  let urle :=
    match strchr query "="%char with
    | Some p =>
        (* URL encode the left and the right side of the '=' separately *)
        let f1 := curl_easy_escape query p in
        let f2 := curl_easy_escape (drop (S p) query) 0 in
        Some (printf_s f1 ++ "=" ++ printf_s f2)
    | None => curl_easy_escape query 0
    end in
  match urle with
  | Some urle =>
      v <- deref o ;;
      n <- curl_slist_append (o_append_query v) urle ;;
      match n with
      | Some _ => v <- deref o ;; store o (set_o_append_query n v)
      | None => ret tt
      end
  | None => ret tt
  end.

Definition appendadd (o : ptr) (arg : string) : M unit :=
  if is0 (strncasecmp "path=" arg 5) then pathadd o (drop 5 arg)
  else if is0 (strncasecmp "query=" arg 6) then queryadd o (drop 6 arg)
  else errorf ERROR_APPEND ("--append unsupported component: " ++ arg).

(** The [do ... while(o)] of [setadd]; [fuel] bounds the walk along the
    chain. *)
Fixpoint setadd_loop (fuel : nat) (o : ptr) (set : string) : M unit :=
  match fuel with
  | O => diverge
  | S fuel' =>
      v <- deref o ;;
      n <- curl_slist_append (o_set_list v) set ;;
      match n with
      | Some _ => v <- deref o ;; store o (set_o_set_list n v)
      | None => ret tt
      end ;;;
      v <- deref o ;;
      match o_iterate v with
      | Some _ => setadd_loop fuel' (o_iterate v) set
      | None => ret tt
      end
  end.

(** A chain without a cycle has at most as many nodes as there are
    objects. *)
Definition chain_fuel : M nat := gets (fun w => S (List.length (w_opts w))).

Definition setadd (o : ptr) (set : string) : M unit :=
  fuel <- chain_fuel ;; setadd_loop fuel o set.

Definition trimadd (o : ptr) (trim : string) : M unit :=
  v <- deref o ;;
  n <- curl_slist_append (o_trim_list v) trim ;;
  match n with
  | Some _ => v <- deref o ;; store o (set_o_trim_list n v)
  | None => ret tt
  end.

Definition checkoptarg (str given : string) (arg : option string) : M bool :=
  if is0 (strcmp str given) then
    match arg with
    | None => errorf ERROR_ARG ("Missing argument for " ++ str)
    | Some _ => ret true
    end
  else ret false.

(** The [while(o->iterate != NULL)] of [addoptiter]: the last node. *)
Fixpoint addoptiter_loop (fuel : nat) (o : ptr) : M ptr :=
  match fuel with
  | O => diverge
  | S fuel' =>
      v <- deref o ;;
      match o_iterate v with
      | Some _ => addoptiter_loop fuel' (o_iterate v)
      | None => ret o
      end
  end.

(** returns address of most recently added option *)
Definition addoptiter (o : ptr) : M ptr :=
  fuel <- chain_fuel ;;
  o <- addoptiter_loop fuel o ;;
  v <- deref o ;;
  opt <- malloc_copy v ;;
  v <- deref o ;; store o (set_o_iterate opt v) ;;;
  v <- deref opt ;; store opt (set_o_iterate None v) ;;;
  ret opt.

(** cleans up the options list (what is freed is not modelled, the walk
    along the chain is) *)
Fixpoint optcleanup (fuel : nat) (o : ptr) : M Z :=
  match fuel with
  | O => diverge
  | S fuel' =>
      v <- deref o ;;
      match o_iterate v with
      | Some _ => optcleanup fuel' (o_iterate v) ;;; ret 0%Z
      | None => ret 0%Z
      end
  end.

Fixpoint slist_clone_loop (nodes : list string) (item : ptr) : M ptr :=
  match nodes with
  | [] => ret item
  | data :: nodes' =>
      item <- curl_slist_append item data ;;
      slist_clone_loop nodes' item
  end.

Definition slist_clone (list : ptr) : M ptr :=
  match list with
  | None => ret None
  | Some _ =>
      nodes <- gets (fun w => slist_data w list) ;;
      slist_clone_loop nodes None
  end.

(** The two writes [strncpy(buffer + at, src, n); buffer[at + n] = 0] into
    [char buffer[4096]], which holds a string of at least [at] bytes: the
    string the buffer holds afterwards. *)
Definition buffer_put (buffer : string) (at_pos : nat) (src : string) (n : nat)
  : M string :=
  if (at_pos + n <? 4096)%nat then ret (take at_pos buffer ++ take n src)
  else fault.

(** The [while] loop of [iterate] over the bytes of the directive.  [rest]
    is the string at [ptr], [pos] and [tok] are the offsets of [ptr] and
    [_arg] in [arg]. *)
Fixpoint iterate_loop (op : ptr) (arg : string) (offset : nat)
         (rest : string) (pos tok : nat) (buffer : string) (new_opt : ptr)
  : M unit :=
  match rest with
  | EmptyString => ret tt
  | String c rest' =>
      r <- (if Ascii.eqb c " "%char then
              b <- buffer_put buffer (offset - 1) (drop tok arg) (pos - tok) ;;
              ret (true, b, S pos)
            else match rest' with
                 | EmptyString =>
                     b <- buffer_put buffer (offset - 1) (drop tok arg)
                                     (pos - tok + 1) ;;
                     ret (true, b, tok)
                 | _ => ret (false, buffer, tok)
                 end) ;;
      let '(set, buffer, tok) := r in
      new_opt <-
        (if set : bool then
           setadd new_opt buffer ;;;
           match rest' with
           | EmptyString => ret new_opt
           | _ =>
               new_opt <- addoptiter op ;;
               vop <- deref op ;;
               cl <- slist_clone (o_set_list vop) ;;
               v <- deref new_opt ;; store new_opt (set_o_set_list cl v) ;;;
               v <- deref new_opt ;; store new_opt (set_o_iterate None v) ;;;
               ret new_opt
           end
         else ret new_opt) ;;
      iterate_loop op arg offset rest' (S pos) tok buffer new_opt
  end.

Definition iterate (op : ptr) (arg : string) : M Z :=
  let arg_str_len := String.length arg in
  (* check which paramter is being iterated *)
  let '(buffer, offset) :=
    if is0 (strncmp "hosts=" arg 5) then ("host=", 5%nat)
    else if is0 (strncmp "ports=" arg 6) then ("port=", 5%nat)
    else if is0 (strncmp "schemes=" arg 8) then ("scheme=", 7%nat)
    else ("", 0%nat) in
  when ((offset =? 0)%nat || (arg_str_len <=? offset + 1)%nat)
       (errorf ERROR_ITER ("Missing arguments for iterator " ++ arg)) ;;;
  (* parse individual tokens from arg *)
  let offset := (offset + 1)%nat in
  iterate_loop op arg offset (drop offset arg) offset offset buffer op ;;;
  ret 0%Z.

(** [a || b] on calls *)
Definition orM (a b : M bool) : M bool :=
  x <- a ;; if x : bool then ret true else b.

(** A flag's argument once [checkoptarg] has let it through. *)
Definition the_arg (arg : option string) : M string :=
  match arg with Some a => ret a | None => fault end.

(** [getarg]: the value returned and what is left in [*usedarg]. *)
Definition getarg (op : ptr) (flag : string) (arg : option string)
  : M (Z * bool) :=
  if is0 (strcmp "-v" flag) || is0 (strcmp "--version" flag) then
    show_version
  else if is0 (strcmp "-h" flag) || is0 (strcmp "--help" flag) then
    help
  else
  c <- checkoptarg "--url" flag arg ;;
  if c : bool then a <- the_arg arg ;; urladd op a ;;; ret (0%Z, true) else
  c <- orM (checkoptarg "-f" flag arg) (checkoptarg "--url-file" flag arg) ;;
  if c : bool then a <- the_arg arg ;; urlfile op a ;;; ret (0%Z, true) else
  c <- orM (checkoptarg "-a" flag arg) (checkoptarg "--append" flag arg) ;;
  if c : bool then a <- the_arg arg ;; appendadd op a ;;; ret (0%Z, true) else
  c <- orM (checkoptarg "-s" flag arg) (checkoptarg "--set" flag arg) ;;
  if c : bool then a <- the_arg arg ;; setadd op a ;;; ret (0%Z, true) else
  c <- checkoptarg "--redirect" flag arg ;;
  if c : bool then
    v <- deref op ;;
    when (match o_redirect v with Some _ => true | None => false end)
         (errorf ERROR_FLAG "only one --redirect is supported") ;;;
    v <- deref op ;; store op (set_o_redirect arg v) ;;;
    ret (0%Z, true)
  else
  c <- checkoptarg "--trim" flag arg ;;
  if c : bool then a <- the_arg arg ;; trimadd op a ;;; ret (0%Z, true) else
  c <- orM (checkoptarg "-g" flag arg) (checkoptarg "--get" flag arg) ;;
  if c : bool then
    v <- deref op ;;
    when (match o_format v with Some _ => true | None => false end)
         (errorf ERROR_FLAG "only one --get is supported") ;;;
    v <- deref op ;; store op (set_o_format arg v) ;;;
    ret (0%Z, true)
  else
  if is0 (strcmp "--json" flag) then
    v <- deref op ;; store op (set_o_jsonout true v) ;;; ret (0%Z, false)
  else
  c <- checkoptarg "--iterate" flag arg ;;
  if c : bool then
    v <- deref op ;;
    when (match o_iterate v with Some _ => true | None => false end)
         (errorf ERROR_ITER "only one --iterate is supported") ;;;
    a <- the_arg arg ;; iterate op a ;;;
    ret (0%Z, true)
  else
  if is0 (strcmp "--verify" flag) then
    v <- deref op ;; store op (set_o_verify true v) ;;; ret (0%Z, false)
  else if is0 (strcmp "--accept-space" flag) then
    v <- deref op ;; store op (set_o_accept_space true v) ;;; ret (0%Z, false)
  else
    ret (1%Z, false).  (* unrecognized option *)


(** The [for] over [variables] inside [get]: it has no [break]. *)
Fixpoint get_vars (uh : CURLU) (ptr : string) (vlen : nat) (urldecode : bool)
         (vars : list (string * CURLUPart)) : M unit :=
  match vars with
  | [] => ret tt
  | (name, part) :: vars' =>
      (if (String.length name =? vlen)%nat && is0 (strncasecmp ptr name vlen)
       then
         let (rc, nurl) :=
           curl_url_get uh part
             (Z.lor (Z.lor CURLU_DEFAULT_PORT CURLU_NO_DEFAULT_PORT)
                    (if urldecode then CURLU_URLDECODE else 0)) in
         match rc with
         | CURLUE_OK => fputs nurl
         | CURLUE_NO_SCHEME | CURLUE_NO_USER | CURLUE_NO_PASSWORD
         | CURLUE_NO_OPTIONS | CURLUE_NO_HOST | CURLUE_NO_PORT
         | CURLUE_NO_QUERY | CURLUE_NO_FRAGMENT | CURLUE_NO_ZONEID =>
             (* silently ignore *)
             ret tt
         | _ =>
             eputs (PROGNAME ++ ": " ++ curl_url_strerror rc ++ " (" ++ name
                    ++ ")" ++ nl)
         end
       else ret tt) ;;;
      get_vars uh ptr vlen urldecode vars'
  end.

(** The [while] of [get]; [ptr] is the string at the cursor.  Every turn
    moves the cursor forward, so [fuel] at least the length of [ptr] is
    enough. *)
Fixpoint get_loop (fuel : nat) (uh : CURLU) (ptr : string) : M unit :=
  match ptr with
  | EmptyString => ret tt
  | String c _ =>
      match fuel with
      | O => diverge
      | S fuel' =>
          if Ascii.eqb "{"%char c then
            if Ascii.eqb "{"%char (at_ ptr 1) then
              (* an escaped {-letter *)
              fputs "{" ;;;
              get_loop fuel' uh (drop 2 ptr)
            else
              (* this is meant as a variable to output *)
              let end_ := strchr ptr "}"%char in
              let ptr1 := drop 1 ptr in (* pass the { *)
              match end_ with
              | None =>
                  (* syntax error *)
                  get_loop fuel' uh ptr1
              | Some e =>
                  (* {path} {:path} *)
                  let '(urldecode, ptr2, off) :=
                    if Ascii.eqb (at_ ptr1 0) ":"%char
                    then (false, drop 1 ptr1, 2%nat)
                    else (true, ptr1, 1%nat) in
                  let vlen := (e - off)%nat in
                  get_vars uh ptr2 vlen urldecode variables ;;;
                  get_loop fuel' uh (drop (S e) ptr) (* pass the end *)
              end
          else if Ascii.eqb "\"%char c
                  && negb (Ascii.eqb (at_ ptr 1) zero) then
            (match at_ ptr 1 with
             | "r"%char => fputs cr
             | "n"%char => fputs nl
             | "t"%char => fputs tab
             | c1 =>
                 (* unknown, just output this *)
                 fputs (String c "") ;;; fputs (String c1 "")
             end) ;;;
            get_loop fuel' uh (drop 2 ptr)
          else
            fputs (String c "") ;;;
            get_loop fuel' uh (drop 1 ptr)
      end
  end.

Definition get (op : ptr) (uh : CURLU) : M unit :=
  v <- deref op ;;
  match o_format v with
  | Some ptr => get_loop (String.length ptr) uh ptr
  | None => ret tt
  end ;;;
  fputs nl.

(** The [for] over [variables] inside [set], left by [break] at the first
    name that matches: the handle and [varset] afterwards, or [None] when
    [found] stays false. *)
Fixpoint set_vars (uh : CURLU) (o : ptr) (set : string) (eq vlen : nat)
         (urlencode : bool) (i : nat) (vars : list (string * CURLUPart))
         (varset : list bool) : M (option (CURLU * list bool)) :=
  match vars with
  | [] => ret None
  | (name, part) :: vars' =>
      if (String.length name =? vlen)%nat && is0 (strncasecmp set name vlen)
      then
        when (nth i varset false
              && match o with None => true | Some _ => false end)
             (errorf ERROR_SET
                ("A component can only be set once per URL (" ++ name ++ ")")) ;;;
        let value := drop (S eq) set in
        let uh' :=
          fst (curl_url_set uh part
                 (match value with EmptyString => None | _ => Some value end)
                 (Z.lor CURLU_NON_SUPPORT_SCHEME
                        (if urlencode then CURLU_URLENCODE else 0))) in
        ret (Some (uh', update i true varset))
      else set_vars uh o set eq vlen urlencode (S i) vars' varset
  end.

Fixpoint set_loop (uh : CURLU) (o : ptr) (varset : list bool)
         (nodes : list string) : M CURLU :=
  match nodes with
  | [] => ret uh
  | set :: nodes' =>
      match strchr set "="%char with
      | Some (S p) =>
          let urlencode := negb (Ascii.eqb (at_ set p) ":"%char) in
          let vlen := if urlencode then S p else p in
          r <- set_vars uh o set (S p) vlen urlencode 0 variables varset ;;
          match r with
          | Some (uh', varset') => set_loop uh' o varset' nodes'
          | None => errorf ERROR_SET ("Set unknown component: " ++ set)
          end
      | _ => errorf ERROR_SET ("invalid --set syntax: " ++ set)
      end
  end.

Definition set (uh : CURLU) (o : ptr) : M CURLU :=
  let varset := repeat false NUM_COMPONENTS in
  v <- deref o ;;
  nodes <- gets (fun w => slist_data w (o_set_list v)) ;;
  set_loop uh o varset nodes.

Definition dq : string := String "034"%char "".

Definition hex_digit (n : nat) : ascii :=
  nth n ["0"; "1"; "2"; "3"; "4"; "5"; "6"; "7"; "8"; "9";
         "a"; "b"; "c"; "d"; "e"; "f"]%char "0"%char.

(** [fprintf(stream, "u%04x", c)] for a [char], which is signed: a byte
    above 127 is a negative [int], printed as eight digits. *)
Definition printf_u04x (c : ascii) : string :=
  let n := nat_of_ascii c in
  "u" ++ (if (n <? 128)%nat then "00" else "ffffff")
      ++ String (hex_digit (n / 16)) (String (hex_digit (n mod 16)) "").

(** The [for] of [jsonString] over the bytes of [in]: what it writes. *)
Fixpoint jsonString_loop (in_ : string) (lowercase : bool) : string :=
  match in_ with
  | EmptyString => ""
  | String c rest =>
      (match c with
       | "\"%char => "\\"
       | "034"%char => "\" ++ dq
       | "008"%char => "\b"
       | "012"%char => "\f"
       | "010"%char => "\n"
       | "013"%char => "\r"
       | "009"%char => "\t"
       | _ =>
           if (nat_of_ascii c <? 32)%nat || (128 <=? nat_of_ascii c)%nat
           then printf_u04x c
           else if lowercase && is_upper c
                then (* do not use tolower() since that's locale specific *)
                  String (ascii_of_nat (nat_of_ascii c + 32)) ""
                else String c ""
       end) ++ jsonString_loop rest lowercase
  end.

Definition jsonString (in_ : string) (lowercase : bool) : M unit :=
  fputs dq ;;;
  fputs (jsonString_loop in_ lowercase) ;;;
  fputs dq.

Fixpoint json_loop (uh : CURLU) (i : nat) (vars : list (string * CURLUPart))
  : M unit :=
  match vars with
  | [] => ret tt
  | (name, part) :: vars' =>
      let (rc, nurl) :=
        curl_url_get uh part
          (Z.lor (if (i =? 0)%nat then 0 else CURLU_DEFAULT_PORT)
                 CURLU_URLDECODE) in
      (if is_ok rc then
         when (negb (i =? 0)%nat) (fputs ("," ++ nl)) ;;;
         fputs ("    " ++ dq ++ name ++ dq ++ ": ") ;;;
         jsonString nurl false
       else ret tt) ;;;
      json_loop uh (S i) vars'
  end.

Definition json (o : ptr) (uh : CURLU) : M unit :=
  v <- deref o ;;
  fputs ((if (o_urls v =? 0)%nat then "" else "," ++ nl) ++ "  {" ++ nl) ;;;
  json_loop uh 0 variables ;;;
  fputs (nl ++ "  }").

(** The test on one pair in [trim]: is [q] to be stripped? *)
Definition trim_match (pattern : bool) (inslen : nat) (ptr q : string) : bool :=
  let qlen :=
    match strchr q "="%char with
    | Some sep => sep
    | None => String.length q
    end in
  (pattern && (inslen <=? qlen)%nat && is0 (strncasecmp q ptr inslen))
  || (negb pattern && (inslen =? qlen)%nat && is0 (strncasecmp q ptr inslen)).

(** The [for] over the stored pairs: a stripped pair becomes the empty
    string. *)
Definition trim_pairs (pattern : bool) (inslen : nat) (ptr : string)
           (qpairs : list string) : list string :=
  map (fun q => if trim_match pattern inslen ptr q then "" (* marked as deleted *)
                else q) qpairs.

(** --trim query="utm_*" *)
Fixpoint trim_loop (nodes : list string) : M unit :=
  match nodes with
  | [] => ret tt
  | instr :: nodes' =>
      when (negb (is0 (strncasecmp instr "query" 5)))
           (* for now we can only trim query components *)
           (errorf ERROR_TRIM ("Unsupported trim component: " ++ instr)) ;;;
      match strchr instr "="%char with
      | Some (S e) =>
          (* 'ptr' should be a fixed string or a pattern ending with an
             asterisk *)
          let ptr := drop (S (S e)) instr in (* pass the = *)
          let inslen := String.length ptr in
          (* ptr[inslen - 1], which is the '=' itself when inslen is 0 *)
          let pattern := Ascii.eqb (at_ instr (S e + inslen)) "*"%char in
          let inslen := if pattern then (inslen - 1)%nat else inslen in
          modify (fun w =>
                    with_qpairs (trim_pairs pattern inslen ptr (w_qpairs w)) w)
      | _ => ret tt
      end ;;;
      trim_loop nodes'
  end.

Definition trim (o : ptr) : M unit :=
  v <- deref o ;;
  nodes <- gets (fun w => slist_data w (o_trim_list v)) ;;
  trim_loop nodes.

(** memdup the amount and add a trailing zero *)
Definition memdupzero (source : string) (len : nat) : string :=
  take len source.

Definition freeqpairs : M unit := modify (with_qpairs []).

Definition addqpair (pair : string) (len : nat) : M (option string) :=
  n <- gets nqpairs ;;
  if (n <? MAX_QPAIRS)%nat then
    let p := memdupzero pair len in
    modify (fun w => with_qpairs ((w_qpairs w ++ [p])%list) w) ;;;
    ret (Some p)
  else
    warnf "too many query pairs" ;;;
    ret None.

(** The [while] of [extractqpairs]; [p] is the string at the cursor. *)
Fixpoint extract_loop (fuel : nat) (p : string) : M unit :=
  match p with
  | EmptyString => ret tt
  | _ =>
      match fuel with
      | O => diverge
      | S fuel' =>
          let amp := strchr p "&"%char in
          let len :=
            match amp with
            | None => String.length p
            | Some a => a
            end in
          addqpair p len ;;;
          match amp with
          | Some a => extract_loop fuel' (drop (S a) p)
          | None => ret tt
          end
      end
  end.

(** convert the query string into an array of name=data pair *)
Definition extractqpairs (uh : CURLU) : M unit :=
  modify (with_qpairs []) ;;;
  (* extract the query *)
  let (rc, q) := curl_url_get uh CURLUPART_QUERY 0 in
  if is_ok rc then extract_loop (String.length q) q else ret tt.

(** One turn of the [for] of [qpair2query]:
    [nq = curl_maprintf("%s%s%s", nq?nq:"", (nq && *nq && *q)? "&": "", q)]. *)
Definition nq_step (nq : option string) (q : string) : option string :=
  Some ((match nq with Some s => s | None => "" end)
        ++ (match nq, q with
            | Some (String _ _), String _ _ => "&"
            | _, _ => ""
            end)
        ++ q).

Definition qpair2query_nq (qpairs : list string) : option string :=
  fold_left nq_step qpairs None.

Definition qpair2query (uh : CURLU) : M CURLU :=
  qs <- gets w_qpairs ;;
  match qpair2query_nq qs with
  | Some nq =>
      let (uh', rc) := curl_url_set uh CURLUPART_QUERY (Some nq) 0 in
      when (negb (is_ok rc)) (warnf "internal problem") ;;;
      ret uh'
  | None => ret uh
  end.

(** append path segments *)
Fixpoint append_path_loop (uh : CURLU) (p : list string) : M CURLU :=
  match p with
  | [] => ret uh
  | apath :: p' =>
      (* extract the current path *)
      let (rc, opath) := curl_url_get uh CURLUPART_PATH 0 in
      if negb (is_ok rc) then fault (* opath is not set *) else
      let olen := String.length opath in
      if (olen =? 0)%nat then fault (* opath[-1] *) else
      (* append the new segment *)
      let npath :=
        opath ++ (if Ascii.eqb (at_ opath (olen - 1)) "/"%char then "" else "/")
              ++ apath in
      (* set the new path *)
      append_path_loop (fst (curl_url_set uh CURLUPART_PATH (Some npath) 0)) p'
  end.

Definition singleurl (o : ptr) (url : option string) : M unit :=
  match curl_url with
  | None => errorf ERROR_MEM "out of memory"
  | Some uh =>
      v <- deref o ;;
      parsed <-
        match url with
        | Some u =>
            let (uh', rc) :=
              curl_url_set uh CURLUPART_URL (Some u)
                (Z.lor (Z.lor CURLU_GUESS_SCHEME CURLU_NON_SUPPORT_SCHEME)
                       (if o_accept_space v
                        then Z.lor CURLU_ALLOW_SPACE CURLU_URLENCODE else 0)) in
            if negb (is_ok rc) then
              when (o_verify v)
                   (errorf ERROR_BADURL
                           (curl_url_strerror rc ++ " [" ++ u ++ "]")) ;;;
              warnf (curl_url_strerror rc ++ " [" ++ u ++ "]") ;;;
              ret None
            else
              match o_redirect v with
              | Some r =>
                  ret (Some (fst (curl_url_set uh' CURLUPART_URL (Some r)
                                    (Z.lor CURLU_GUESS_SCHEME
                                           CURLU_NON_SUPPORT_SCHEME))))
              | None => ret (Some uh')
              end
        | None => ret (Some uh)
        end ;;
      match parsed with
      | None => ret tt
      | Some uh =>
          (* set everything *)
          uh <- set uh o ;;
          v <- deref o ;;
          p <- gets (fun w => slist_data w (o_append_path v)) ;;
          uh <- append_path_loop uh p ;;
          extractqpairs uh ;;;
          (* append query segments *)
          v <- deref o ;;
          p <- gets (fun w => slist_data w (o_append_query v)) ;;
          forM p (fun data => addqpair data (String.length data) ;;; ret tt) ;;;
          (* trim parts *)
          trim o ;;;
          (* put the query back *)
          uh <- qpair2query uh ;;
          v <- deref o ;;
          (if o_jsonout v then json o uh
           else match o_format v with
                | Some _ =>
                    (* custom output format *)
                    get o uh
                | None =>
                    (* default output is full URL *)
                    let (rc, nurl) :=
                      curl_url_get uh CURLUPART_URL CURLU_NO_DEFAULT_PORT in
                    if is_ok rc then fputs (nurl ++ nl)
                    else errorf ERROR_URL "not enough input for a URL"
                end) ;;;
          freeqpairs ;;;
          v <- deref o ;; store o (set_o_urls (uint_succ (o_urls v)) v)
      end
  end.

(** The [for] of [main] over the command line ([argv[1]] onwards). *)
Fixpoint args_loop (o : ptr) (argv : list string) : M unit :=
  match argv with
  | [] => ret tt
  | a0 :: rest =>
      usedarg <-
        (if (Ascii.eqb (at_ a0 0) "-"%char && negb (Ascii.eqb (at_ a0 1) "-"%char))
            (* single-dash prefix *)
            || (Ascii.eqb (at_ a0 0) "-"%char && Ascii.eqb (at_ a0 1) "-"%char)
         then
           (* dash-dash prefixed *)
           r <- getarg o a0 (hd_error rest) ;;
           when (negb (is0 (fst r)))
                (errorf ERROR_FLAG ("unknown option: " ++ a0)) ;;;
           ret (snd r)
         else
           (* this is a URL *)
           urladd o a0 ;;; ret false) ;;
      if usedarg : bool then
        (* skip the parsed argument *)
        match rest with
        | [] => ret tt
        | _ :: rest' => args_loop o rest'
        end
      else args_loop o rest
  end.

(** File mode, the variants for one line:
    [while(opt->iterate != NULL)]. *)
Fixpoint file_variants (fuel : nat) (opt : ptr) (buffer : string) : M unit :=
  match fuel with
  | O => diverge
  | S fuel' =>
      v <- deref opt ;;
      match o_iterate v with
      | Some _ =>
          singleurl opt (Some buffer) ;;;
          v <- deref opt ;;
          file_variants fuel' (o_iterate v) buffer
      | None => ret tt
      end
  end.

(** File mode, the [while(fgets(...))]: every turn takes at least one byte
    of the stream. *)
Fixpoint file_loop (fuel : nat) (o : ptr) : M unit :=
  match fuel with
  | O => diverge
  | S fuel' =>
      v <- deref o ;;
      line <- fgets 4096 (o_url v) ;;
      match line with
      | None => ret tt
      | Some bytes =>
          (* [fgets] stores the bytes it read; [strchr] and the callee see
             the string they hold *)
          let buffer := c_str bytes in
          match strchr buffer "010"%char with
          | Some (S e) =>
              let eol :=
                if Ascii.eqb (at_ buffer e) "013"%char
                then e (* CRLF detected *) else S e in
              let url := take eol buffer in (* end of URL *)
              fuel <- chain_fuel ;;
              file_variants fuel o url
          | _ =>
              (* no newline or no content, skip *)
              ret tt
          end ;;;
          file_loop fuel' o
      end
  end.

(** Argument mode, the variants for one URL: [while(opt)]. *)
Fixpoint variants (fuel : nat) (opt : ptr) (url : option string) : M unit :=
  match opt with
  | None => ret tt
  | Some _ =>
      match fuel with
      | O => diverge
      | S fuel' =>
          singleurl opt url ;;;
          v <- deref opt ;;
          variants fuel' (o_iterate v) url
      end
  end.

(** Argument mode, the [do ... while(node)] over [url_list]. *)
Fixpoint url_loop (o : ptr) (node : list string) : M unit :=
  match node with
  | [] => fuel <- chain_fuel ;; variants fuel o None
  | url :: node' =>
      fuel <- chain_fuel ;;
      variants fuel o (Some url) ;;;
      match node' with
      | [] => ret tt
      | _ => url_loop o node'
      end
  end.

(** [main] once the command line is read: the URLs are processed, from
    the file or from the list, and the chain is cleaned up. *)
Definition main_process (o : ptr) : M Z :=
  let exit_status := 0%Z in
  v <- deref o ;;
  when (o_jsonout v) (fputs ("[" ++ nl)) ;;;
  match o_url v with
  | Some _ =>
      (* this is a file to read URLs from *)
      fuel <- gets (fun w => S (String.length (nth (match o_url v with
                                                    | Some a => a
                                                    | None => O
                                                    end) (w_streams w) ""))) ;;
      file_loop fuel o
  | None =>
      (* not reading URLs from a file *)
      node <- gets (fun w => slist_data w (o_url_list v)) ;;
      url_loop o node
  end ;;;
  when (o_jsonout v) (fputs (nl ++ "]" ++ nl)) ;;;
  (* we're done with libcurl, so clean it up *)
  v <- deref o ;;
  fuel <- chain_fuel ;;
  optcleanup fuel (o_iterate v) ;;;
  ret exit_status.

(** [main]; [argv] is the whole vector, the program name first.  The
    [struct option o] of [main] is the first object of the world. *)
Definition main (argv : list string) : M Z :=
  o <- malloc_copy zero_option ;;
  args_loop o (tl argv) ;;;
  main_process o.

End Program.

(** The world at program start: nothing allocated, [stdin] open on
    [stdin_text], nothing written. *)
Definition init_world (stdin_text : string) (fs : list (string * string)) : world :=
  mk_world [] [] [] [stdin_text] fs "" "".

(** ** A small engine

    An instance of the interface, small enough to run: a handle is a table
    of the ten components, a URL is cut at [://], at the first [/], [?]
    and [#].  It stands in for libcurl wherever a statement about all
    engines, or about engines with some property, is applied to one. *)

Module Toy.

Definition part_index (p : CURLUPart) : nat :=
  match p with
  | CURLUPART_URL => 0 | CURLUPART_SCHEME => 1 | CURLUPART_USER => 2
  | CURLUPART_PASSWORD => 3 | CURLUPART_OPTIONS => 4 | CURLUPART_HOST => 5
  | CURLUPART_PORT => 6 | CURLUPART_PATH => 7 | CURLUPART_QUERY => 8
  | CURLUPART_FRAGMENT => 9 | CURLUPART_ZONEID => 10
  end.

Definition handle : Type := CURLUPart -> option string.

Definition empty : handle := fun _ => None.

Definition part (h : handle) (p : CURLUPart) : option string := h p.

Definition put (p : CURLUPart) (v : option string) (h : handle) : handle :=
  fun q => if (part_index p =? part_index q)%nat then v else h q.

Definition of_list (l : list (option string)) : handle :=
  fun q => nth (part_index q) l None.

(** Offset of the first byte of [s] that is one of [cs]. *)
Fixpoint first_of (cs : list ascii) (s : string) : nat :=
  match s with
  | EmptyString => O
  | String c s' =>
      if existsb (Ascii.eqb c) cs then O else S (first_of cs s')
  end.

Fixpoint find_sep (s : string) : option nat :=
  match s with
  | String ":" (String "/" (String "/" _)) => Some O
  | String _ s' => option_map S (find_sep s')
  | EmptyString => None
  end.

Definition nonempty (s : string) : option string :=
  match s with EmptyString => None | _ => Some s end.

Definition parse (u : string) : option handle :=
  let (scheme, rest) :=
    match find_sep u with
    | Some n => (take n u, drop (n + 3) u)
    | None => ("http", u)
    end in
  let nh := first_of ["/"; "?"; "#"]%char rest in
  let host := take nh rest in
  let rest := drop nh rest in
  let np := first_of ["?"; "#"]%char rest in
  let path := take np rest in
  let rest := drop np rest in
  let nq := first_of ["#"]%char rest in
  let query := drop 1 (take nq rest) in
  let fragment := drop 1 (drop nq rest) in
  match host, strchr u " "%char with
  | String _ _, None =>
      Some (of_list
              [None; Some scheme; None; None; None; Some host; None;
               Some (match path with EmptyString => "/" | _ => path end);
               nonempty query; nonempty fragment; None])
  | _, _ => None
  end.

Definition absent (p : CURLUPart) : CURLUcode :=
  match p with
  | CURLUPART_URL => CURLUE_NO_HOST
  | CURLUPART_SCHEME => CURLUE_NO_SCHEME
  | CURLUPART_USER => CURLUE_NO_USER
  | CURLUPART_PASSWORD => CURLUE_NO_PASSWORD
  | CURLUPART_OPTIONS => CURLUE_NO_OPTIONS
  | CURLUPART_HOST => CURLUE_NO_HOST
  | CURLUPART_PORT => CURLUE_NO_PORT
  | CURLUPART_PATH => CURLUE_OK
  | CURLUPART_QUERY => CURLUE_NO_QUERY
  | CURLUPART_FRAGMENT => CURLUE_NO_FRAGMENT
  | CURLUPART_ZONEID => CURLUE_NO_ZONEID
  end.

Definition opt_str (pre : string) (s : option string) : string :=
  match s with Some x => pre ++ x | None => "" end.

Definition url_get (h : handle) (p : CURLUPart) (flags : Z)
  : CURLUcode * string :=
  match p with
  | CURLUPART_URL =>
      match part h CURLUPART_SCHEME, part h CURLUPART_HOST with
      | Some s, Some host =>
          (CURLUE_OK,
           s ++ "://" ++ host ++ opt_str ":" (part h CURLUPART_PORT)
             ++ opt_str "" (part h CURLUPART_PATH)
             ++ opt_str "?" (part h CURLUPART_QUERY)
             ++ opt_str "#" (part h CURLUPART_FRAGMENT))
      | None, _ => (CURLUE_NO_SCHEME, "")
      | _, None => (CURLUE_NO_HOST, "")
      end
  | CURLUPART_PATH =>
      (CURLUE_OK, match part h p with Some x => x | None => "/" end)
  | _ =>
      match part h p with
      | Some x => (CURLUE_OK, x)
      | None => (absent p, "")
      end
  end.

Definition url_set (h : handle) (p : CURLUPart) (v : option string)
           (flags : Z) : handle * CURLUcode :=
  match p, v with
  | CURLUPART_URL, Some u =>
      match parse u with
      | Some h' => (h', CURLUE_OK)
      | None => (h, CURLUE_MALFORMED_INPUT)
      end
  | CURLUPART_URL, None => (empty, CURLUE_OK)
  | _, _ => (put p v h, CURLUE_OK)
  end.

Definition escape (s : string) (n : nat) : option string :=
  Some (match n with O => s | _ => take n s end).

#[export] Instance engine : UrlEngine := {|
  CURLU := handle;
  curl_url := Some empty;
  curl_url_set := url_set;
  curl_url_get := url_get;
  curl_url_strerror := fun _ => "Malformed input to a URL function";
  curl_easy_escape := escape;
  curl_version := "8.0.0";
  TRURL_VERSION_TXT := "0.2"
|}.

End Toy.

(** ** The small engine with libcurl's check of the port

    The same engine, but for [curl_url_set] of a port: like libcurl it
    refuses a port that is not a number, with [CURLUE_BAD_PORT_NUMBER],
    and leaves the handle as it is. *)

Module Picky.

Definition is_digit (c : ascii) : bool :=
  ((48 <=? nat_of_ascii c) && (nat_of_ascii c <=? 57))%nat.

Fixpoint all_digits (s : string) : bool :=
  match s with
  | EmptyString => true
  | String c s' => is_digit c && all_digits s'
  end.

Definition url_set (h : Toy.handle) (p : CURLUPart) (v : option string)
           (flags : Z) : Toy.handle * CURLUcode :=
  match p, v with
  | CURLUPART_PORT, Some x =>
      if all_digits x then Toy.url_set h p v flags
      else (h, CURLUE_BAD_PORT_NUMBER)
  | _, _ => Toy.url_set h p v flags
  end.

Definition engine : UrlEngine := {|
  CURLU := Toy.handle;
  curl_url := Some Toy.empty;
  curl_url_set := url_set;
  curl_url_get := Toy.url_get;
  curl_url_strerror := fun _ => "Port number was not a decimal number";
  curl_easy_escape := Toy.escape;
  curl_version := "8.0.0";
  TRURL_VERSION_TXT := "0.2"
|}.

End Picky.


(** ** The words of the specification

    Definitions that follow the specification's wording, for the statements
    that compare the code with it. *)

Module Spec.

(** Splitting on every [&]: [n] separators give [n + 1] pieces. *)
Fixpoint split_amp (s : string) : list string :=
  match s with
  | EmptyString => [""]
  | String c s' =>
      if Ascii.eqb c "&"%char then "" :: split_amp s'
      else match split_amp s' with
           | p :: ps => String c p :: ps
           | [] => [String c ""]
           end
  end.

(** Joining with [&]. *)
Fixpoint join_amp (l : list string) : string :=
  match l with
  | [] => ""
  | x :: l' =>
      match l' with
      | [] => x
      | _ => x ++ "&" ++ join_amp l'
      end
  end.

(** The pieces without a final empty one. *)
Fixpoint drop_final_empty (l : list string) : list string :=
  match l with
  | [] => []
  | x :: l' =>
      match x, l' with
      | EmptyString, [] => []
      | _, _ => x :: drop_final_empty l'
      end
  end.

(** The segments of a query string the extractor visits. *)
Definition pieces (q : string) : list string :=
  drop_final_empty (split_amp q).

Definition nonempty (s : string) : Prop := s <> "".

Fixpoint lower (s : string) : string :=
  match s with
  | EmptyString => ""
  | String c s' => String (tolower c) (lower s')
  end.

(** Equality without regard to case. *)
Definition ci_eq (a b : string) : bool := String.eqb (lower a) (lower b).

(** The key of a pair: the text before the first [=], or all of it. *)
Definition key (pair : string) : string :=
  match strchr pair "="%char with
  | Some n => take n pair
  | None => pair
  end.

Fixpoint ends_with_star (pat : string) : bool :=
  match pat with
  | EmptyString => false
  | String c EmptyString => Ascii.eqb c "*"%char
  | String _ pat' => ends_with_star pat'
  end.

(** Does a trim pattern match a key? *)
Definition key_matches (pat k : string) : bool :=
  if ends_with_star pat then
    let n := (String.length pat - 1)%nat in
    (n <=? String.length k)%nat && ci_eq (take n k) (take n pat)
  else
    (String.length k =? String.length pat)%nat && ci_eq k pat.

(** What one trim pattern does to the stored pairs. *)
Definition tombstone (pat : string) (pairs : list string) : list string :=
  map (fun q => if key_matches pat (key q) then "" else q) pairs.

(** Format text with no brace and no backslash in it. *)
Fixpoint plain (s : string) : bool :=
  match s with
  | EmptyString => true
  | String c s' =>
      negb (Ascii.eqb c "{"%char) && negb (Ascii.eqb c "\"%char) && plain s'
  end.

(** A [component=value] or [component:=value] directive: the component it
    names, its value (none when empty) and whether the value is to be
    encoded. *)
Definition lookup_component (name : string) : option CURLUPart :=
  option_map snd (find (fun v => ci_eq name (fst v)) variables).

Definition parse_directive (d : string)
  : option (CURLUPart * option string * bool) :=
  match strchr d "="%char with
  | Some (S p) =>
      let noenc := Ascii.eqb (at_ d p) ":"%char in
      let name := take (if noenc then p else S p) d in
      let value := drop (S (S p)) d in
      match lookup_component name with
      | Some part =>
          Some (part,
                match value with EmptyString => None | _ => Some value end,
                negb noenc)
      | None => None
      end
  | _ => None
  end.

(** The engine call a directive stands for. *)
Definition apply_directive {E : UrlEngine} (uh : CURLU) (d : string) : CURLU :=
  match parse_directive d with
  | Some (part, value, enc) =>
      fst (curl_url_set uh part value
             (Z.lor CURLU_NON_SUPPORT_SCHEME
                    (if enc then CURLU_URLENCODE else 0)))
  | None => uh
  end.

End Spec.
Import Spec.

(** ** Definitions for the statements *)

(** The stored pairs after a run of [addqpair] over [xs], and the warnings
    on the way. *)
Definition store_one (w : world) (x : string) : world :=
  if (nqpairs w <? MAX_QPAIRS)%nat
  then with_qpairs ((w_qpairs w ++ [x])%list) w
  else with_err (w_err w ++ warnf_text "too many query pairs") w.

Definition store_all (xs : list string) (w : world) : world :=
  fold_left store_one xs w.

Fixpoint warnings (n : nat) : string :=
  match n with
  | O => ""
  | S n' => warnf_text "too many query pairs" ++ warnings n'
  end.

(** [n] pairs [a], joined by [&]. *)
Fixpoint many_pairs (n : nat) : string :=
  match n with
  | O => ""
  | 1%nat => "a"
  | S n' => "a&" ++ many_pairs n'
  end.

(** A handle of the small engine that holds just the query [q], and the
    world at program start with nothing on [stdin]. *)
Definition toy_query (q : string) : @CURLU Toy.engine :=
  Toy.put CURLUPART_QUERY (Some q) Toy.empty.

Definition w0 : world := init_world "" [].

(** A world whose only variant carries the trim directive [d], with
    [pairs] stored. *)
Definition trim_world (d : string) (pairs : list string) : world :=
  mk_world [set_o_trim_list (Some 0%nat) zero_option] [[d]] pairs [""] [] "" "".

(** A world whose only variant has the format [f]. *)
Definition format_world (f : string) : world :=
  mk_world [set_o_format (Some f) zero_option] [] [] [""] [] "" "".

(** The text of the error the set-once guard of [set] would print. *)
Definition set_once_text (name : string) : string :=
  errorf_text ("A component can only be set once per URL (" ++ name ++ ")").

(** A world whose only variant has the set-list [ds]. *)
Definition set_world (ds : list string) : world :=
  mk_world [set_o_set_list (Some 0%nat) zero_option] [ds] [] [""] [] "" "".

(** The flags and the value [set] hands to [curl_url_set] for a directive
    whose [=] is at offset [eq]. *)
Definition set_flags (enc : bool) : Z :=
  Z.lor CURLU_NON_SUPPORT_SCHEME (if enc then CURLU_URLENCODE else 0).

Definition set_value (d : string) (eq : nat) : option string :=
  let value := drop (S eq) d in
  match value with
  | EmptyString => None
  | _ => Some value
  end.

(** The first part of [main]: [o] is cleared and the command line is
    read into it. *)
Definition command_line {E : UrlEngine} (argv : list string) : M unit :=
  o <- malloc_copy zero_option ;; args_loop o (tl argv).

(** The set-lists of the objects of a world, by address. *)
Definition set_lists (w : world) : list (list string) :=
  map (fun v => slist_data w (o_set_list v)) (w_opts w).

(** The flags of the three kinds of engine call in [singleurl] and [get]. *)
Definition parse_flags (accept_space : bool) : Z :=
  Z.lor (Z.lor CURLU_GUESS_SCHEME CURLU_NON_SUPPORT_SCHEME)
        (if accept_space then Z.lor CURLU_ALLOW_SPACE CURLU_URLENCODE else 0).

Definition get_flags (urldecode : bool) : Z :=
  Z.lor (Z.lor CURLU_DEFAULT_PORT CURLU_NO_DEFAULT_PORT)
        (if urldecode then CURLU_URLDECODE else 0).

(** The [struct option] left by [-f urls.txt] alone: stream 1 is the file. *)
Definition file_option : struct_option :=
  mk_option None None None None None None None (Some 1%nat) true false None
            false false 0 0.




(** ** Definitions for the further properties *)

(** The pairs that are not tombstones. *)
Definition live (pairs : list string) : list string :=
  filter (fun q => negb (String.eqb q "")) pairs.

(** The first five bytes of a trim directive are [query], in any case. *)
Definition trim_accepts (instr : string) : bool :=
  is0 (strncasecmp instr "query" 5).

(** What an accepted trim directive makes of one stored pair. *)
Definition trim_one (instr : string) (q : string) : string :=
  match strchr instr "="%char with
  | Some (S e) =>
      let ptr := drop (S (S e)) instr in
      let inslen := String.length ptr in
      let pattern := Ascii.eqb (at_ instr (S e + inslen)) "*"%char in
      let inslen := if pattern then (inslen - 1)%nat else inslen in
      if trim_match pattern inslen ptr q then "" else q
  | _ => q
  end.

(** What a list of accepted trim directives makes of one stored pair. *)
Definition trim_all (nodes : list string) (q : string) : string :=
  fold_left (fun q instr => trim_one instr q) nodes q.

(** The entry of [variables] a name selects, without regard to case. *)
Definition lookup_variable (name : string) : option (string * CURLUPart) :=
  find (fun v => ci_eq name (fst v)) variables.

(** What [get] does for a reference to the component [name]: the engine's
    value goes to [stdout], an absent component is passed over, any other
    failure is reported on [stderr]. *)
Definition get_part {E : UrlEngine} (uh : CURLU) (name : string)
           (part : CURLUPart) (urldecode : bool) : M unit :=
  let (rc, nurl) := curl_url_get uh part (get_flags urldecode) in
  match rc with
  | CURLUE_OK => fputs nurl
  | CURLUE_NO_SCHEME | CURLUE_NO_USER | CURLUE_NO_PASSWORD
  | CURLUE_NO_OPTIONS | CURLUE_NO_HOST | CURLUE_NO_PORT
  | CURLUE_NO_QUERY | CURLUE_NO_FRAGMENT | CURLUE_NO_ZONEID => ret tt
  | _ => eputs (PROGNAME ++ ": " ++ curl_url_strerror rc ++ " (" ++ name
                ++ ")" ++ nl)
  end.

(** [w'] differs from [w] by text added to [stdout] and [stderr] only. *)
Definition only_output (w w' : world) : Prop :=
  w_opts w' = w_opts w /\ w_slists w' = w_slists w /\
  w_qpairs w' = w_qpairs w /\ w_streams w' = w_streams w /\
  w_fs w' = w_fs w /\
  (exists s, w_out w' = w_out w ++ s) /\ (exists s, w_err w' = w_err w ++ s).

(** A string is the content of a C string when it holds no NUL. *)
Fixpoint is_cstring (s : string) : bool :=
  match s with
  | EmptyString => true
  | String c s' => negb (Ascii.eqb c zero) && is_cstring s'
  end.

(** [p] is the beginning of [s]. *)
Fixpoint starts_with (p s : string) : bool :=
  match p, s with
  | EmptyString, _ => true
  | String x p', String y s' => Ascii.eqb x y && starts_with p' s'
  | String _ _, EmptyString => false
  end.

(** The flags [getarg] knows, and those of them that take an argument. *)
Definition known_flags : list string :=
  ["-v"; "--version"; "-h"; "--help"; "--url"; "-f"; "--url-file"; "-a";
   "--append"; "-s"; "--set"; "--redirect"; "--trim"; "-g"; "--get";
   "--json"; "--iterate"; "--verify"; "--accept-space"].

Definition argument_flags : list string :=
  ["--url"; "-f"; "--url-file"; "-a"; "--append"; "-s"; "--set";
   "--redirect"; "--trim"; "-g"; "--get"; "--iterate"].

(** No byte of the string is a space. *)
Fixpoint no_space (s : string) : bool :=
  match s with
  | EmptyString => true
  | String c s' => negb (Ascii.eqb c " "%char) && no_space s'
  end.

(** The names [iterate] is written for, each with the beginning of the set
    directive it builds. *)
Definition iterators : list (string * string) :=
  [("hosts=", "host="); ("ports=", "port="); ("schemes=", "scheme=")].

(** A value of 4091 bytes. *)
Definition long_value : string :=
  string_of_list_ascii (repeat "a"%char 4091).

(** The message [set] ends the program with at a directive it cannot
    apply. *)
Definition set_error (d : string) : string :=
  match strchr d "="%char with
  | Some (S _) => "Set unknown component: " ++ d
  | _ => "invalid --set syntax: " ++ d
  end.

(** The chain that starts at [p] is allocated (or [p] is NULL). *)
Definition slist_ok (w : world) (p : ptr) : Prop :=
  match p with
  | None => True
  | Some q => (q < List.length (w_slists w))%nat
  end.

(** What the loop of [help] writes: the names of the components. *)
Fixpoint names_text (i : nat) (vars : list (string * CURLUPart)) : string :=
  match vars with
  | [] => ""
  | (name, _) :: vars' =>
      (if (i =? 0)%nat then "" else ", ") ++ name ++ names_text (S i) vars'
  end.

(** A line of the URL file without the carriage return it may end with. *)
Definition chomp_cr (line : string) : string :=
  match String.length line with
  | O => line
  | S e => if Ascii.eqb (at_ line e) "013"%char then take e line else line
  end.

(** The control bytes [jsonString] has a two-byte escape for. *)
Definition short_escapes : list ascii :=
  ["008"; "009"; "010"; "012"; "013"]%char.

(** The world after [-f] on a file with the text [text]. *)
Definition file_world (text : string) : world :=
  mk_world [file_option] [] [] [""; text] [] "" "".

(** The world a call leaves, however it ends. *)
Definition world_of {A} (r : outcome A) : world :=
  match r with
  | Ret _ w => w
  | Exit _ w => w
  | Fault w => w
  | Diverge w => w
  end.

(** [R] relates the world before a call to the world after it, however the
    call ends. *)
Definition always (R : world -> world -> Prop) {A} (m : M A) : Prop :=
  forall w, R w (world_of (m w)).

(** The links of the chain of variants are as they were. *)
Definition links_kept (w w' : world) : Prop :=
  map o_iterate (w_opts w') = map o_iterate (w_opts w).

(** Of the objects only the counters of processed URLs have changed, and
    no list, stream or file has. *)
Definition counters_only (w w' : world) : Prop :=
  map (set_o_urls 0) (w_opts w') = map (set_o_urls 0) (w_opts w)
  /\ w_slists w' = w_slists w
  /\ w_streams w' = w_streams w
  /\ w_fs w' = w_fs w.

(** Does a run end in a return? *)
Definition returns {A} (r : outcome A) : bool :=
  match r with
  | Ret _ _ => true
  | _ => false
  end.

(** The values of an iteration directive: what follows the name and the
    byte after it, for the three names [iterate] is written for. *)
Definition iterate_values (arg : string) : option string :=
  if starts_with "hosts" arg then Some (drop 6 arg)
  else if starts_with "ports=" arg then Some (drop 6 arg)
  else if starts_with "schemes=" arg then Some (drop 8 arg)
  else None.

(** A path with one more segment, as [singleurl] builds it. *)
Definition join_path (opath apath : string) : string :=
  opath
  ++ (if Ascii.eqb (at_ opath (String.length opath - 1)) "/"%char
      then "" else "/")
  ++ apath.

(** The pieces of a format that one turn of the loop of [get] takes and
    that are no unclosed reference: a byte that is neither [{] nor
    backslash, the escape [{{], a backslash with the byte after it, and a
    reference with its closing brace. *)
Inductive token : string -> Prop :=
| tok_char (c : ascii) :
    Ascii.eqb c "{"%char = false -> Ascii.eqb c "\"%char = false ->
    token (String c "")
| tok_brace : token "{{"
| tok_escape (c : ascii) :
    Ascii.eqb c zero = false -> token (String "\"%char (String c ""))
| tok_reference (body : string) :
    strchr body "}"%char = None -> Ascii.eqb (at_ body 0) "{"%char = false ->
    token ("{" ++ body ++ "}").

(** A text made of such pieces. *)
Inductive tokens : string -> Prop :=
| tokens_nil : tokens ""
| tokens_cons (t s : string) : token t -> tokens s -> tokens (t ++ s).

(** * Properties *)

(** ** Strings *)

Lemma append_nil_r (s : string) : s ++ "" = s.
Proof. induction s; simpl; congruence. Qed.

Lemma append_assoc (a b c : string) : (a ++ b) ++ c = a ++ (b ++ c).
Proof. induction a; simpl; congruence. Qed.

Lemma append_inv_head (a b c : string) : a ++ b = a ++ c -> b = c.
Proof. induction a; simpl; intros H; [assumption | inversion H; auto]. Qed.

Lemma length_append (a b : string) :
  String.length (a ++ b) = (String.length a + String.length b)%nat.
Proof. induction a; simpl; congruence. Qed.

Lemma take_length (n : nat) (s : string) :
  String.length (take n s) = Nat.min n (String.length s).
Proof.
  revert s; induction n; intros [|c s]; simpl; auto.
Qed.

Lemma take_all (n : nat) (s : string) :
  (String.length s <= n)%nat -> take n s = s.
Proof.
  revert s; induction n; intros [|c s]; simpl; intros H; auto; try lia.
  f_equal. apply IHn. lia.
Qed.

Lemma take_drop (n : nat) (s : string) : take n s ++ drop n s = s.
Proof.
  revert s; induction n; intros [|c s]; simpl; auto.
  f_equal. apply IHn.
Qed.

Lemma drop_length (n : nat) (s : string) :
  String.length (drop n s) = (String.length s - n)%nat.
Proof.
  revert s; induction n; intros [|c s]; simpl; auto.
Qed.

Lemma take_take (n m : nat) (s : string) :
  (n <= m)%nat -> take n (take m s) = take n s.
Proof.
  revert m s; induction n; intros m s H; [destruct (take m s); reflexivity|].
  destruct m; [lia|]. destruct s; simpl; [reflexivity|].
  f_equal. apply IHn. lia.
Qed.

Lemma take_app_exact (a b : string) : take (String.length a) (a ++ b) = a.
Proof. induction a; simpl; [destruct b; reflexivity | congruence]. Qed.

Lemma drop_app_exact (a b : string) : drop (String.length a) (a ++ b) = b.
Proof. induction a; simpl; [destruct b; reflexivity | congruence]. Qed.

Lemma strchr_bound (s : string) (c : ascii) (n : nat) :
  strchr s c = Some n -> (n < String.length s)%nat.
Proof.
  revert n; induction s as [|x s IH]; simpl; intros n H; [discriminate|].
  destruct (Ascii.eqb x c).
  - inversion H; lia.
  - destruct (strchr s c); simpl in H; [|discriminate].
    inversion H; subst. specialize (IH _ eq_refl). lia.
Qed.

(** ** The query pair store *)

Lemma split_amp_not_nil (s : string) : split_amp s <> [].
Proof.
  destruct s as [|c s]; simpl; [discriminate|].
  destruct (Ascii.eqb c "&"); [discriminate|].
  destruct (split_amp s); discriminate.
Qed.

Lemma split_amp_none (p : string) :
  strchr p "&"%char = None -> split_amp p = [p].
Proof.
  induction p as [|c p IH]; simpl; [reflexivity|].
  destruct (Ascii.eqb c "&"); [discriminate|].
  destruct (strchr p "&"); simpl; [discriminate|].
  intros _. rewrite IH; reflexivity.
Qed.

Lemma split_amp_some (p : string) (a : nat) :
  strchr p "&"%char = Some a ->
  split_amp p = take a p :: split_amp (drop (S a) p).
Proof.
  revert a; induction p as [|c p IH]; simpl; intros a H; [discriminate|].
  destruct (Ascii.eqb c "&") eqn:Ec.
  - inversion H; subst. simpl. destruct p; reflexivity.
  - destruct (strchr p "&") as [n|]; simpl in H; [|discriminate].
    inversion H; subst. rewrite (IH n eq_refl). reflexivity.
Qed.

Lemma join_split_amp (s : string) : join_amp (split_amp s) = s.
Proof.
  induction s as [|c s IH]; simpl; [reflexivity|].
  destruct (Ascii.eqb c "&") eqn:Ec.
  - apply Ascii.eqb_eq in Ec; subst.
    pose proof (split_amp_not_nil s).
    destruct (split_amp s); [congruence|]. simpl in *. now rewrite IH.
  - pose proof (split_amp_not_nil s).
    destruct (split_amp s) as [|p ps]; [congruence|].
    simpl in *. destruct ps; simpl in *; now rewrite <- IH.
Qed.

Lemma split_amp_no_amp (s x : string) :
  In x (split_amp s) -> strchr x "&"%char = None.
Proof.
  revert x; induction s as [|c s IH]; simpl; intros x H.
  - destruct H as [<-|[]]; reflexivity.
  - destruct (Ascii.eqb c "&") eqn:Ec.
    + destruct H as [<-|H]; [reflexivity | auto].
    + pose proof (split_amp_not_nil s).
      destruct (split_amp s) as [|p ps]; [congruence|].
      destruct H as [<-|H].
      * simpl. rewrite Ec. rewrite (IH p (or_introl eq_refl)). reflexivity.
      * apply IH. now right.
Qed.

Lemma pieces_empty : pieces "" = [].
Proof. reflexivity. Qed.

Lemma pieces_none (p : string) :
  p <> "" -> strchr p "&"%char = None -> pieces p = [p].
Proof.
  intros Hp H. unfold pieces. rewrite (split_amp_none _ H).
  destruct p; [congruence | reflexivity].
Qed.

Lemma pieces_some (p : string) (a : nat) :
  strchr p "&"%char = Some a ->
  pieces p = take a p :: pieces (drop (S a) p).
Proof.
  intros H. unfold pieces. rewrite (split_amp_some _ _ H).
  pose proof (split_amp_not_nil (drop (S a) p)).
  destruct (split_amp (drop (S a) p)); [congruence|].
  simpl. destruct (take a p); reflexivity.
Qed.

Lemma drop_final_empty_nonempty (l : list string) :
  Forall nonempty l -> drop_final_empty l = l.
Proof.
  induction 1 as [|x l Hx Hl IH]; simpl; [reflexivity|].
  destruct x; [now elim Hx|]. now rewrite IH.
Qed.

Lemma store_all_cons (x : string) (xs : list string) (w : world) :
  store_all (x :: xs) w = store_all xs (store_one w x).
Proof. reflexivity. Qed.

Section QueryPairs.

Context {E : UrlEngine}.

Lemma addqpair_run (pair : string) (len : nat) (w : world) :
  addqpair pair len w =
  Ret (if (nqpairs w <? MAX_QPAIRS)%nat then Some (take len pair) else None)
      (store_one w (take len pair)).
Proof.
  unfold addqpair, store_one, bind, gets, modify, warnf, eputs, ret, memdupzero.
  destruct (nqpairs w <? MAX_QPAIRS)%nat; reflexivity.
Qed.

Lemma extract_loop_step (fuel : nat) (c : ascii) (p : string) :
  extract_loop (S fuel) (String c p) =
  (addqpair (String c p)
            (match strchr (String c p) "&"%char with
             | None => String.length (String c p)
             | Some a => a
             end) ;;;
   match strchr (String c p) "&"%char with
   | Some a => extract_loop fuel (drop (S a) (String c p))
   | None => ret tt
   end).
Proof. reflexivity. Qed.

Lemma extract_loop_run (fuel : nat) :
  forall (p : string) (w : world),
    (String.length p <= fuel)%nat ->
    extract_loop fuel p w = Ret tt (store_all (pieces p) w).
Proof.
  induction fuel as [|fuel IH]; intros p w Hlen.
  - destruct p; [reflexivity | simpl in Hlen; lia].
  - destruct p as [|c p]; [reflexivity|].
    rewrite extract_loop_step. unfold bind at 1. rewrite addqpair_run.
    destruct (strchr (String c p) "&"%char) as [a|] eqn:Ha.
    + rewrite (pieces_some _ _ Ha). rewrite store_all_cons.
      apply IH. apply strchr_bound in Ha.
      rewrite drop_length. cbn [String.length] in *. lia.
    + rewrite (pieces_none (String c p) ltac:(congruence) Ha).
      rewrite take_all by lia. reflexivity.
Qed.

Lemma extractqpairs_run (uh : CURLU) (q : string) (w : world) :
  curl_url_get uh CURLUPART_QUERY 0 = (CURLUE_OK, q) ->
  extractqpairs uh w = Ret tt (store_all (pieces q) (with_qpairs [] w)).
Proof.
  intros H. unfold extractqpairs, bind, modify. rewrite H. simpl.
  apply extract_loop_run. lia.
Qed.

End QueryPairs.

Lemma store_all_qpairs (xs : list string) :
  forall w : world,
    (nqpairs w <= MAX_QPAIRS)%nat ->
    w_qpairs (store_all xs w) = firstn MAX_QPAIRS (w_qpairs w ++ xs)%list.
Proof.
  unfold nqpairs.
  induction xs as [|x xs IH]; intros w Hw.
  - rewrite app_nil_r. symmetry. apply firstn_all2. exact Hw.
  - rewrite store_all_cons. unfold store_one, nqpairs.
    destruct (List.length (w_qpairs w) <? MAX_QPAIRS)%nat eqn:Hlt.
    + apply Nat.ltb_lt in Hlt. rewrite IH.
      * cbn [w_qpairs with_qpairs]. now rewrite <- app_assoc.
      * cbn [w_qpairs with_qpairs]. rewrite length_app.
        cbn [List.length]. lia.
    + apply Nat.ltb_ge in Hlt. rewrite IH by exact Hw.
      cbn [w_qpairs with_err].
      rewrite !firstn_app.
      replace (MAX_QPAIRS - List.length (w_qpairs w))%nat with O by lia.
      reflexivity.
Qed.

Lemma store_all_err (xs : list string) :
  forall w : world,
    (nqpairs w <= MAX_QPAIRS)%nat ->
    w_err (store_all xs w) =
    w_err w ++ warnings (nqpairs w + List.length xs - MAX_QPAIRS).
Proof.
  unfold nqpairs.
  induction xs as [|x xs IH]; intros w Hw.
  - replace (_ + List.length [] - _)%nat with O by (cbn [List.length]; lia).
    cbn [warnings store_all fold_left]. now rewrite append_nil_r.
  - rewrite store_all_cons. unfold store_one, nqpairs.
    destruct (List.length (w_qpairs w) <? MAX_QPAIRS)%nat eqn:Hlt.
    + apply Nat.ltb_lt in Hlt. rewrite IH.
      * cbn [w_qpairs w_err with_qpairs]. rewrite length_app.
        cbn [List.length]. do 2 f_equal. lia.
      * cbn [w_qpairs with_qpairs]. rewrite length_app.
        cbn [List.length]. lia.
    + apply Nat.ltb_ge in Hlt. rewrite IH by exact Hw.
      cbn [w_qpairs w_err with_err List.length].
      replace (List.length (w_qpairs w) + S (List.length xs) - MAX_QPAIRS)%nat
        with (S (List.length (w_qpairs w) + List.length xs - MAX_QPAIRS)) by lia.
      cbn [warnings]. now rewrite !append_assoc.
Qed.

Lemma store_all_frame (xs : list string) :
  forall w : world,
    w_opts (store_all xs w) = w_opts w /\
    w_slists (store_all xs w) = w_slists w /\
    w_streams (store_all xs w) = w_streams w /\
    w_fs (store_all xs w) = w_fs w /\
    w_out (store_all xs w) = w_out w.
Proof.
  induction xs as [|x xs IH]; intros w; [cbn; tauto|].
  rewrite store_all_cons.
  destruct (IH (store_one w x)) as (H1 & H2 & H3 & H4 & H5).
  rewrite H1, H2, H3, H4, H5. unfold store_one.
  destruct (nqpairs w <? MAX_QPAIRS)%nat; cbn; tauto.
Qed.

Lemma nq_fold_nonempty (l : list string) :
  forall acc : string,
    nonempty acc -> Forall nonempty l ->
    fold_left nq_step l (Some acc) =
    Some (match l with [] => acc | _ => acc ++ "&" ++ join_amp l end).
Proof.
  induction l as [|x l IH]; intros acc Hacc Hl; [reflexivity|].
  inversion Hl as [|? ? Hx Hl']; subst.
  simpl fold_left. unfold nq_step at 2.
  destruct acc as [|a acc]; [now elim Hacc|].
  destruct x as [|c x]; [now elim Hx|].
  rewrite IH; [| discriminate | assumption].
  f_equal. destruct l; simpl.
  - reflexivity.
  - rewrite !append_assoc. reflexivity.
Qed.

Lemma qpair2query_nq_nonempty (l : list string) :
  l <> [] -> Forall nonempty l -> qpair2query_nq l = Some (join_amp l).
Proof.
  intros Hne Hl. destruct l as [|x l]; [congruence|].
  inversion Hl as [|? ? Hx Hl']; subst.
  unfold qpair2query_nq. simpl fold_left. unfold nq_step at 2. simpl.
  rewrite nq_fold_nonempty by assumption.
  destruct l; reflexivity.
Qed.

Lemma Forall_nonempty_check (l : list string) :
  forallb (fun s => negb (String.eqb s "")) l = true -> Forall nonempty l.
Proof.
  intros H. apply Forall_forall. intros x Hx.
  rewrite forallb_forall in H. specialize (H x Hx).
  intros ->. discriminate.
Qed.

Lemma many_pairs_differ : many_pairs 1000 <> many_pairs 1001.
Proof.
  intros H.
  apply (f_equal (fun s => Nat.eqb (String.length s) 1999)) in H.
  vm_compute in H. discriminate.
Qed.

Lemma append_neq_self (a b : string) : b <> "" -> a ++ b <> a.
Proof.
  intros Hb H. apply (f_equal String.length) in H.
  rewrite length_append in H. destruct b; [congruence | simpl in H; lia].
Qed.

Section QueryPairClaims.

Context {E : UrlEngine}.

(** C3, as amended.  A query string whose [&]-separated pairs are all
    non-empty, and of which there are at most 1000, survives the round
    trip: [extractqpairs] stores exactly its pairs, in order and byte for
    byte (a pair with an empty value after [=] included), and the string
    [qpair2query] builds from them is the query string itself. *)
Theorem query_roundtrip (uh : CURLU) (w : world) (q : string) :
  curl_url_get uh CURLUPART_QUERY 0 = (CURLUE_OK, q) ->
  Forall nonempty (split_amp q) ->
  (List.length (split_amp q) <= MAX_QPAIRS)%nat ->
  exists w',
    extractqpairs uh w = Ret tt w' /\
    w_qpairs w' = split_amp q /\
    qpair2query_nq (w_qpairs w') = Some q.
Proof.
  intros Hq Hne Hlen.
  exists (store_all (pieces q) (with_qpairs [] w)).
  assert (Hst : w_qpairs (store_all (pieces q) (with_qpairs [] w)) = split_amp q).
  { rewrite store_all_qpairs by (unfold nqpairs; cbn; lia).
    cbn [w_qpairs with_qpairs app]. unfold pieces.
    rewrite drop_final_empty_nonempty by assumption.
    apply firstn_all2. exact Hlen. }
  split; [now apply extractqpairs_run|]. split; [exact Hst|].
  rewrite Hst. rewrite qpair2query_nq_nonempty.
  - now rewrite join_split_amp.
  - apply split_amp_not_nil.
  - assumption.
Qed.

(** C4, as amended.  [extractqpairs] cuts the query string at every [&]
    and stores each segment as it is, an empty one between two [&] or
    before a leading [&] included, up to the first 1000; the scan ends
    with the string, so a trailing [&] adds no empty pair at the end, and
    the empty string stores nothing. *)
Theorem extract_stores_pieces (uh : CURLU) (w : world) (q : string) :
  curl_url_get uh CURLUPART_QUERY 0 = (CURLUE_OK, q) ->
  exists w',
    extractqpairs uh w = Ret tt w' /\
    w_qpairs w' = firstn MAX_QPAIRS (drop_final_empty (split_amp q)).
Proof.
  intros Hq.
  exists (store_all (pieces q) (with_qpairs [] w)).
  split; [now apply extractqpairs_run|].
  rewrite store_all_qpairs by (unfold nqpairs; cbn; lia).
  reflexivity.
Qed.

(** C8.  A query string with more than 1000 pairs: [extractqpairs]
    returns normally, the array holds the first 1000 pairs and no more,
    every pair beyond them has brought one warning on [stderr] and nothing
    on [stdout], the string [qpair2query] builds is the one built from
    the first 1000 pairs, and a further [addqpair] is again dropped with
    a warning. *)
Theorem capacity_bound (uh : CURLU) (w : world) (q : string) :
  curl_url_get uh CURLUPART_QUERY 0 = (CURLUE_OK, q) ->
  (MAX_QPAIRS < List.length (pieces q))%nat ->
  exists w',
    extractqpairs uh w = Ret tt w' /\
    w_qpairs w' = firstn MAX_QPAIRS (pieces q) /\
    nqpairs w' = MAX_QPAIRS /\
    w_err w' = w_err w ++ warnings (List.length (pieces q) - MAX_QPAIRS) /\
    w_err w' <> w_err w /\
    w_out w' = w_out w /\
    qpair2query_nq (w_qpairs w') = qpair2query_nq (firstn MAX_QPAIRS (pieces q)) /\
    (Forall nonempty (pieces q) ->
     qpair2query_nq (w_qpairs w') = Some (join_amp (firstn MAX_QPAIRS (pieces q)))) /\
    (forall pair len,
        addqpair pair len w' =
        Ret None (with_err (w_err w' ++ warnf_text "too many query pairs") w')).
Proof.
  intros Hq Hlen.
  exists (store_all (pieces q) (with_qpairs [] w)).
  assert (Hst : w_qpairs (store_all (pieces q) (with_qpairs [] w))
                = firstn MAX_QPAIRS (pieces q)).
  { rewrite store_all_qpairs by (unfold nqpairs; cbn; lia). reflexivity. }
  assert (Hn : nqpairs (store_all (pieces q) (with_qpairs [] w)) = MAX_QPAIRS).
  { unfold nqpairs. rewrite Hst. rewrite length_firstn. lia. }
  assert (Herr : w_err (store_all (pieces q) (with_qpairs [] w))
                 = w_err w ++ warnings (List.length (pieces q) - MAX_QPAIRS)).
  { rewrite store_all_err by (unfold nqpairs; cbn; lia).
    unfold nqpairs. cbn [w_qpairs w_err with_qpairs List.length].
    reflexivity. }
  split; [now apply extractqpairs_run|].
  split; [exact Hst|]. split; [exact Hn|]. split; [exact Herr|].
  split.
  { rewrite Herr. apply append_neq_self.
    destruct (List.length (pieces q) - MAX_QPAIRS)%nat eqn:Hd; [lia|].
    discriminate. }
  split.
  { destruct (store_all_frame (pieces q) (with_qpairs [] w))
      as (_ & _ & _ & _ & Hout). exact Hout. }
  split; [now rewrite Hst|].
  split.
  { intros Hne. rewrite Hst. apply qpair2query_nq_nonempty.
    - intros H0. apply (f_equal (@List.length string)) in H0.
      rewrite length_firstn in H0. cbn [List.length] in H0.
      unfold MAX_QPAIRS in *. lia.
    - apply Forall_forall. intros x Hx.
      rewrite Forall_forall in Hne. apply Hne.
      rewrite <- (firstn_skipn MAX_QPAIRS (pieces q)).
      apply in_or_app. now left. }
  intros pair len. rewrite addqpair_run. unfold store_one. rewrite Hn.
  rewrite Nat.ltb_irrefl. reflexivity.
Qed.

End QueryPairClaims.

(** C3 holds at three pairs, one of them with an empty value. *)
Lemma query_roundtrip_witness :
  curl_url_get (toy_query "a=1&b=&c") CURLUPART_QUERY 0 = (CURLUE_OK, "a=1&b=&c")
  /\ Forall nonempty (split_amp "a=1&b=&c")
  /\ (List.length (split_amp "a=1&b=&c") <= MAX_QPAIRS)%nat
  /\ exists w',
      extractqpairs (toy_query "a=1&b=&c") w0 = Ret tt w' /\
      w_qpairs w' = split_amp "a=1&b=&c" /\
      qpair2query_nq (w_qpairs w') = Some "a=1&b=&c".
Proof.
  assert (H1 : curl_url_get (toy_query "a=1&b=&c") CURLUPART_QUERY 0
               = (CURLUE_OK, "a=1&b=&c")) by reflexivity.
  assert (H2 : Forall nonempty (split_amp "a=1&b=&c"))
    by (apply Forall_nonempty_check; reflexivity).
  assert (H3 : (List.length (split_amp "a=1&b=&c") <= MAX_QPAIRS)%nat)
    by (apply Nat.leb_le; reflexivity).
  split; [exact H1|]. split; [exact H2|]. split; [exact H3|].
  exact (query_roundtrip (toy_query "a=1&b=&c") w0 "a=1&b=&c" H1 H2 H3).
Defined.

(** C3 as it is stated fails beyond the capacity of the array: 1001 pairs
    [a] are all non-empty and end in no [&], and what is rebuilt from them
    is 1000 pairs, whatever the engine that handed the query string over
    (and so with the small engine). *)
Lemma roundtrip_breaks_over_capacity :
  Forall nonempty (split_amp (many_pairs 1001))
  /\ (forall (E : UrlEngine) (uh : CURLU) (w : world),
         curl_url_get uh CURLUPART_QUERY 0 = (CURLUE_OK, many_pairs 1001) ->
         exists w',
           extractqpairs uh w = Ret tt w' /\
           qpair2query_nq (w_qpairs w') = Some (many_pairs 1000) /\
           qpair2query_nq (w_qpairs w') <> Some (many_pairs 1001))
  /\ curl_url_get (toy_query (many_pairs 1001)) CURLUPART_QUERY 0
     = (CURLUE_OK, many_pairs 1001)
  /\ match extractqpairs (toy_query (many_pairs 1001)) w0 with
     | Ret _ w' => qpair2query_nq (w_qpairs w') <> Some (many_pairs 1001)
     | _ => False
     end.
Proof.
  assert (Hc : qpair2query_nq (firstn MAX_QPAIRS (pieces (many_pairs 1001)))
               = Some (many_pairs 1000)) by (vm_compute; reflexivity).
  assert (Hg : forall (E : UrlEngine) (uh : CURLU) (w : world),
             curl_url_get uh CURLUPART_QUERY 0 = (CURLUE_OK, many_pairs 1001) ->
             exists w',
               extractqpairs uh w = Ret tt w' /\
               qpair2query_nq (w_qpairs w') = Some (many_pairs 1000) /\
               qpair2query_nq (w_qpairs w') <> Some (many_pairs 1001)).
  { intros E uh w Hq.
    exists (store_all (pieces (many_pairs 1001)) (with_qpairs [] w)).
    split; [now apply extractqpairs_run|].
    rewrite store_all_qpairs by (unfold nqpairs; cbn; lia).
    cbn [w_qpairs with_qpairs app]. rewrite Hc.
    split; [reflexivity|]. intros H'. apply many_pairs_differ. congruence. }
  split; [apply Forall_nonempty_check; vm_compute; reflexivity|].
  split; [exact Hg|]. split; [reflexivity|].
  destruct (Hg Toy.engine (toy_query (many_pairs 1001)) w0 eq_refl)
    as (w' & -> & _ & Hne). exact Hne.
Qed.

(** C4 as it is stated fails at [a&]: splitting on [&] gives the two
    pieces [a] and the empty one, but one pair is stored, [a], and no empty
    pair follows it, whatever the engine that handed the query string over
    (and so with the small engine). *)
Lemma trailing_amp_adds_no_pair :
  split_amp "a&" = ["a"; ""]
  /\ (forall (E : UrlEngine) (uh : CURLU) (w : world),
         curl_url_get uh CURLUPART_QUERY 0 = (CURLUE_OK, "a&") ->
         exists w', extractqpairs uh w = Ret tt w' /\ w_qpairs w' = ["a"])
  /\ curl_url_get (toy_query "a&") CURLUPART_QUERY 0 = (CURLUE_OK, "a&")
  /\ match extractqpairs (toy_query "a&") w0 with
     | Ret _ w' => w_qpairs w' = ["a"] /\ last (w_qpairs w') "a" <> ""
     | _ => False
     end.
Proof.
  split; [reflexivity|]. split.
  - intros E uh w Hq.
    exists (store_all (pieces "a&") (with_qpairs [] w)).
    split; [now apply extractqpairs_run|].
    rewrite store_all_qpairs by (unfold nqpairs; cbn; lia).
    reflexivity.
  - split; [reflexivity|].
    vm_compute. split; [reflexivity | discriminate].
Qed.

(** C4, as amended, at a query string with a doubled, a leading and a
    trailing [&]. *)
Lemma extract_stores_pieces_witness :
  curl_url_get (toy_query "&a&&b&") CURLUPART_QUERY 0 = (CURLUE_OK, "&a&&b&")
  /\ exists w',
      extractqpairs (toy_query "&a&&b&") w0 = Ret tt w' /\
      w_qpairs w' = firstn MAX_QPAIRS (drop_final_empty (split_amp "&a&&b&")).
Proof.
  assert (H1 : curl_url_get (toy_query "&a&&b&") CURLUPART_QUERY 0
               = (CURLUE_OK, "&a&&b&")) by reflexivity.
  split; [exact H1|].
  exact (extract_stores_pieces (toy_query "&a&&b&") w0 "&a&&b&" H1).
Defined.

(** C8 at 1001 pairs. *)
Lemma capacity_bound_witness :
  curl_url_get (toy_query (many_pairs 1001)) CURLUPART_QUERY 0
  = (CURLUE_OK, many_pairs 1001)
  /\ (MAX_QPAIRS < List.length (pieces (many_pairs 1001)))%nat
  /\ exists w',
      extractqpairs (toy_query (many_pairs 1001)) w0 = Ret tt w' /\
      nqpairs w' = MAX_QPAIRS.
Proof.
  assert (H1 : curl_url_get (toy_query (many_pairs 1001)) CURLUPART_QUERY 0
               = (CURLUE_OK, many_pairs 1001)) by reflexivity.
  assert (H2 : (MAX_QPAIRS < List.length (pieces (many_pairs 1001)))%nat)
    by (apply Nat.ltb_lt; vm_compute; reflexivity).
  split; [exact H1|]. split; [exact H2|].
  destruct (capacity_bound (toy_query (many_pairs 1001)) w0 _ H1 H2)
    as (w' & Hr & _ & Hn & _).
  exists w'. split; [exact Hr | exact Hn].
Defined.

(** ** Comparison without regard to case *)

Lemma code_inj (x y : ascii) : (code x - code y = 0)%Z -> x = y.
Proof.
  unfold code. intros H.
  assert (Hn : nat_of_ascii x = nat_of_ascii y) by lia.
  rewrite <- (ascii_nat_embedding x), <- (ascii_nat_embedding y).
  now rewrite Hn.
Qed.

Lemma strncasecmp_take (n : nat) :
  forall a b : string,
    (n <= String.length a)%nat -> (n <= String.length b)%nat ->
    is0 (strncasecmp a b n) = ci_eq (take n a) (take n b).
Proof.
  unfold ci_eq.
  induction n as [|n IH]; intros a b Ha Hb.
  - destruct a, b; reflexivity.
  - destruct a as [|x a]; [simpl in Ha; lia|].
    destruct b as [|y b]; [simpl in Hb; lia|].
    simpl in Ha, Hb. cbn [strncasecmp take lower].
    destruct (Ascii.eqb (tolower x) (tolower y)) eqn:Exy.
    + apply Ascii.eqb_eq in Exy. rewrite Exy.
      cbn [String.eqb]. rewrite Ascii.eqb_refl. apply IH; lia.
    + cbn [String.eqb]. rewrite Exy. unfold is0.
      apply Z.eqb_neq. intros H. apply code_inj in H.
      rewrite H in Exy. rewrite Ascii.eqb_refl in Exy. discriminate.
Qed.

Lemma drop_drop (n m : nat) (s : string) : drop (n + m) s = drop m (drop n s).
Proof.
  revert s; induction n; intros s; [reflexivity|].
  destruct s; simpl; [destruct m; reflexivity | apply IHn].
Qed.

Lemma strchr_drop (s : string) (c : ascii) (n : nat) :
  strchr s c = Some n -> drop n s = String c (drop (S n) s).
Proof.
  revert n; induction s as [|x s IH]; simpl; intros n H; [discriminate|].
  destruct (Ascii.eqb x c) eqn:Exc.
  - inversion H; subst. apply Ascii.eqb_eq in Exc. subst. reflexivity.
  - destruct (strchr s c); simpl in H; [|discriminate].
    inversion H; subst. simpl. now apply IH.
Qed.

Lemma at_last (c : ascii) (s : string) :
  Ascii.eqb (at_ (String c s) (String.length s)) "*"%char =
  match s with
  | EmptyString => Ascii.eqb c "*"%char
  | _ => ends_with_star s
  end.
Proof.
  revert c; induction s as [|x s IH]; intros c; [reflexivity|].
  change (at_ (String c (String x s)) (String.length (String x s)))
    with (at_ (String x s) (String.length s)).
  rewrite IH. destruct s; reflexivity.
Qed.

Lemma key_length (q : string) :
  String.length (key q) =
  match strchr q "="%char with
  | Some sep => sep
  | None => String.length q
  end.
Proof.
  unfold key. destruct (strchr q "="%char) as [n|] eqn:H; [|reflexivity].
  apply strchr_bound in H. rewrite take_length. lia.
Qed.

Lemma key_take (q : string) (n : nat) :
  (n <= String.length (key q))%nat -> take n (key q) = take n q.
Proof.
  unfold key. destruct (strchr q "="%char) as [m|] eqn:H; [|reflexivity].
  apply strchr_bound in H. rewrite take_length. intros Hn.
  apply take_take. lia.
Qed.

(** ** Trimming *)

Lemma trim_match_key (pat q : string) :
  trim_match (ends_with_star pat)
             (if ends_with_star pat then String.length pat - 1
              else String.length pat)
             pat q
  = key_matches pat (key q).
Proof.
  unfold trim_match, key_matches.
  rewrite <- key_length.
  assert (Hq : (String.length (key q) <= String.length q)%nat).
  { unfold key. destruct (strchr q "="); [|lia]. rewrite take_length. lia. }
  destruct (ends_with_star pat) eqn:Hp; cbn [andb negb orb].
  - rewrite orb_false_r.
    destruct (String.length pat - 1 <=? String.length (key q))%nat eqn:Hle;
      [|reflexivity].
    apply Nat.leb_le in Hle. cbn [andb].
    rewrite strncasecmp_take by lia.
    rewrite key_take by exact Hle. reflexivity.
  - rewrite Nat.eqb_sym.
    destruct (String.length (key q) =? String.length pat)%nat eqn:Heq;
      [|reflexivity].
    apply Nat.eqb_eq in Heq. cbn [andb].
    rewrite strncasecmp_take by lia.
    rewrite <- (key_take q) by lia.
    rewrite (take_all _ (key q)) by lia.
    rewrite (take_all _ pat) by lia. reflexivity.
Qed.

Lemma query_prefix_not_eq (instr : string) :
  strncasecmp instr "query" 5 = 0%Z -> strchr instr "="%char <> Some 0%nat.
Proof.
  destruct instr as [|c s]; [discriminate|].
  cbn [strchr]. destruct (Ascii.eqb c "=") eqn:Ec.
  - apply Ascii.eqb_eq in Ec. subst. vm_compute. discriminate.
  - destruct (strchr s "="); discriminate.
Qed.

Section TrimClaims.

(** C5.  One accepted trim directive (its first five bytes are [query]
    in any case, and it holds a [=]); its pattern is the text after the
    first [=].  [trim] replaces by the empty string, in place, exactly the
    stored pairs whose key (the text before the first [=], or the whole
    pair) matches the pattern without regard to case, and leaves every
    other pair as it is.  A pattern ending in [*] matches the keys of
    length at least the pattern's length minus one that start with the
    pattern less its [*]; any other pattern matches the keys of exactly
    its length that are equal to it. *)
Theorem trim_directive (o : ptr) (v : struct_option) (w : world)
        (instr : string) (e : nat) :
  deref o w = Ret v w ->
  slist_data w (o_trim_list v) = [instr] ->
  strncasecmp instr "query" 5 = 0%Z ->
  strchr instr "="%char = Some e ->
  trim o w =
  Ret tt (with_qpairs (tombstone (drop (S e) instr) (w_qpairs w)) w).
Proof.
  intros Ho Hl Hq He.
  unfold trim, bind, gets. rewrite Ho, Hl.
  cbn [trim_loop]. unfold when, bind.
  unfold is0. rewrite Hq. cbn [Z.eqb negb ret].
  rewrite He. destruct e as [|e]; [now apply query_prefix_not_eq in Hq|].
  unfold modify, ret. do 2 f_equal.
  unfold trim_pairs, tombstone. apply map_ext. intros q.
  set (pat := drop (S (S e)) instr).
  assert (Hstar : Ascii.eqb (at_ instr (S e + String.length pat)) "*"%char
                  = ends_with_star pat).
  { unfold at_. rewrite drop_drop. rewrite (strchr_drop _ _ _ He).
    fold pat. fold (at_ (String "="%char pat) (String.length pat)).
    rewrite at_last. destruct pat; reflexivity. }
  rewrite Hstar. rewrite trim_match_key. reflexivity.
Qed.

End TrimClaims.

(** C5 at the directive [query=utm_*]: the two pairs whose key starts with
    [utm_], in either case, are emptied; [id=1], and [utm] whose key is too
    short, stay. *)
Lemma trim_directive_witness :
  let w := trim_world "query=utm_*" ["utm_source=x"; "UTM_medium=y"; "id=1"; "utm"] in
  deref (Some 0%nat) w = Ret (set_o_trim_list (Some 0%nat) zero_option) w
  /\ slist_data w (Some 0%nat) = ["query=utm_*"]
  /\ strncasecmp "query=utm_*" "query" 5 = 0%Z
  /\ strchr "query=utm_*" "="%char = Some 5%nat
  /\ trim (Some 0%nat) w =
     Ret tt (with_qpairs (tombstone "utm_*" (w_qpairs w)) w)
  /\ tombstone "utm_*" (w_qpairs w) = [""; ""; "id=1"; "utm"].
Proof.
  intros w.
  assert (H1 : deref (Some 0%nat) w
               = Ret (set_o_trim_list (Some 0%nat) zero_option) w) by reflexivity.
  assert (H2 : slist_data w (o_trim_list (set_o_trim_list (Some 0%nat) zero_option))
               = ["query=utm_*"]) by reflexivity.
  assert (H3 : strncasecmp "query=utm_*" "query" 5 = 0%Z) by reflexivity.
  assert (H4 : strchr "query=utm_*" "="%char = Some 5%nat) by reflexivity.
  split; [exact H1|]. split; [exact H2|]. split; [exact H3|].
  split; [exact H4|]. split.
  - exact (trim_directive (Some 0%nat) _ w "query=utm_*" 5 H1 H2 H3 H4).
  - reflexivity.
Defined.

(** ** The format interpreter *)

Section FormatClaims.

Context {E : UrlEngine}.

Lemma get_loop_plain (uh : CURLU) (rest : string) :
  forall (fuel : nat) (w : world),
    (String.length rest <= fuel)%nat ->
    plain rest = true ->
    get_loop fuel uh rest w = Ret tt (with_out (w_out w ++ rest) w).
Proof.
  induction rest as [|c rest IH]; intros fuel w Hf Hp.
  - destruct fuel; cbn; rewrite append_nil_r; destruct w; reflexivity.
  - destruct fuel as [|fuel]; [simpl in Hf; lia|].
    cbn [plain] in Hp.
    apply andb_prop in Hp. destruct Hp as [Hp Hrest].
    apply andb_prop in Hp. destruct Hp as [Hb Hs].
    apply negb_true_iff in Hb, Hs.
    cbn [get_loop]. rewrite (Ascii.eqb_sym "{"%char c), Hb.
    rewrite (Ascii.eqb_sym "\"%char c), Hs. cbn [andb drop].
    unfold bind, fputs, modify. rewrite IH by (simpl in Hf; lia || assumption).
    cbn. rewrite append_assoc. reflexivity.
Qed.

(** C7.  At [{{] the interpreter writes one [{] and moves two bytes on,
    whatever follows; so the format [{{id}}] is rendered as [{id}}], and
    one newline ends the output. *)
Theorem double_brace_escape (op : ptr) (v : struct_option) (uh : CURLU)
        (w : world) :
  deref op w = Ret v w ->
  o_format v = Some "{{id}}" ->
  get op uh w = Ret tt (with_out (w_out w ++ "{id}}" ++ nl) w)
  /\ (forall (fuel : nat) (rest : string) (w1 : world),
         get_loop (S fuel) uh ("{{" ++ rest) w1
         = (fputs "{" ;;; get_loop fuel uh rest) w1).
Proof.
  intros Hd Hf. split.
  - unfold get. unfold bind at 1. rewrite Hd. rewrite Hf.
    cbn. unfold fputs, modify, with_out. cbn.
    rewrite !append_assoc. reflexivity.
  - intros fuel rest w1. reflexivity.
Qed.

End FormatClaims.

(** C6 as it is stated fails at the format [{ab]: its [{] has no [}] after
    it, and [ab] is written all the same, for every engine and handle (and
    so with the small engine). *)
Lemma unclosed_brace_keeps_rendering :
  strchr "ab" "}"%char = None
  /\ (forall (E : UrlEngine) (uh : CURLU) (op : ptr) (v : struct_option)
             (w : world),
         deref op w = Ret v w ->
         o_format v = Some "{ab" ->
         get op uh w = Ret tt (with_out (w_out w ++ "ab" ++ nl) w))
  /\ get (E:=Toy.engine) (Some 0%nat) Toy.empty (format_world "{ab")
     = Ret tt (with_out ("ab" ++ nl) (format_world "{ab"))
  /\ get (E:=Toy.engine) (Some 0%nat) Toy.empty (format_world "{ab")
     <> Ret tt (with_out nl (format_world "{ab")).
Proof.
  split; [reflexivity|]. split; [|split].
  - intros E uh op v w Hd Hf.
    unfold get. unfold bind at 1. rewrite Hd. rewrite Hf.
    cbn. unfold fputs, modify, with_out. cbn.
    rewrite !append_assoc. reflexivity.
  - reflexivity.
  - vm_compute. discriminate.
Qed.

(** C7 in the world whose variant has the format [{{id}}]. *)
Lemma double_brace_escape_witness :
  let w := format_world "{{id}}" in
  deref (Some 0%nat) w = Ret (set_o_format (Some "{{id}}") zero_option) w
  /\ get (E:=Toy.engine) (Some 0%nat) Toy.empty w
     = Ret tt (with_out ("{id}}" ++ nl) w).
Proof.
  intros w.
  assert (H1 : deref (Some 0%nat) w
               = Ret (set_o_format (Some "{{id}}") zero_option) w) by reflexivity.
  split; [exact H1|].
  exact (proj1 (double_brace_escape (E:=Toy.engine) (Some 0%nat) _
                  Toy.empty w H1 eq_refl)).
Defined.

(** ** The set phase *)

Lemma lower_length (s : string) : String.length (lower s) = String.length s.
Proof. induction s; simpl; congruence. Qed.

Lemma match_name (d name : string) (vlen : nat) :
  (vlen <= String.length d)%nat ->
  (String.length name =? vlen)%nat && is0 (strncasecmp d name vlen)
  = ci_eq (take vlen d) name.
Proof.
  intros Hd.
  destruct (String.length name =? vlen)%nat eqn:Hn; cbn [andb].
  - apply Nat.eqb_eq in Hn.
    rewrite strncasecmp_take by lia.
    rewrite (take_all vlen name) by lia. reflexivity.
  - apply Nat.eqb_neq in Hn. symmetry. unfold ci_eq.
    apply String.eqb_neq. intros H.
    apply (f_equal String.length) in H.
    rewrite !lower_length, take_length in H. lia.
Qed.

Section SetClaims.

Context {E : UrlEngine}.

Lemma set_vars_run (uh : CURLU) (a : nat) (d : string) (eq vlen : nat)
      (enc : bool) (vars : list (string * CURLUPart)) :
  forall (i : nat) (varset : list bool) (w : world),
    (vlen <= String.length d)%nat ->
    exists varset',
      set_vars uh (Some a) d eq vlen enc i vars varset w =
      Ret (match find (fun v => ci_eq (take vlen d) (fst v)) vars with
           | Some (_, part) =>
               Some (fst (curl_url_set uh part (set_value d eq) (set_flags enc)),
                     varset')
           | None => None
           end) w.
Proof.
  induction vars as [|[name part] vars IH]; intros i varset w Hd.
  - exists varset. reflexivity.
  - cbn [set_vars find fst]. rewrite match_name by exact Hd.
    destruct (ci_eq (take vlen d) name).
    + exists (update i true varset).
      rewrite andb_false_r. reflexivity.
    + apply IH. exact Hd.
Qed.

Lemma set_vars_total (uh : CURLU) (a : nat) (d : string) (eq vlen : nat)
      (enc : bool) (vars : list (string * CURLUPart)) :
  forall (i : nat) (varset : list bool) (w : world),
    exists r, set_vars uh (Some a) d eq vlen enc i vars varset w = Ret r w.
Proof.
  induction vars as [|[name part] vars IH]; intros i varset w.
  - eexists. reflexivity.
  - cbn [set_vars].
    destruct ((String.length name =? vlen)%nat && is0 (strncasecmp d name vlen)).
    + rewrite andb_false_r. eexists. reflexivity.
    + apply IH.
Qed.

Lemma parse_directive_some (d : string) :
  parse_directive d <> None ->
  exists p part,
    strchr d "="%char = Some (S p) /\
    lookup_component
      (take (if Ascii.eqb (at_ d p) ":"%char then p else S p) d) = Some part /\
    parse_directive d =
    Some (part, set_value d (S p), negb (Ascii.eqb (at_ d p) ":"%char)).
Proof.
  unfold parse_directive, set_value. intros H.
  destruct (strchr d "="%char) as [[|p]|]; try congruence.
  destruct (lookup_component _) as [part|] eqn:Hl; [|congruence].
  exists p, part. split; [reflexivity|]. split; [exact Hl|]. reflexivity.
Qed.

Lemma set_loop_run (a : nat) (ds : list string) :
  forall (uh : CURLU) (varset : list bool) (w : world),
    Forall (fun d => parse_directive d <> None) ds ->
    set_loop uh (Some a) varset ds w = Ret (fold_left apply_directive ds uh) w.
Proof.
  induction ds as [|d ds IH]; intros uh varset w Hok; [reflexivity|].
  inversion Hok as [|? ? Hd Hds]; subst.
  destruct (parse_directive_some d Hd) as (p & part & Heq & Hlook & Hparse).
  cbn [set_loop fold_left]. rewrite Heq. unfold bind at 1.
  pose proof (strchr_bound _ _ _ Heq) as Hb.
  set (vlen := if negb (Ascii.eqb (at_ d p) ":"%char) then S p else p).
  destruct (set_vars_run uh a d (S p) vlen
              (negb (Ascii.eqb (at_ d p) ":"%char)) variables 0
              varset w) as (varset' & Hrun).
  { unfold vlen. destruct (negb _); lia. }
  rewrite Hrun.
  assert (Hv : vlen = if Ascii.eqb (at_ d p) ":"%char then p else S p).
  { unfold vlen. destruct (Ascii.eqb (at_ d p) ":"%char); reflexivity. }
  rewrite Hv. unfold lookup_component in Hlook.
  destruct (find _ variables) as [[name part']|]; [|discriminate].
  cbn in Hlook. inversion Hlook; subst part'.
  rewrite IH by assumption.
  assert (Ha : apply_directive uh d
               = fst (curl_url_set uh part (set_value d (S p))
                        (set_flags (negb (Ascii.eqb (at_ d p) ":"%char))))).
  { unfold apply_directive. rewrite Hparse. reflexivity. }
  rewrite Ha. reflexivity.
Qed.

Lemma set_loop_exit (a : nat) (ds : list string) :
  forall (uh : CURLU) (varset : list bool) (w w' : world) (c : Z),
    set_loop uh (Some a) varset ds w = Exit c w' ->
    c = ERROR_SET /\
    exists d,
      In d ds /\
      (w_err w' = w_err w ++ errorf_text ("Set unknown component: " ++ d) \/
       w_err w' = w_err w ++ errorf_text ("invalid --set syntax: " ++ d)).
Proof.
  induction ds as [|d ds IH]; intros uh varset w w' c H; [discriminate|].
  cbn [set_loop] in H.
  destruct (strchr d "="%char) as [[|p]|] eqn:Heq.
  - inversion H; subst. split; [reflexivity|].
    exists d. split; [now left | now right].
  - unfold bind at 1 in H.
    destruct (set_vars_total uh a d (S p)
                (if negb (Ascii.eqb (at_ d p) ":"%char) then S p else p)
                (negb (Ascii.eqb (at_ d p) ":"%char)) variables 0 varset w)
      as (r & Hr).
    rewrite Hr in H. destruct r as [[uh' varset']|].
    + apply IH in H. destruct H as (Hc & d' & Hin & Hd').
      split; [exact Hc|]. exists d'. split; [now right | exact Hd'].
    + inversion H; subst. split; [reflexivity|].
      exists d. split; [now left | now left].
  - inversion H; subst. split; [reflexivity|].
    exists d. split; [now left | now right].
Qed.


(** C10, as amended.  For a variant [o] with the set-list [ds]:
    - when every directive of [ds] is a [component=value] (or
      [component:=value]) that names a component, [set] returns normally,
      with nothing written whatever the engine answers, and the handle it
      leaves is the one reached by the directives' engine calls made one
      after the other in list order, so a component named more than once
      is set each time and the last call on the handle is that of the
      last directive, with the component and the value of that directive:
      the handle [set] leaves is the one the engine returns for it;
    - when [set] ends the program, it does so with the set-error code on
      a directive without a component or of a wrong shape: the error of
      the set-once guard is never what it prints. *)
Theorem set_applies_every_directive (uh : CURLU) (o : ptr) (v : struct_option)
        (w : world) (ds : list string) :
  deref o w = Ret v w ->
  slist_data w (o_set_list v) = ds ->
  (Forall (fun d => parse_directive d <> None) ds ->
   set uh o w = Ret (fold_left apply_directive ds uh) w)
  /\ (forall ds' d,
         ds = (ds' ++ [d])%list ->
         Forall (fun d => parse_directive d <> None) ds ->
         set uh o w = Ret (apply_directive (fold_left apply_directive ds' uh) d) w)
  /\ (forall c w',
         set uh o w = Exit c w' ->
         c = ERROR_SET /\
         exists d,
           In d ds /\
           (w_err w' = w_err w ++ errorf_text ("Set unknown component: " ++ d) \/
            w_err w' = w_err w ++ errorf_text ("invalid --set syntax: " ++ d)))
  /\ (forall c w' name,
         set uh o w = Exit c w' -> w_err w' <> w_err w ++ set_once_text name)
  /\ (forall ds' d part value enc,
         ds = (ds' ++ [d])%list ->
         Forall (fun d => parse_directive d <> None) ds ->
         parse_directive d = Some (part, value, enc) ->
         set uh o w
         = Ret (fst (curl_url_set (fold_left apply_directive ds' uh) part value
                       (set_flags enc))) w).
Proof.
  intros Hd Hl.
  assert (Ho : exists a, o = Some a).
  { destruct o as [a|]; [now exists a | discriminate]. }
  destruct Ho as (a & ->).
  assert (Hset : set uh (Some a) w
                 = set_loop uh (Some a) (repeat false NUM_COMPONENTS) ds w).
  { unfold set, bind, gets. rewrite Hd, Hl. reflexivity. }
  assert (Hexit : forall c w',
             set uh (Some a) w = Exit c w' ->
             c = ERROR_SET /\
             exists d,
               In d ds /\
               (w_err w' = w_err w ++ errorf_text ("Set unknown component: " ++ d) \/
                w_err w' = w_err w ++ errorf_text ("invalid --set syntax: " ++ d))).
  { intros c w' H. rewrite Hset in H. now apply set_loop_exit in H. }
  split; [|split; [|split; [|split]]].
  - intros Hok. rewrite Hset. now apply set_loop_run.
  - intros ds' d -> Hok. rewrite Hset, set_loop_run by assumption.
    rewrite fold_left_app. reflexivity.
  - exact Hexit.
  - intros c w' name H. apply Hexit in H.
    destruct H as (_ & d & _ & [H | H]); rewrite H; intros H';
      apply append_inv_head in H'; discriminate.
  - intros ds' d part value enc -> Hok Hparse.
    rewrite Hset, set_loop_run by assumption.
    rewrite fold_left_app. cbn [fold_left].
    unfold apply_directive at 1. rewrite Hparse. reflexivity.
Qed.

End SetClaims.

(** C10 as it is stated fails where the engine refuses the last directive:
    [set] does not look at the engine's answer, the port stays the one of
    the directive before, and nothing is written. *)
Lemma refused_directive_keeps_value :
  let ds := ["port=80"; "port=abc"] in
  let w := set_world ds in
  Forall (fun d => parse_directive d <> None) ds
  /\ exists uh,
       set (E:=Picky.engine) Toy.empty (Some 0%nat) w = Ret uh w
       /\ curl_url_get (UrlEngine:=Picky.engine) uh CURLUPART_PORT 0
          = (CURLUE_OK, "80")
       /\ Toy.part uh CURLUPART_PORT <> Some "abc".
Proof.
  intros ds w. split.
  - repeat constructor; discriminate.
  - eexists. split; [vm_compute; reflexivity|].
    split; [reflexivity | discriminate].
Qed.

(** C10 on a set-list that names the host three times, in both spellings
    and both cases. *)
Lemma set_applies_every_directive_witness :
  let ds := ["host=a"; "HOST:=b"; "port="; "host=c"] in
  let w := set_world ds in
  deref (Some 0%nat) w = Ret (set_o_set_list (Some 0%nat) zero_option) w
  /\ slist_data w (Some 0%nat) = ds
  /\ Forall (fun d => parse_directive d <> None) ds
  /\ set (E:=Toy.engine) Toy.empty (Some 0%nat) w
     = Ret (fold_left (apply_directive (E:=Toy.engine)) ds Toy.empty) w
  /\ Toy.part (fold_left (apply_directive (E:=Toy.engine)) ds Toy.empty)
              CURLUPART_HOST = Some "c".
Proof.
  intros ds w.
  assert (H1 : deref (Some 0%nat) w
               = Ret (set_o_set_list (Some 0%nat) zero_option) w) by reflexivity.
  assert (H2 : slist_data w (o_set_list (set_o_set_list (Some 0%nat) zero_option))
               = ds) by reflexivity.
  assert (H3 : Forall (fun d => parse_directive d <> None) ds)
    by (repeat constructor; discriminate).
  split; [exact H1|]. split; [exact H2|]. split; [exact H3|]. split.
  - exact (proj1 (set_applies_every_directive (E:=Toy.engine) Toy.empty
                    (Some 0%nat) _ w ds H1 H2) H3).
  - reflexivity.
Defined.

(** ** The command line *)

(** C9, at a command line the code accepts although it holds two
    [--iterate]: a first directive with a single value leaves no second
    variant, [o.iterate] stays NULL, and the test that is to reject the
    second directive lets it through; both directives take effect.  When
    the first directive has two values the second one is rejected, with
    the iteration exit code. *)
Theorem second_iterate_accepted {E : UrlEngine} :
  (exists w',
      command_line ["trurl"; "--iterate"; "hosts=a"; "--iterate"; "ports=80 81";
                    "https://example.com/"] w0 = Ret tt w' /\
      w_err w' = "" /\
      map o_iterate (w_opts w') = [Some 1%nat; None] /\
      set_lists w' = [["host=a"; "port=80"]; ["host=a"; "port=80"; "port=81"]])
  /\ (exists w',
         command_line ["trurl"; "--iterate"; "hosts=a b"; "--iterate";
                       "ports=80 81"; "https://example.com/"] w0
         = Exit ERROR_ITER w' /\
         w_err w' = errorf_text "only one --iterate is supported").
Proof.
  split.
  - eexists. split; [vm_compute; reflexivity|].
    split; [reflexivity|]. split; reflexivity.
  - eexists. split; [vm_compute; reflexivity|]. reflexivity.
Qed.

(** ** The two loops of [main] over the URLs *)

Lemma bind_Ret {A B} (m : M A) (k : A -> M B) (w w' : world) (a : A) :
  m w = Ret a w' -> bind m k w = k a w'.
Proof. intros H. unfold bind. now rewrite H. Qed.

Lemma bind_Fault {A B} (m : M A) (k : A -> M B) (w w' : world) :
  m w = Fault w' -> bind m k w = Fault w'.
Proof. intros H. unfold bind. now rewrite H. Qed.

Lemma deref_run (a : nat) (v : struct_option) (w : world) :
  nth_error (w_opts w) a = Some v -> deref (Some a) w = Ret v w.
Proof. intros H. unfold deref. now rewrite H. Qed.

Lemma nth_error_update {A} (l : list A) (i : nat) (x : A) :
  (i < List.length l)%nat -> nth_error (update i x l) i = Some x.
Proof.
  revert i; induction l as [|y l IH]; intros [|i] H; simpl in *; try lia.
  - reflexivity.
  - apply IH. lia.
Qed.

Lemma fgets_split_le (n : nat) :
  forall (s l r : string),
    fgets_split n s = (l, r) -> (String.length r <= String.length s)%nat.
Proof.
  induction n as [|n IH]; intros s l r H.
  - destruct s; inversion H; subst; lia.
  - destruct s as [|c s]; [inversion H; subst; lia|].
    cbn [fgets_split] in H.
    destruct (Ascii.eqb c "010").
    + inversion H; subst. cbn [String.length]. lia.
    + destruct (fgets_split n s) as [l' r'] eqn:Hs'.
      inversion H; subst. apply IH in Hs'. cbn [String.length]. lia.
Qed.

Lemma fgets_split_shorter (n : nat) (s l r : string) :
  s <> "" -> fgets_split (S n) s = (l, r) ->
  (String.length r < String.length s)%nat.
Proof.
  intros Hs H. destruct s as [|c s]; [congruence|].
  cbn [fgets_split] in H.
  destruct (Ascii.eqb c "010").
  - inversion H; subst. cbn [String.length]. lia.
  - destruct (fgets_split n s) as [l' r'] eqn:Hs'.
    inversion H; subst. apply fgets_split_le in Hs'.
    cbn [String.length]. lia.
Qed.

Lemma fgets_run (a : nat) (s : string) (w : world) :
  nth_error (w_streams w) a = Some s -> s <> "" ->
  exists l r,
    fgets 4096 (Some a) w
    = Ret (Some l) (with_streams (update a r (w_streams w)) w) /\
    (String.length r < String.length s)%nat.
Proof.
  intros H Hs. unfold fgets. rewrite H.
  destruct s as [|c s]; [congruence|].
  assert (H4 : exists n, (4096 - 1 = S n)%nat) by (exists 4094%nat; reflexivity).
  destruct H4 as (n & ->).
  destruct (fgets_split (S n) (String c s)) as [l r] eqn:Hsp.
  exists l, r. split; [reflexivity|].
  now apply fgets_split_shorter in Hsp.
Qed.

Section FileMode.

Context {E : UrlEngine}.

Lemma main_eq (argv : list string) :
  main argv =
  (o <- malloc_copy zero_option ;; args_loop o (tl argv) ;;; main_process o).
Proof. reflexivity. Qed.

Lemma file_loop_idle (fuel : nat) :
  forall (w : world) (s : string) (v : struct_option) (a : nat),
    nth_error (w_opts w) 0 = Some v ->
    o_iterate v = None ->
    o_url v = Some a ->
    nth_error (w_streams w) a = Some s ->
    (String.length s < fuel)%nat ->
    exists w',
      file_loop fuel (Some 0%nat) w = Ret tt w' /\
      w_opts w' = w_opts w /\ w_out w' = w_out w /\ w_err w' = w_err w.
Proof.
  induction fuel as [|fuel IH]; intros w s v a Hv Hit Hu Hs Hlen; [lia|].
  cbn [file_loop]. unfold bind at 1. rewrite (deref_run _ _ _ Hv).
  unfold bind at 1. rewrite Hu.
  destruct s as [|c s].
  - unfold fgets. rewrite Hs. exists w. repeat split; reflexivity.
  - destruct (fgets_run a _ w Hs ltac:(congruence)) as (l & r & Hg & Hr).
    rewrite Hg.
    set (w1 := with_streams (update a r (w_streams w)) w).
    assert (Hv1 : nth_error (w_opts w1) 0 = Some v) by exact Hv.
    assert (Hline :
              (match strchr (c_str l) "010"%char with
               | Some (S e) =>
                   fuel0 <- chain_fuel ;;
                   file_variants fuel0 (Some 0%nat)
                     (take (if Ascii.eqb (at_ (c_str l) e) "013"%char
                            then e else S e) (c_str l))
               | _ => ret tt
               end) w1 = Ret tt w1).
    { destruct (strchr (c_str l) "010"%char) as [[|e]|]; try reflexivity.
      unfold bind, chain_fuel, gets. cbn [file_variants].
      unfold bind. rewrite (deref_run _ _ _ Hv1). rewrite Hit. reflexivity. }
    unfold bind at 1. rewrite Hline.
    destruct (IH w1 r v a Hv1 Hit Hu) as (w' & Hw' & Ho & Hout & Herr).
    + unfold w1. cbn [w_streams with_streams]. apply nth_error_update.
      apply nth_error_Some. congruence.
    + cbn [String.length] in *. lia.
    + exists w'. repeat split; assumption.
Qed.

Lemma file_mode_idle (text : string) :
  exists w',
    main ["trurl"; "-f"; "urls.txt"] (init_world "" [("urls.txt", text)])
    = Fault w' /\
    w_out w' = "" /\ w_err w' = "" /\ map o_urls (w_opts w') = [0%nat].
Proof.
  set (w2 := mk_world [file_option] [] [] [""; text] [("urls.txt", text)] "" "").
  destruct (file_loop_idle (S (String.length text)) w2 text file_option 1
              eq_refl eq_refl eq_refl eq_refl (Nat.lt_succ_diag_r _))
    as (w3 & Hloop & Hopts & Hout & Herr).
  exists w3. split.
  - rewrite main_eq.
    erewrite bind_Ret; [|reflexivity].
    erewrite bind_Ret; [|vm_compute; reflexivity].
    unfold main_process.
    erewrite bind_Ret; [|reflexivity].
    cbn [o_jsonout when o_url file_option].
    erewrite bind_Ret; [|reflexivity].
    erewrite bind_Ret; cycle 1.
    { erewrite bind_Ret; [|reflexivity]. exact Hloop. }
    erewrite bind_Ret; [|reflexivity].
    erewrite bind_Ret; [|apply (deref_run 0 file_option); now rewrite Hopts].
    erewrite bind_Ret; [|reflexivity].
    apply bind_Fault. reflexivity.
  - rewrite Hout, Herr, Hopts. repeat split; reflexivity.
Qed.

End FileMode.

(** C2, where the code departs from it.  In file mode the loop over the
    variants is [while(opt->iterate != NULL)], so the last variant of the
    chain never sees a URL, while in argument mode the loop is [while(opt)]
    and it does:
    - without [--iterate] the chain is the one variant [o], and whatever the
      file holds no URL is processed: nothing is written, the counter of [o]
      stays 0, and the run ends in [optcleanup(o.iterate)] on a NULL pointer;
    - with [--iterate "hosts=a b"] a line of the file is processed by the
      first variant only, the same URL as an argument by both. *)
Theorem file_mode_skips_last_variant :
  (forall (E : UrlEngine) (text : string),
      exists w',
        main ["trurl"; "-f"; "urls.txt"] (init_world "" [("urls.txt", text)])
        = Fault w' /\
        w_out w' = "" /\ w_err w' = "" /\ map o_urls (w_opts w') = [0%nat])
  /\ (exists w',
         main (E:=Toy.engine)
              ["trurl"; "--get"; "{host}"; "--iterate"; "hosts=a b"; "-f"; "urls.txt"]
              (init_world "" [("urls.txt", "https://example.com/x" ++ nl)])
         = Ret 0%Z w' /\
         w_out w' = "a" ++ nl /\ map o_urls (w_opts w') = [1; 0]%nat)
  /\ (exists w',
         main (E:=Toy.engine)
              ["trurl"; "--get"; "{host}"; "--iterate"; "hosts=a b";
               "https://example.com/x"] w0
         = Ret 0%Z w' /\
         w_out w' = "a" ++ nl ++ "b" ++ nl /\ map o_urls (w_opts w') = [1; 1]%nat).
Proof.
  split; [|split].
  - intros E text. apply file_mode_idle.
  - eexists. split; [vm_compute; reflexivity|]. split; reflexivity.
  - eexists. split; [vm_compute; reflexivity|]. split; reflexivity.
Qed.

(** ** Iteration over hosts *)

Section HostIteration.

Context {E : UrlEngine}.

(** What is asked of the engine: a handle can be made, the URL parses, it
    has no query and setting the host gives it none, and one of the three
    hosts, once set, is read back as it is. *)
Variable u0 : CURLU.
Hypothesis Hnew : curl_url = Some u0.
Hypothesis Hparse :
  snd (curl_url_set u0 CURLUPART_URL (Some "https://example.com/x")
                    (parse_flags false)) = CURLUE_OK.
Hypothesis Hnoquery :
  fst (curl_url_get
         (fst (curl_url_set u0 CURLUPART_URL (Some "https://example.com/x")
                            (parse_flags false)))
         CURLUPART_QUERY 0) = CURLUE_NO_QUERY.
Hypothesis Hframe :
  forall h v,
    curl_url_get (fst (curl_url_set h CURLUPART_HOST v (set_flags true)))
                 CURLUPART_QUERY 0
    = curl_url_get h CURLUPART_QUERY 0.
Hypothesis Hhost :
  forall h t,
    In t ["a"; "b"; "c"] ->
    curl_url_get (fst (curl_url_set h CURLUPART_HOST (Some t) (set_flags true)))
                 CURLUPART_HOST (get_flags true)
    = (CURLUE_OK, t).














End HostIteration.



(** * Further properties *)

(** ** More on the query pair store *)

Lemma join_amp_cons (x : string) (l : list string) :
  l <> [] -> join_amp (x :: l) = x ++ "&" ++ join_amp l.
Proof. destruct l; [congruence | reflexivity]. Qed.

Lemma nq_fold_live (l : list string) :
  forall acc : string,
    fold_left nq_step l (Some acc) =
    Some (match acc with
          | EmptyString => join_amp (live l)
          | _ => join_amp (acc :: live l)
          end).
Proof.
  induction l as [|q l IH]; intros acc.
  - destruct acc; reflexivity.
  - cbn [fold_left]. destruct acc as [|a acc].
    + change (nq_step (Some "") q) with (Some q).
      rewrite IH. destruct q; reflexivity.
    + destruct q as [|c q].
      * replace (nq_step (Some (String a acc)) "") with (Some (String a acc))
          by (unfold nq_step; cbn [append]; now rewrite append_nil_r).
        rewrite IH. reflexivity.
      * change (nq_step (Some (String a acc)) (String c q))
          with (Some (String a (acc ++ "&" ++ String c q))).
        rewrite IH.
        cbn [live filter String.eqb negb].
        fold (live l). f_equal.
        destruct (live l) as [|x r] eqn:Hl.
        -- reflexivity.
        -- rewrite (join_amp_cons (String a (acc ++ "&" ++ String c q)))
             by discriminate.
           rewrite (join_amp_cons (String a acc)) by discriminate.
           rewrite (join_amp_cons (String c q)) by discriminate.
           cbn [append]. rewrite !append_assoc. reflexivity.
Qed.

Lemma qpair2query_nq_live (l : list string) :
  qpair2query_nq l =
  match l with
  | [] => None
  | _ => Some (join_amp (live l))
  end.
Proof.
  destruct l as [|q l]; [reflexivity|].
  unfold qpair2query_nq. cbn [fold_left].
  change (nq_step None q) with (Some q).
  rewrite nq_fold_live. destruct q; reflexivity.
Qed.

(** X1.  [qpair2query] hands the engine the stored pairs that are not empty,
    in order and joined by single [&]: a tombstone leaves no [&] behind, at
    the start, at the end or in the middle.  With nothing stored the engine
    is not called; with only empty pairs stored it is handed the empty
    string; a refusal of the engine brings one warning and nothing else. *)
Theorem rebuild_joins_live_pairs {E : UrlEngine} (uh : CURLU) (w : world) :
  qpair2query uh w =
  match w_qpairs w with
  | [] => Ret uh w
  | _ =>
      let r := curl_url_set uh CURLUPART_QUERY
                 (Some (join_amp (live (w_qpairs w)))) 0 in
      Ret (fst r)
          (if is_ok (snd r) then w
           else with_err (w_err w ++ warnf_text "internal problem") w)
  end.
Proof.
  unfold qpair2query, bind, gets. rewrite qpair2query_nq_live.
  destruct (w_qpairs w) as [|q l] eqn:Hq; [reflexivity|].
  cbv zeta.
  destruct (curl_url_set uh CURLUPART_QUERY (Some (join_amp (live (q :: l)))) 0)
    as [uh' rc].
  cbn [fst snd]. destruct (is_ok rc); reflexivity.
Qed.

Lemma forM_addqpair (p : list string) :
  forall w : world,
    forM p (fun data => addqpair data (String.length data) ;;; ret tt) w
    = Ret tt (store_all p w).
Proof.
  induction p as [|d p IH]; intros w; [reflexivity|].
  cbn [forM]. unfold bind at 1. unfold bind at 1.
  rewrite addqpair_run. cbn [ret]. rewrite IH.
  rewrite take_all by lia. reflexivity.
Qed.

(** X2.  The stored pairs after the query is extracted and the queued
    [--append query=] entries are added: the segments of the engine's query
    string (none when it reports no query) followed by the entries, in
    order, cut at 1000 pairs in all; the two steps never end the
    program. *)
Theorem extract_then_append {E : UrlEngine} (uh : CURLU) (p : list string)
        (w : world) :
  exists w',
    (extractqpairs uh ;;;
     forM p (fun data => addqpair data (String.length data) ;;; ret tt)) w
    = Ret tt w' /\
    w_qpairs w' =
    firstn MAX_QPAIRS
      ((if is_ok (fst (curl_url_get uh CURLUPART_QUERY 0))
        then pieces (snd (curl_url_get uh CURLUPART_QUERY 0)) else []) ++ p)%list /\
    (nqpairs w' <= MAX_QPAIRS)%nat /\
    w_out w' = w_out w /\ w_opts w' = w_opts w /\ w_slists w' = w_slists w.
Proof.
  destruct (curl_url_get uh CURLUPART_QUERY 0) as [rc q] eqn:Hq.
  cbn [fst snd].
  set (xs := if is_ok rc then pieces q else []).
  assert (He : extractqpairs uh w = Ret tt (store_all xs (with_qpairs [] w))).
  { unfold xs. destruct rc; try (unfold extractqpairs, bind, modify;
      rewrite Hq; reflexivity).
    now apply extractqpairs_run. }
  exists (store_all p (store_all xs (with_qpairs [] w))).
  assert (Hall : store_all p (store_all xs (with_qpairs [] w))
                 = store_all (xs ++ p) (with_qpairs [] w)).
  { unfold store_all. now rewrite fold_left_app. }
  split.
  - unfold bind. rewrite He. apply forM_addqpair.
  - rewrite Hall.
    destruct (store_all_frame (xs ++ p) (with_qpairs [] w))
      as (H1 & H2 & _ & _ & H5).
    assert (Hq' : w_qpairs (store_all (xs ++ p) (with_qpairs [] w))
                  = firstn MAX_QPAIRS (xs ++ p)).
    { rewrite store_all_qpairs by (unfold nqpairs; cbn; lia). reflexivity. }
    split; [exact Hq'|]. split.
    + unfold nqpairs. rewrite Hq'. rewrite length_firstn. lia.
    + split; [exact H5|]. split; [exact H1 | exact H2].
Qed.

(** ** More on trimming *)

Lemma with_qpairs_id (w : world) : with_qpairs (w_qpairs w) w = w.
Proof. destruct w; reflexivity. Qed.

Lemma trim_loop_accept (instr : string) (nodes : list string) (w : world) :
  trim_accepts instr = true ->
  trim_loop (instr :: nodes) w
  = trim_loop nodes (with_qpairs (map (trim_one instr) (w_qpairs w)) w).
Proof.
  unfold trim_accepts. intros H.
  cbn [trim_loop]. rewrite H. cbn [negb when].
  unfold bind at 1. cbn [ret]. unfold bind at 1.
  unfold trim_one.
  destruct (strchr instr "="%char) as [[|e]|].
  - cbn [ret]. rewrite map_id, with_qpairs_id. reflexivity.
  - reflexivity.
  - cbn [ret]. rewrite map_id, with_qpairs_id. reflexivity.
Qed.

Lemma trim_loop_reject (instr : string) (nodes : list string) (w : world) :
  trim_accepts instr = false ->
  trim_loop (instr :: nodes) w
  = Exit ERROR_TRIM
         (with_err (w_err w ++ errorf_text ("Unsupported trim component: " ++ instr))
                   w).
Proof.
  unfold trim_accepts. intros H.
  cbn [trim_loop]. rewrite H. reflexivity.
Qed.

Lemma trim_one_empty (instr : string) : trim_one instr "" = "".
Proof.
  unfold trim_one. destruct (strchr instr "="%char) as [[|e]|]; try reflexivity.
  destruct (trim_match _ _ _ _); reflexivity.
Qed.

Lemma trim_one_cases (instr q : string) :
  trim_one instr q = q \/ trim_one instr q = "".
Proof.
  unfold trim_one. destruct (strchr instr "="%char) as [[|e]|]; auto.
  destruct (trim_match _ _ _ _); auto.
Qed.

Lemma trim_all_empty (nodes : list string) : trim_all nodes "" = "".
Proof.
  induction nodes as [|d ds IH]; [reflexivity|].
  unfold trim_all in *. cbn [fold_left]. now rewrite trim_one_empty.
Qed.

Lemma trim_all_cases (nodes : list string) :
  forall q, trim_all nodes q = q \/ trim_all nodes q = "".
Proof.
  induction nodes as [|d ds IH]; intros q; [now left|].
  change (trim_all (d :: ds) q) with (trim_all ds (trim_one d q)).
  destruct (trim_one_cases d q) as [-> | ->].
  - apply IH.
  - right. apply trim_all_empty.
Qed.

Lemma trim_all_idem (nodes : list string) (q : string) :
  trim_all nodes (trim_all nodes q) = trim_all nodes q.
Proof.
  destruct (trim_all_cases nodes q) as [H | H]; rewrite H.
  - exact H.
  - apply trim_all_empty.
Qed.

Lemma nth_map_fix (f : string -> string) (l : list string) (i : nat) :
  f "" = "" -> nth i (map f l) "" = f (nth i l "").
Proof.
  intros Hf. rewrite <- (map_nth f l "" i). now rewrite Hf.
Qed.

Lemma trim_loop_run (nodes : list string) :
  forall w : world,
    forallb trim_accepts nodes = true ->
    trim_loop nodes w
    = Ret tt (with_qpairs (map (trim_all nodes) (w_qpairs w)) w).
Proof.
  induction nodes as [|d ds IH]; intros w H.
  - cbn [trim_loop]. unfold trim_all. cbn [fold_left].
    rewrite map_id, with_qpairs_id. reflexivity.
  - cbn [forallb] in H. apply andb_prop in H. destruct H as [Hd Hds].
    rewrite trim_loop_accept by exact Hd. rewrite IH by exact Hds.
    cbn [w_qpairs with_qpairs]. rewrite map_map. reflexivity.
Qed.

Lemma trim_loop_stop (good : list string) :
  forall (bad : string) (rest : list string) (w : world),
    forallb trim_accepts good = true ->
    trim_accepts bad = false ->
    trim_loop (good ++ bad :: rest) w
    = Exit ERROR_TRIM
        (with_err (w_err w ++ errorf_text ("Unsupported trim component: " ++ bad))
           (with_qpairs (map (trim_all good) (w_qpairs w)) w)).
Proof.
  induction good as [|d ds IH]; intros bad rest w H Hb.
  - cbn [app]. rewrite trim_loop_reject by exact Hb.
    unfold trim_all. cbn [fold_left].
    rewrite map_id, with_qpairs_id. reflexivity.
  - cbn [forallb] in H. apply andb_prop in H. destruct H as [Hd Hds].
    cbn [app]. rewrite trim_loop_accept by exact Hd.
    rewrite IH by assumption.
    cbn [w_qpairs w_err with_qpairs]. rewrite map_map. reflexivity.
Qed.

Lemma split_at_rejected (nodes : list string) :
  forallb trim_accepts nodes = false ->
  exists good bad rest,
    nodes = (good ++ bad :: rest)%list /\
    forallb trim_accepts good = true /\ trim_accepts bad = false.
Proof.
  induction nodes as [|d ds IH]; intros H; [discriminate|].
  cbn [forallb] in H. destruct (trim_accepts d) eqn:Hd.
  - cbn [andb] in H. destruct (IH H) as (good & bad & rest & -> & Hg & Hb).
    exists (d :: good), bad, rest. split; [reflexivity|].
    split; [cbn [forallb]; now rewrite Hd | exact Hb].
  - exists [], d, ds. repeat split; assumption.
Qed.

(** X3.  Whatever the trim directives, [trim] returns or ends the program
    with the trim exit code, and up to that point it has only emptied
    pairs: the number of stored pairs is the same, every pair is where it
    was and is either as it was or empty, and nothing but the pairs (and
    [stderr] on exit) has changed. *)
Theorem trim_keeps_positions (nodes : list string) (w : world) :
  exists w',
    (trim_loop nodes w = Ret tt w' \/ trim_loop nodes w = Exit ERROR_TRIM w') /\
    List.length (w_qpairs w') = List.length (w_qpairs w) /\
    (forall i, nth i (w_qpairs w') "" = nth i (w_qpairs w) "" \/
               nth i (w_qpairs w') "" = "") /\
    w_out w' = w_out w /\ w_opts w' = w_opts w /\ w_slists w' = w_slists w.
Proof.
  assert (Hmap : forall good,
             List.length (map (trim_all good) (w_qpairs w))
             = List.length (w_qpairs w) /\
             (forall i, nth i (map (trim_all good) (w_qpairs w)) ""
                        = nth i (w_qpairs w) "" \/
                        nth i (map (trim_all good) (w_qpairs w)) "" = "")).
  { intros good. split; [apply length_map|]. intros i.
    rewrite nth_map_fix by apply trim_all_empty.
    apply trim_all_cases. }
  destruct (forallb trim_accepts nodes) eqn:Hall.
  - exists (with_qpairs (map (trim_all nodes) (w_qpairs w)) w).
    split; [left; now apply trim_loop_run|].
    destruct (Hmap nodes) as [Hl Hn].
    cbn [w_qpairs w_out w_opts w_slists with_qpairs]. auto.
  - destruct (split_at_rejected nodes Hall) as (good & bad & rest & -> & Hg & Hb).
    eexists. split; [right; now apply trim_loop_stop|].
    destruct (Hmap good) as [Hl Hn].
    cbn [w_qpairs w_out w_opts w_slists with_qpairs with_err]. auto.
Qed.

(** X4.  Trimming twice is trimming once: a second run of [trim] over the
    same directives changes nothing more. *)
Theorem trim_twice (o : ptr) (w : world) :
  (trim o ;;; trim o) w = trim o w.
Proof.
  unfold bind at 1.
  destruct (trim o w) as [[] w1| | |] eqn:Ht; try reflexivity.
  unfold trim in *. unfold bind at 1 in Ht. unfold bind at 1.
  destruct (deref o w) as [v w2| | |] eqn:Hd; try discriminate.
  assert (Hw2 : w2 = w).
  { unfold deref in Hd. destruct o as [a|]; [|discriminate].
    destruct (nth_error (w_opts w) a); inversion Hd; reflexivity. }
  subst w2.
  unfold bind at 1 in Ht. unfold gets in Ht.
  set (nodes := slist_data w (o_trim_list v)) in *.
  destruct (forallb trim_accepts nodes) eqn:Hall.
  - rewrite trim_loop_run in Ht by exact Hall. inversion Ht; subst w1.
    assert (Hd1 : deref o (with_qpairs (map (trim_all nodes) (w_qpairs w)) w)
                  = Ret v (with_qpairs (map (trim_all nodes) (w_qpairs w)) w)).
    { unfold deref in *. destruct o as [a|]; [|discriminate].
      cbn [w_opts with_qpairs].
      destruct (nth_error (w_opts w) a); inversion Hd; reflexivity. }
    rewrite Hd1. unfold bind at 1. unfold gets.
    change (slist_data (with_qpairs (map (trim_all nodes) (w_qpairs w)) w)
                       (o_trim_list v)) with nodes.
    rewrite trim_loop_run by exact Hall.
    cbn [w_qpairs with_qpairs]. rewrite map_map.
    f_equal. unfold with_qpairs. cbn. f_equal.
    apply map_ext. intros q. apply trim_all_idem.
  - destruct (split_at_rejected nodes Hall) as (good & bad & rest & Hn & Hg & Hb).
    rewrite Hn in Ht. rewrite trim_loop_stop in Ht by assumption. discriminate.
Qed.

Lemma trim_one_key (instr q : string) (e : nat) :
  trim_accepts instr = true ->
  strchr instr "="%char = Some e ->
  trim_one instr q
  = if key_matches (drop (S e) instr) (key q) then "" else q.
Proof.
  intros Ha He. unfold trim_one. rewrite He.
  destruct e as [|e]; [now apply query_prefix_not_eq in He; [| apply Z.eqb_eq, Ha]|].
  set (pat := drop (S (S e)) instr).
  assert (Hstar : Ascii.eqb (at_ instr (S e + String.length pat)) "*"%char
                  = ends_with_star pat).
  { unfold at_. rewrite drop_drop. rewrite (strchr_drop _ _ _ He).
    fold pat. fold (at_ (String "="%char pat) (String.length pat)).
    rewrite at_last. destruct pat; reflexivity. }
  cbv zeta. rewrite Hstar. rewrite trim_match_key. reflexivity.
Qed.

Lemma live_map_if (m : string -> bool) (l : list string) :
  live (map (fun q => if m q then "" else q) l)
  = filter (fun q => negb (m q) && negb (String.eqb q "")) l.
Proof.
  unfold live. induction l as [|q l IH]; [reflexivity|].
  cbn [map filter]. rewrite IH.
  destruct (m q); reflexivity.
Qed.

(** X5.  One accepted trim directive followed by the rebuild: the query
    handed back to the engine is made of the stored pairs that are not
    empty and whose key the pattern does not match, in their order, joined
    by [&]. *)
Theorem trim_then_rebuild (o : ptr) (v : struct_option) (w : world)
        (instr : string) (e : nat) :
  deref o w = Ret v w ->
  slist_data w (o_trim_list v) = [instr] ->
  trim_accepts instr = true ->
  strchr instr "="%char = Some e ->
  w_qpairs w <> [] ->
  exists w',
    trim o w = Ret tt w' /\
    qpair2query_nq (w_qpairs w')
    = Some (join_amp
              (filter (fun q => negb (key_matches (drop (S e) instr) (key q))
                                && negb (String.eqb q ""))
                      (w_qpairs w))).
Proof.
  intros Hd Hl Ha He Hne.
  exists (with_qpairs (map (trim_all [instr]) (w_qpairs w)) w).
  split.
  - unfold trim, bind, gets. rewrite Hd, Hl.
    apply trim_loop_run. cbn [forallb]. now rewrite Ha.
  - cbn [w_qpairs with_qpairs].
    assert (Hm : map (trim_all [instr]) (w_qpairs w)
                 = map (fun q => if key_matches (drop (S e) instr) (key q)
                                 then "" else q) (w_qpairs w)).
    { apply map_ext. intros x. unfold trim_all. cbn [fold_left].
      now apply trim_one_key. }
    rewrite Hm. rewrite qpair2query_nq_live. rewrite live_map_if.
    destruct (w_qpairs w) as [|q l]; [congruence | reflexivity].
Qed.

(** X5 on the pattern [utm_*] and four stored pairs, one of them already a
    tombstone. *)
Lemma trim_then_rebuild_witness :
  let w := trim_world "query=utm_*" ["utm_source=x"; "id=1"; ""; "UTM_m=y"] in
  deref (Some 0%nat) w = Ret (set_o_trim_list (Some 0%nat) zero_option) w
  /\ slist_data w (Some 0%nat) = ["query=utm_*"]
  /\ trim_accepts "query=utm_*" = true
  /\ strchr "query=utm_*" "="%char = Some 5%nat
  /\ w_qpairs w <> []
  /\ exists w',
       trim (Some 0%nat) w = Ret tt w' /\
       qpair2query_nq (w_qpairs w') = Some "id=1".
Proof.
  intros w.
  assert (H1 : deref (Some 0%nat) w
               = Ret (set_o_trim_list (Some 0%nat) zero_option) w)
    by reflexivity.
  assert (H2 : slist_data w (o_trim_list (set_o_trim_list (Some 0%nat) zero_option))
               = ["query=utm_*"]) by reflexivity.
  assert (H3 : trim_accepts "query=utm_*" = true) by reflexivity.
  assert (H4 : strchr "query=utm_*" "="%char = Some 5%nat) by reflexivity.
  assert (H5 : w_qpairs w <> []) by discriminate.
  split; [exact H1|]. split; [exact H2|]. split; [exact H3|].
  split; [exact H4|]. split; [exact H5|].
  exact (trim_then_rebuild (Some 0%nat) _ w "query=utm_*" 5 H1 H2 H3 H4 H5).
Defined.

(** ** More on the format interpreter *)

Lemma strchr_app (body rest : string) (c : ascii) :
  strchr body c = None ->
  strchr (body ++ String c rest) c = Some (String.length body).
Proof.
  induction body as [|x body IH]; cbn [strchr append String.length]; intros H.
  - now rewrite Ascii.eqb_refl.
  - destruct (Ascii.eqb x c); [discriminate|].
    destruct (strchr body c); [discriminate|].
    rewrite IH by reflexivity. reflexivity.
Qed.

Lemma lower_variables :
  forall v, In v variables -> lower (fst v) = fst v.
Proof.
  intros v Hv. cbn in Hv.
  repeat (destruct Hv as [<- | Hv]; [reflexivity|]). contradiction.
Qed.

Lemma filter_absent (k : string) (vars : list (string * CURLUPart)) :
  ~ In k (map fst vars) ->
  filter (fun v => String.eqb k (fst v)) vars = [].
Proof.
  induction vars as [|v vars IH]; intros H; [reflexivity|].
  cbn [filter]. destruct (String.eqb k (fst v)) eqn:Hk.
  - apply String.eqb_eq in Hk. elim H. left. now symmetry.
  - apply IH. intros Hin. apply H. now right.
Qed.

Lemma filter_unique (k : string) (vars : list (string * CURLUPart)) :
  NoDup (map fst vars) ->
  filter (fun v => String.eqb k (fst v)) vars
  = match find (fun v => String.eqb k (fst v)) vars with
    | Some v => [v]
    | None => []
    end.
Proof.
  induction vars as [|v vars IH]; intros H; [reflexivity|].
  cbn [map] in H. inversion H as [|? ? Hn Hd]; subst.
  cbn [filter find]. destruct (String.eqb k (fst v)) eqn:Hk.
  - apply String.eqb_eq in Hk. subst k.
    now rewrite filter_absent.
  - now apply IH.
Qed.

Lemma variables_nodup : NoDup (map fst variables).
Proof.
  cbn. repeat (constructor; [cbn; intuition discriminate|]). constructor.
Qed.

Lemma find_ext_in {A} (f g : A -> bool) (l : list A) :
  (forall a, In a l -> f a = g a) -> find f l = find g l.
Proof.
  induction l as [|x l IH]; intros H; [reflexivity|].
  cbn [find]. rewrite (H x (or_introl eq_refl)).
  rewrite IH; [reflexivity|]. intros a Ha. apply H. now right.
Qed.

Lemma ci_eq_variables (key : string) :
  filter (fun v => ci_eq key (fst v)) variables
  = filter (fun v => String.eqb (lower key) (fst v)) variables
  /\ find (fun v => ci_eq key (fst v)) variables
     = find (fun v => String.eqb (lower key) (fst v)) variables.
Proof.
  assert (H : forall v, In v variables ->
                        ci_eq key (fst v) = String.eqb (lower key) (fst v)).
  { intros v Hv. unfold ci_eq. now rewrite (lower_variables v Hv). }
  split; [now apply filter_ext_in | now apply find_ext_in].
Qed.

Section MoreFormat.

Context {E : UrlEngine}.

Lemma get_vars_filter (uh : CURLU) (ptr : string) (vlen : nat) (dec : bool)
      (vars : list (string * CURLUPart)) :
  (vlen <= String.length ptr)%nat ->
  forall w,
    get_vars uh ptr vlen dec vars w
    = forM (filter (fun v => ci_eq (take vlen ptr) (fst v)) vars)
           (fun v => get_part uh (fst v) (snd v) dec) w.
Proof.
  intros Hlen. induction vars as [|[name part] vars IH]; intros w;
    [reflexivity|].
  cbn [get_vars filter fst]. rewrite match_name by exact Hlen.
  destruct (ci_eq (take vlen ptr) name).
  - cbn [forM fst snd]. unfold bind. unfold get_part.
    change (Z.lor (Z.lor CURLU_DEFAULT_PORT CURLU_NO_DEFAULT_PORT)
                  (if dec then CURLU_URLDECODE else 0)) with (get_flags dec).
    destruct (curl_url_get uh part (get_flags dec)) as [rc nurl].
    destruct (match rc with CURLUE_OK => fputs nurl | _ => _ end w);
      try reflexivity; apply IH.
  - unfold bind. cbn [ret]. apply IH.
Qed.

Lemma get_vars_lookup (uh : CURLU) (ptr : string) (vlen : nat) (dec : bool)
      (w : world) :
  (vlen <= String.length ptr)%nat ->
  get_vars uh ptr vlen dec variables w
  = match lookup_variable (take vlen ptr) with
    | Some (name, part) => get_part uh name part dec w
    | None => Ret tt w
    end.
Proof.
  intros Hlen. rewrite get_vars_filter by exact Hlen.
  unfold lookup_variable.
  destruct (ci_eq_variables (take vlen ptr)) as [-> ->].
  rewrite (filter_unique _ _ variables_nodup).
  destruct (find _ variables) as [[name part]|]; [|reflexivity].
  cbn [forM fst snd]. unfold bind.
  destruct (get_part uh name part dec w) as [[] w'| | |]; reflexivity.
Qed.

Lemma get_part_output (uh : CURLU) (name : string) (part : CURLUPart)
      (dec : bool) (w : world) :
  exists w', get_part uh name part dec w = Ret tt w' /\ only_output w w'.
Proof.
  unfold get_part.
  destruct (curl_url_get uh part (get_flags dec)) as [rc nurl].
  assert (Hout : forall s, only_output w (with_out (w_out w ++ s) w)).
  { intros s. repeat split; try reflexivity.
    - now exists s.
    - exists "". cbn. now rewrite append_nil_r. }
  assert (Herr : forall s, only_output w (with_err (w_err w ++ s) w)).
  { intros s. repeat split; try reflexivity.
    - exists "". cbn. now rewrite append_nil_r.
    - now exists s. }
  assert (Hid : only_output w w).
  { repeat split; try reflexivity; exists ""; now rewrite append_nil_r. }
  destruct rc; eexists; (split; [reflexivity|]);
    first [apply Hout | apply Herr | apply Hid].
Qed.

Lemma only_output_refl (w : world) : only_output w w.
Proof.
  repeat split; try reflexivity; exists ""; now rewrite append_nil_r.
Qed.

Lemma only_output_trans (w1 w2 w3 : world) :
  only_output w1 w2 -> only_output w2 w3 -> only_output w1 w3.
Proof.
  intros (A1 & A2 & A3 & A4 & A5 & [s1 A6] & [e1 A7])
         (B1 & B2 & B3 & B4 & B5 & [s2 B6] & [e2 B7]).
  repeat split; try congruence.
  - exists (s1 ++ s2). rewrite B6, A6. apply append_assoc.
  - exists (e1 ++ e2). rewrite B7, A7. apply append_assoc.
Qed.

Lemma only_output_fputs (s : string) (w : world) :
  only_output w (with_out (w_out w ++ s) w).
Proof.
  repeat split; try reflexivity.
  - now exists s.
  - exists "". cbn. now rewrite append_nil_r.
Qed.

(** X6.  A reference in the format: at [{body}], where [body] holds no [}]
    and does not begin with [{], [get] looks the text of [body] up in the
    table of the eleven components, without regard to case and after a
    leading [:], which switches the decoding off.  A component of the table
    is asked of the engine once and written as described by [get_part]; any
    other text writes nothing and is no error.  Rendering goes on after the
    [}]. *)
Theorem reference_step (uh : CURLU) (fuel : nat) (body rest : string)
        (w : world) :
  strchr body "}"%char = None ->
  at_ body 0 <> "{"%char ->
  let dec := negb (Ascii.eqb (at_ body 0) ":"%char) in
  let name := if dec then body else drop 1 body in
  get_loop (S fuel) uh ("{" ++ body ++ "}" ++ rest) w
  = (match lookup_variable name with
     | Some (nm, part) => get_part uh nm part dec
     | None => ret tt
     end ;;; get_loop fuel uh rest) w.
Proof.
  intros Hclose Hopen dec name.
  change ("{" ++ body ++ "}" ++ rest)
    with (String "{"%char (body ++ String "}"%char rest)).
  cbn [get_loop]. rewrite Ascii.eqb_refl.
  change (at_ (String "{"%char (body ++ String "}"%char rest)) 1)
    with (at_ (body ++ String "}"%char rest) 0).
  assert (Hat : at_ (body ++ String "}"%char rest) 0
                = match body with EmptyString => "}"%char | _ => at_ body 0 end).
  { destruct body; reflexivity. }
  assert (Hb : Ascii.eqb "{"%char (at_ (body ++ String "}"%char rest) 0) = false).
  { rewrite Hat. destruct body as [|c body]; [reflexivity|].
    apply Ascii.eqb_neq. intros H. apply Hopen. now rewrite <- H. }
  rewrite Hb.
  cbn [strchr]. change (Ascii.eqb "{"%char "}"%char) with false. cbn iota.
  rewrite (strchr_app body rest _ Hclose). cbn [option_map].
  change (drop 1 (String "{"%char (body ++ String "}"%char rest)))
    with (body ++ String "}"%char rest).
  assert (Hrest : drop (S (S (String.length body)))
                       (String "{"%char (body ++ String "}"%char rest)) = rest).
  { change (drop (S (S (String.length body)))
                 (String "{"%char (body ++ String "}"%char rest)))
      with (drop (S (String.length body)) (body ++ String "}"%char rest)).
    replace (S (String.length body)) with (String.length body + 1)%nat by lia.
    rewrite drop_drop, drop_app_exact. reflexivity. }
  rewrite Hrest.
  assert (Hcolon : Ascii.eqb (at_ (body ++ String "}"%char rest) 0) ":"%char
                   = Ascii.eqb (at_ body 0) ":"%char).
  { rewrite Hat. destruct body; reflexivity. }
  rewrite Hcolon. subst dec name.
  destruct (Ascii.eqb (at_ body 0) ":"%char) eqn:Hc; cbn [negb].
  - destruct body as [|c body]; [discriminate|].
    change (drop 1 (String c body ++ String "}"%char rest))
      with (body ++ String "}"%char rest).
    change (drop 1 (String c body)) with body.
    unfold bind. rewrite get_vars_lookup.
    + cbn [String.length]. replace (S (S (String.length body)) - 2)%nat
        with (String.length body) by lia.
      rewrite take_app_exact.
      destruct (lookup_variable body) as [[nm part]|]; reflexivity.
    + rewrite length_append. cbn [String.length]. lia.
  - unfold bind. rewrite get_vars_lookup.
    + replace (S (String.length body) - 1)%nat with (String.length body) by lia.
      rewrite take_app_exact.
      destruct (lookup_variable body) as [[nm part]|]; reflexivity.
    + rewrite length_append. lia.
Qed.

Lemma get_vars_output (uh : CURLU) (ptr : string) (vlen : nat) (dec : bool)
      (vars : list (string * CURLUPart)) :
  forall w,
    exists w', get_vars uh ptr vlen dec vars w = Ret tt w' /\ only_output w w'.
Proof.
  induction vars as [|[name part] vars IH]; intros w.
  - exists w. split; [reflexivity | apply only_output_refl].
  - cbn [get_vars].
    destruct ((String.length name =? vlen)%nat && is0 (strncasecmp ptr name vlen)).
    + change (let (rc, nurl) := curl_url_get uh part
                (Z.lor (Z.lor CURLU_DEFAULT_PORT CURLU_NO_DEFAULT_PORT)
                       (if dec then CURLU_URLDECODE else 0)) in
              match rc with
              | CURLUE_OK => fputs nurl
              | CURLUE_NO_SCHEME | CURLUE_NO_USER | CURLUE_NO_PASSWORD
              | CURLUE_NO_OPTIONS | CURLUE_NO_HOST | CURLUE_NO_PORT
              | CURLUE_NO_QUERY | CURLUE_NO_FRAGMENT | CURLUE_NO_ZONEID => ret tt
              | _ => eputs (PROGNAME ++ ": " ++ curl_url_strerror rc ++ " ("
                            ++ name ++ ")" ++ nl)
              end) with (get_part uh name part dec).
      destruct (get_part_output uh name part dec w) as (w1 & H1 & O1).
      unfold bind. rewrite H1.
      destruct (IH w1) as (w' & Hw' & O').
      exists w'. split; [exact Hw' | eapply only_output_trans; eassumption].
    + unfold bind. cbn [ret]. apply IH.
Qed.

Lemma get_loop_output (uh : CURLU) (fuel : nat) :
  forall (ptr : string) (w : world),
    (String.length ptr <= fuel)%nat ->
    exists w', get_loop fuel uh ptr w = Ret tt w' /\ only_output w w'.
Proof.
  induction fuel as [|fuel IH]; intros ptr w Hlen.
  - destruct ptr; [|simpl in Hlen; lia].
    exists w. split; [reflexivity | apply only_output_refl].
  - destruct ptr as [|c s].
    { exists w. split; [reflexivity | apply only_output_refl]. }
    cbn [String.length] in Hlen.
    assert (Hd : forall n, (String.length (drop (S n) (String c s)) <= fuel)%nat).
    { intros n. rewrite drop_length. cbn [String.length]. lia. }
    assert (Hseq : forall (m : M unit) (n : nat),
               (exists w1, m w = Ret tt w1 /\ only_output w w1) ->
               exists w',
                 (m ;;; get_loop fuel uh (drop (S n) (String c s))) w = Ret tt w' /\
                 only_output w w').
    { intros m n (w1 & Hm & Ho). unfold bind. rewrite Hm.
      destruct (IH (drop (S n) (String c s)) w1 (Hd n)) as (w' & Hw' & Ho').
      exists w'. split; [exact Hw' | eapply only_output_trans; eassumption]. }
    cbn [get_loop].
    destruct (Ascii.eqb "{"%char c).
    + destruct (Ascii.eqb "{"%char (at_ (String c s) 1)).
      * apply (Hseq (fputs "{") 1%nat).
        eexists. split; [reflexivity | apply only_output_fputs].
      * destruct (strchr (String c s) "}"%char) as [e|].
        -- destruct (Ascii.eqb (at_ (drop 1 (String c s)) 0) ":"%char);
             apply (Hseq _ e); apply get_vars_output.
        -- apply (IH (drop 1 (String c s)) w (Hd 0%nat)).
    + destruct (Ascii.eqb "\"%char c && negb (Ascii.eqb (at_ (String c s) 1) zero)).
      * assert (H1 : forall x, exists w1,
                     fputs x w = Ret tt w1 /\ only_output w w1).
        { intros x. eexists. split; [reflexivity | apply only_output_fputs]. }
        assert (H2 : forall x y, exists w1,
                     (fputs x ;;; fputs y) w = Ret tt w1 /\ only_output w w1).
        { intros x y. eexists. split; [reflexivity|].
          eapply only_output_trans; [apply only_output_fputs|].
          apply (only_output_fputs y (with_out (w_out w ++ x) w)). }
        destruct (at_ (String c s) 1) as [[] [] [] [] [] [] [] []];
          match goal with
          | |- exists w', bind ?m _ w = _ /\ _ =>
              apply (Hseq m 1%nat); first [apply H1 | apply H2]
          end.
      * apply (Hseq (fputs (String c "")) 0%nat).
        eexists. split; [reflexivity | apply only_output_fputs].
Qed.

(** X7.  [get] never ends the program and never fails: with any format and
    any engine it returns normally, having added text to [stdout] and
    [stderr] and changed nothing else, and the last byte it writes to
    [stdout] is a newline. *)
Theorem get_always_returns (op : ptr) (v : struct_option) (uh : CURLU)
        (w : world) :
  deref op w = Ret v w ->
  exists w' s,
    get op uh w = Ret tt w' /\ only_output w w' /\
    w_out w' = w_out w ++ s ++ nl.
Proof.
  intros Hd. unfold get. unfold bind at 1. rewrite Hd.
  assert (Hl : exists w1,
             (match o_format v with
              | Some ptr => get_loop (String.length ptr) uh ptr
              | None => ret tt
              end) w = Ret tt w1 /\ only_output w w1).
  { destruct (o_format v) as [ptr|].
    - apply get_loop_output. lia.
    - exists w. split; [reflexivity | apply only_output_refl]. }
  destruct Hl as (w1 & Hw1 & O1).
  unfold bind. rewrite Hw1.
  destruct O1 as (A1 & A2 & A3 & A4 & A5 & [s A6] & [e A7]).
  exists (with_out (w_out w1 ++ nl) w1), s.
  split; [reflexivity|]. split.
  - repeat split; cbn; try assumption.
    + exists (s ++ nl). rewrite A6. apply append_assoc.
    + now exists e.
  - cbn. rewrite A6. apply append_assoc.
Qed.

(** X8.  A format without [{] and without backslash is written as it is,
    followed by a newline, and the engine is not asked anything. *)
Theorem plain_format_verbatim (op : ptr) (v : struct_option) (uh : CURLU)
        (fmt : string) (w : world) :
  deref op w = Ret v w ->
  o_format v = Some fmt ->
  plain fmt = true ->
  get op uh w = Ret tt (with_out (w_out w ++ fmt ++ nl) w).
Proof.
  intros Hd Hf Hp. unfold get, bind. rewrite Hd, Hf.
  rewrite get_loop_plain by (lia || assumption).
  unfold fputs, modify. cbn. rewrite append_assoc. reflexivity.
Qed.

End MoreFormat.

(** X6 at the reference [{:host}] before the text [/x]. *)
Lemma reference_step_witness :
  let uh := Toy.put CURLUPART_HOST (Some "example.com") Toy.empty in
  strchr ":host" "}"%char = None
  /\ at_ ":host" 0 <> "{"%char
  /\ get_loop (E:=Toy.engine) 9 uh "{:host}/x" w0
     = (get_part (E:=Toy.engine) uh "host" CURLUPART_HOST false ;;;
        get_loop (E:=Toy.engine) 8 uh "/x") w0.
Proof.
  intros uh.
  assert (H1 : strchr ":host" "}"%char = None) by reflexivity.
  assert (H2 : at_ ":host" 0 <> "{"%char) by discriminate.
  split; [exact H1|]. split; [exact H2|].
  exact (reference_step (E:=Toy.engine) uh 8 ":host" "/x" w0 H1 H2).
Defined.

(** X7 at a format that ends inside a reference. *)
Lemma get_always_returns_witness :
  let w := format_world "{host}{pa" in
  let uh := Toy.put CURLUPART_HOST (Some "example.com") Toy.empty in
  deref (Some 0%nat) w = Ret (set_o_format (Some "{host}{pa") zero_option) w
  /\ exists w' s,
       get (E:=Toy.engine) (Some 0%nat) uh w = Ret tt w' /\
       only_output w w' /\ w_out w' = w_out w ++ s ++ nl.
Proof.
  intros w uh.
  assert (H1 : deref (Some 0%nat) w
               = Ret (set_o_format (Some "{host}{pa") zero_option) w)
    by reflexivity.
  split; [exact H1|].
  exact (get_always_returns (E:=Toy.engine) (Some 0%nat) _ uh w H1).
Defined.

(** X8 at a format with spaces and a closing brace. *)
Lemma plain_format_verbatim_witness :
  let w := format_world "no } reference" in
  deref (Some 0%nat) w = Ret (set_o_format (Some "no } reference") zero_option) w
  /\ o_format (set_o_format (Some "no } reference") zero_option)
     = Some "no } reference"
  /\ plain "no } reference" = true
  /\ get (E:=Toy.engine) (Some 0%nat) Toy.empty w
     = Ret tt (with_out (w_out w ++ "no } reference" ++ nl) w).
Proof.
  intros w.
  assert (H1 : deref (Some 0%nat) w
               = Ret (set_o_format (Some "no } reference") zero_option) w)
    by reflexivity.
  assert (H2 : o_format (set_o_format (Some "no } reference") zero_option)
               = Some "no } reference") by reflexivity.
  assert (H3 : plain "no } reference" = true) by reflexivity.
  split; [exact H1|]. split; [exact H2|]. split; [exact H3|].
  exact (plain_format_verbatim (E:=Toy.engine) (Some 0%nat) _ Toy.empty
           "no } reference" w H1 H2 H3).
Defined.

(** ** More on the command line *)

Lemma code_zero (c : ascii) : code c = 0%Z -> c = zero.
Proof.
  intros H. apply code_inj. rewrite H. reflexivity.
Qed.

Lemma strncmp_eqb (n : nat) :
  forall a b : string,
    is_cstring a = true -> is_cstring b = true ->
    (String.length a < n)%nat ->
    is0 (strncmp a b n) = String.eqb a b.
Proof.
  induction n as [|n IH]; intros a b Ha Hb Hn; [lia|].
  destruct a as [|x a], b as [|y b]; cbn [strncmp String.eqb].
  - reflexivity.
  - cbn [is_cstring] in Hb. apply andb_prop in Hb. destruct Hb as [Hy _].
    apply negb_true_iff, Ascii.eqb_neq in Hy.
    unfold is0. apply Z.eqb_neq. intros H. apply Hy, code_zero. lia.
  - cbn [is_cstring] in Ha. apply andb_prop in Ha. destruct Ha as [Hx _].
    apply negb_true_iff, Ascii.eqb_neq in Hx.
    unfold is0. apply Z.eqb_neq. intros H. now apply Hx, code_zero.
  - cbn [is_cstring] in Ha, Hb.
    apply andb_prop in Ha. destruct Ha as [_ Ha].
    apply andb_prop in Hb. destruct Hb as [_ Hb].
    destruct (Ascii.eqb x y) eqn:Hxy.
    + apply IH; try assumption. cbn [String.length] in Hn. lia.
    + unfold is0. apply Z.eqb_neq. intros H. apply code_inj in H.
      subst. now rewrite Ascii.eqb_refl in Hxy.
Qed.

Lemma strcmp_eqb (a b : string) :
  is_cstring a = true -> is_cstring b = true ->
  is0 (strcmp a b) = String.eqb a b.
Proof.
  intros Ha Hb. unfold strcmp. apply strncmp_eqb; try assumption. lia.
Qed.

Lemma strcmp_unknown (flag x : string) :
  is_cstring flag = true -> is_cstring x = true ->
  ~ In flag known_flags -> In x known_flags ->
  is0 (strcmp x flag) = false.
Proof.
  intros Hf Hx Hn Hin. rewrite strcmp_eqb by assumption.
  apply String.eqb_neq. intros ->. contradiction.
Qed.

(** The comparisons of [getarg] with a flag that is known. *)
Ltac eval_flags :=
  repeat match goal with
         | |- context [is0 (strcmp ?a ?b)] =>
             let r := eval vm_compute in (is0 (strcmp a b)) in
             change (is0 (strcmp a b)) with r
         end.

Section MoreCommandLine.

Context {E : UrlEngine}.

Lemma getarg_unknown (op : ptr) (flag : string) (arg : option string)
      (w : world) :
  is_cstring flag = true ->
  ~ In flag known_flags ->
  getarg op flag arg w = Ret (1%Z, false) w.
Proof.
  intros Hc Hn.
  assert (H : forall x, In x known_flags -> is0 (strcmp x flag) = false).
  { intros x Hx. apply strcmp_unknown; try assumption.
    cbn in Hx. repeat (destruct Hx as [<- | Hx]; [reflexivity|]).
    contradiction. }
  unfold getarg, checkoptarg, orM.
  rewrite !H by (cbn; tauto).
  reflexivity.
Qed.

(** X9.  An argument that begins with [-] and is none of the flags the
    program knows ends it at once with the flag exit code and the message
    [unknown option], whatever follows on the command line and without a
    change to the configuration. *)
Theorem unknown_option_is_fatal (o : ptr) (flag : string) (rest : list string)
        (w : world) :
  is_cstring flag = true ->
  at_ flag 0 = "-"%char ->
  ~ In flag known_flags ->
  args_loop o (flag :: rest) w
  = Exit ERROR_FLAG
         (with_err (w_err w ++ errorf_text ("unknown option: " ++ flag)) w).
Proof.
  intros Hc Hd Hn. cbn [args_loop]. rewrite Hd. rewrite Ascii.eqb_refl.
  cbn [andb].
  replace (negb (Ascii.eqb (at_ flag 1) "-"%char) || Ascii.eqb (at_ flag 1) "-"%char)
    with true by (destruct (Ascii.eqb (at_ flag 1) "-"%char); reflexivity).
  unfold bind at 1. unfold bind at 1.
  rewrite getarg_unknown by assumption. reflexivity.
Qed.

(** X10.  A flag that takes an argument and is the last word of the command
    line ends the program with the argument exit code and the message
    [Missing argument for] the flag. *)
Theorem missing_argument_is_fatal (o : ptr) (flag : string) (w : world) :
  In flag argument_flags ->
  args_loop o [flag] w
  = Exit ERROR_ARG
         (with_err (w_err w ++ errorf_text ("Missing argument for " ++ flag)) w).
Proof.
  intros H. cbn in H.
  repeat (destruct H as [<- | H]; [reflexivity|]). contradiction.
Qed.

(** X11.  The flags that may be given once: with a format already set
    [--get] and [-g] end the program, with a redirect URL already set
    [--redirect] does, and with a URL file already open [--url-file] and
    [-f] do, before the file named is looked for; each time with the flag
    exit code, and each time only then. *)
Theorem exclusive_flags (o : ptr) (v : struct_option) (a : string) (w : world) :
  deref o w = Ret v w ->
  (forall flag, In flag ["-g"; "--get"] ->
     getarg o flag (Some a) w
     = match o_format v with
       | Some _ =>
           Exit ERROR_FLAG
                (with_err (w_err w ++ errorf_text "only one --get is supported") w)
       | None => (store o (set_o_format (Some a) v) ;;; ret (0%Z, true)) w
       end)
  /\ getarg o "--redirect" (Some a) w
     = match o_redirect v with
       | Some _ =>
           Exit ERROR_FLAG
                (with_err (w_err w ++ errorf_text "only one --redirect is supported") w)
       | None => (store o (set_o_redirect (Some a) v) ;;; ret (0%Z, true)) w
       end
  /\ (forall flag f, In flag ["-f"; "--url-file"] -> o_url v = Some f ->
        getarg o flag (Some a) w
        = Exit ERROR_FLAG
               (with_err (w_err w ++ errorf_text "only one --url-file is supported")
                         w)).
Proof.
  intros Hd. split; [|split].
  - intros flag Hf. cbn in Hf.
    destruct Hf as [<- | [<- | []]];
      (unfold getarg, checkoptarg, orM; eval_flags;
       cbv beta iota delta [bind ret the_arg orb when]; rewrite Hd;
       destruct (o_format v); [reflexivity|]; rewrite Hd; reflexivity).
  - unfold getarg, checkoptarg, orM; eval_flags.
    cbv beta iota delta [bind ret the_arg orb when]. rewrite Hd.
    destruct (o_redirect v); [reflexivity|]. rewrite Hd. reflexivity.
  - intros flag f Hf Hu. cbn in Hf.
    destruct Hf as [<- | [<- | []]];
      (unfold getarg, checkoptarg, orM; eval_flags;
       cbv beta iota delta [bind ret the_arg orb when urlfile];
       rewrite Hd, Hu; reflexivity).
Qed.

End MoreCommandLine.

(** X9 at an option the program does not know, an argument behind it. *)
Lemma unknown_option_is_fatal_witness :
  let w := format_world "{host}" in
  is_cstring "--sort" = true
  /\ at_ "--sort" 0 = "-"%char
  /\ ~ In "--sort" known_flags
  /\ args_loop (E:=Toy.engine) (Some 0%nat) ["--sort"; "query"] w
     = Exit ERROR_FLAG
            (with_err (w_err w ++ errorf_text ("unknown option: " ++ "--sort")) w).
Proof.
  intros w.
  assert (H1 : is_cstring "--sort" = true) by reflexivity.
  assert (H2 : at_ "--sort" 0 = "-"%char) by reflexivity.
  assert (H3 : ~ In "--sort" known_flags).
  { intros H. cbn in H.
    repeat (destruct H as [H | H]; [discriminate H|]). exact H. }
  split; [exact H1|]. split; [exact H2|]. split; [exact H3|].
  exact (unknown_option_is_fatal (E:=Toy.engine) (Some 0%nat) "--sort"
           ["query"] w H1 H2 H3).
Defined.

(** X10 at [--set] as the last word. *)
Lemma missing_argument_is_fatal_witness :
  In "--set" argument_flags
  /\ args_loop (E:=Toy.engine) (Some 0%nat) ["--set"] w0
     = Exit ERROR_ARG
            (with_err (w_err w0 ++ errorf_text ("Missing argument for " ++ "--set"))
                      w0).
Proof.
  assert (H1 : In "--set" argument_flags) by (cbn; tauto).
  split; [exact H1|].
  exact (missing_argument_is_fatal (E:=Toy.engine) (Some 0%nat) "--set" w0 H1).
Defined.

(** X11 at a second [--get]. *)
Lemma exclusive_flags_witness :
  let w := format_world "{host}" in
  deref (Some 0%nat) w = Ret (set_o_format (Some "{host}") zero_option) w
  /\ getarg (E:=Toy.engine) (Some 0%nat) "--get" (Some "{port}") w
     = Exit ERROR_FLAG
            (with_err (w_err w ++ errorf_text "only one --get is supported") w).
Proof.
  intros w.
  assert (H1 : deref (Some 0%nat) w
               = Ret (set_o_format (Some "{host}") zero_option) w)
    by reflexivity.
  split; [exact H1|].
  exact (proj1 (exclusive_flags (E:=Toy.engine) (Some 0%nat) _ "{port}" w H1)
               "--get" (or_intror (or_introl eq_refl))).
Defined.

(** ** More on [--iterate] *)

Lemma bind_ext {A B} (m : M A) (k1 k2 : A -> M B) (w : world) :
  (forall a w', k1 a w' = k2 a w') -> bind m k1 w = bind m k2 w.
Proof.
  intros H. unfold bind. destruct (m w); auto.
Qed.

Lemma string_snoc (s : string) :
  s <> "" -> exists s1 c, s = s1 ++ String c "".
Proof.
  induction s as [|x s IH]; intros H; [congruence|].
  destruct s as [|y s].
  - exists "", x. reflexivity.
  - destruct IH as (s1 & c & Hs); [congruence|].
    exists (String x s1), c. cbn. now rewrite <- Hs.
Qed.

Lemma no_space_app (a b : string) :
  no_space (a ++ b) = no_space a && no_space b.
Proof.
  induction a as [|x a IH]; cbn; [reflexivity|].
  rewrite IH. now rewrite andb_assoc.
Qed.

Lemma leb_longer (s : string) (n : nat) :
  (0 < String.length s)%nat -> (String.length s + n <=? n)%nat = false.
Proof.
  intros H. apply Nat.leb_gt. lia.
Qed.

Section MoreIteration.

Variable op : ptr.

(** The bytes of a value that are neither its last nor a space only move
    the cursor. *)
Lemma iterate_loop_skip (arg : string) (off : nat) (s1 : string) (c : ascii)
      (s2 : string) (tok : nat) (buf : string) (no : ptr) :
  forall (pos : nat) (w : world),
    no_space s1 = true ->
    iterate_loop op arg off (s1 ++ String c s2) pos tok buf no w
    = iterate_loop op arg off (String c s2) (pos + String.length s1) tok buf no w.
Proof.
  induction s1 as [|x s1 IH]; intros pos w Hs.
  - cbn [append String.length]. now rewrite Nat.add_0_r.
  - cbn [no_space] in Hs. apply andb_prop in Hs. destruct Hs as [Hx Hs].
    apply negb_true_iff in Hx.
    cbn [append String.length].
    replace (pos + S (String.length s1))%nat with (S pos + String.length s1)%nat
      by lia.
    rewrite <- IH by assumption.
    cbn [iterate_loop]. rewrite Hx.
    destruct s1; reflexivity.
Qed.

Lemma iterate_loop_last (arg : string) (off : nat) (c : ascii) (pos tok : nat)
      (buf : string) (no : ptr) (w : world) :
  Ascii.eqb c " "%char = false ->
  iterate_loop op arg off (String c "") pos tok buf no w
  = (b <- buffer_put buf (off - 1) (drop tok arg) (pos - tok + 1) ;;
     setadd no b) w.
Proof.
  intros Hc. cbn [iterate_loop]. rewrite Hc.
  unfold buffer_put. destruct (off - 1 + (pos - tok + 1) <? 4096)%nat.
  - cbn [bind ret]. unfold bind at 1 2.
    destruct (setadd no _ w) as [[] w'| | |]; reflexivity.
  - reflexivity.
Qed.

Lemma iterate_loop_single (arg : string) (off : nat) (buf tok : string)
      (no : ptr) (w : world) :
  tok <> "" -> no_space tok = true ->
  drop off arg = tok ->
  (off - 1 + String.length tok < 4096)%nat ->
  iterate_loop op arg off tok off off buf no w
  = setadd no (take (off - 1) buf ++ tok) w.
Proof.
  intros Hne Hs Hd Hlen.
  destruct (string_snoc tok Hne) as (s1 & c & Ht).
  rewrite Ht at 1.
  rewrite Ht, no_space_app in Hs. apply andb_prop in Hs.
  destruct Hs as [Hs1 Hc]. cbn [no_space] in Hc. rewrite andb_true_r in Hc.
  apply negb_true_iff in Hc.
  rewrite iterate_loop_skip by assumption.
  rewrite iterate_loop_last by assumption.
  assert (Hn : (off + String.length s1 - off + 1 = String.length tok)%nat).
  { rewrite Ht. rewrite length_append. cbn. lia. }
  rewrite Hn, Hd. unfold buffer_put.
  replace (off - 1 + String.length tok <? 4096)%nat with true
    by (symmetry; apply Nat.ltb_lt; assumption).
  cbn [bind ret]. now rewrite (take_all (String.length tok) tok) by lia.
Qed.

Lemma iterate_loop_overrun (arg : string) (off : nat) (buf tok rest : string)
      (no : ptr) (w : world) :
  no_space tok = true ->
  drop off arg = tok ++ rest ->
  rest = "" \/ at_ rest 0 = " "%char ->
  (off <= 8)%nat ->
  (4096 <= off - 1 + String.length tok)%nat ->
  iterate_loop op arg off (tok ++ rest) off off buf no w = Fault w.
Proof.
  intros Hs Hd Hr Hoff Hlen.
  assert (Hover : forall n, n = String.length tok ->
            buffer_put buf (off - 1) (drop off arg) n w = Fault w).
  { intros n ->. unfold buffer_put.
    replace (off - 1 + String.length tok <? 4096)%nat with false
      by (symmetry; apply Nat.ltb_ge; assumption).
    reflexivity. }
  destruct Hr as [-> | Hr].
  - rewrite append_nil_r.
    assert (Hne : tok <> "") by (intros ->; cbn in Hlen; lia).
    destruct (string_snoc tok Hne) as (s1 & c & Ht).
    rewrite Ht at 1.
    rewrite Ht, no_space_app in Hs. apply andb_prop in Hs.
    destruct Hs as [Hs1 Hc]. cbn [no_space] in Hc. rewrite andb_true_r in Hc.
    apply negb_true_iff in Hc.
    rewrite iterate_loop_skip by assumption.
    rewrite iterate_loop_last by assumption.
    apply bind_Fault. apply Hover.
    rewrite Ht, length_append. cbn. lia.
  - destruct rest as [|c r]; [discriminate|].
    unfold at_ in Hr. cbn in Hr. subst c.
    rewrite iterate_loop_skip by assumption.
    cbn [iterate_loop]. cbn [Ascii.eqb Bool.eqb].
    apply bind_Fault. apply bind_Fault. apply Hover. lia.
Qed.

(** The directive is only read from the first value on. *)
Lemma iterate_loop_arg (arg1 arg2 : string) (off : nat) :
  (forall k, (off <= k)%nat -> drop k arg1 = drop k arg2) ->
  forall (rest : string) (pos tok : nat) (buf : string) (no : ptr) (w : world),
    (off <= tok)%nat -> (tok <= pos)%nat ->
    iterate_loop op arg1 off rest pos tok buf no w
    = iterate_loop op arg2 off rest pos tok buf no w.
Proof.
  intros Harg. induction rest as [|c rest IH]; intros pos tok buf no w Ho Ht.
  - reflexivity.
  - cbn [iterate_loop]. rewrite (Harg tok Ho).
    destruct (Ascii.eqb c " "%char).
    + unfold buffer_put.
      destruct (off - 1 + (pos - tok) <? 4096)%nat; [|reflexivity].
      cbn [bind ret]. apply bind_ext. intros a w'. apply IH; lia.
    + destruct rest as [|c' rest].
      * unfold buffer_put.
        destruct (off - 1 + (pos - tok + 1) <? 4096)%nat; [|reflexivity].
        cbn [bind ret]. apply bind_ext. intros a w'. apply IH; lia.
      * cbn [bind ret]. apply IH; lia.
Qed.

(** X12.  An iteration directive with one value, not too long for the
    buffer, does what [--set] does with the singular component: the
    directive is added to the set list of every variant there is, and no
    variant is added. *)
Theorem single_value_is_set (name buffer tok : string) (w : world) :
  In (name, buffer) iterators ->
  tok <> "" -> no_space tok = true ->
  (String.length buffer + String.length tok < 4096)%nat ->
  iterate op (name ++ tok) w = (setadd op (buffer ++ tok) ;;; ret 0%Z) w.
Proof.
  intros Hin Hne Hs Hlen.
  assert (Hpos : (0 < String.length tok)%nat)
    by (destruct tok; [congruence | cbn; lia]).
  cbn in Hin. destruct Hin as [Hi | [Hi | [Hi | []]]]; inversion Hi; subst;
    unfold iterate.
  - change (is0 (strncmp "hosts=" ("hosts=" ++ tok) 5)) with true.
    cbv beta iota. rewrite length_append, Nat.add_comm.
    change (String.length "hosts=") with 6%nat. 
    change (5 + 1)%nat with 6%nat. rewrite leb_longer by assumption.
    change (drop 6 ("hosts=" ++ tok)) with tok.
    cbn [Nat.eqb orb when]. cbn [bind ret].
    unfold bind at 1.
    rewrite iterate_loop_single; try assumption; reflexivity.
  - change (is0 (strncmp "hosts=" ("ports=" ++ tok) 5)) with false.
    change (is0 (strncmp "ports=" ("ports=" ++ tok) 6)) with true.
    cbv beta iota. rewrite length_append, Nat.add_comm.
    change (String.length "ports=") with 6%nat. 
    change (5 + 1)%nat with 6%nat. rewrite leb_longer by assumption.
    change (drop 6 ("ports=" ++ tok)) with tok.
    cbn [Nat.eqb orb when]. cbn [bind ret].
    unfold bind at 1.
    rewrite iterate_loop_single; try assumption; reflexivity.
  - change (is0 (strncmp "hosts=" ("schemes=" ++ tok) 5)) with false.
    change (is0 (strncmp "ports=" ("schemes=" ++ tok) 6)) with false.
    change (is0 (strncmp "schemes=" ("schemes=" ++ tok) 8)) with true.
    cbv beta iota. rewrite length_append, Nat.add_comm.
    change (String.length "schemes=") with 8%nat. 
    change (7 + 1)%nat with 8%nat. rewrite leb_longer by assumption.
    change (drop 8 ("schemes=" ++ tok)) with tok.
    cbn [Nat.eqb orb when]. cbn [bind ret].
    unfold bind at 1.
    rewrite iterate_loop_single; try assumption; reflexivity.
Qed.

(** X13.  The values are copied into a buffer of 4096 bytes behind the
    beginning of the set directive without a check of their length: a
    first value too long for it is written past the end of the buffer. *)
Theorem long_value_overruns_buffer (name buffer tok rest : string) (w : world) :
  In (name, buffer) iterators ->
  no_space tok = true ->
  rest = "" \/ at_ rest 0 = " "%char ->
  (4096 <= String.length buffer + String.length tok)%nat ->
  iterate op (name ++ tok ++ rest) w = Fault w.
Proof.
  intros Hin Hs Hr Hlen.
  assert (Hpos : (0 < String.length (tok ++ rest))%nat)
    by (rewrite length_append; destruct Hin as [Hi | [Hi | [Hi | []]]];
        inversion Hi; subst; cbn in Hlen; lia).
  cbn in Hin. destruct Hin as [Hi | [Hi | [Hi | []]]]; inversion Hi; subst;
    unfold iterate.
  - change (is0 (strncmp "hosts=" ("hosts=" ++ tok ++ rest) 5)) with true.
    cbv beta iota. rewrite length_append, Nat.add_comm.
    change (String.length "hosts=") with 6%nat. 
    change (5 + 1)%nat with 6%nat. rewrite leb_longer by assumption.
    change (drop 6 ("hosts=" ++ tok ++ rest)) with (tok ++ rest).
    cbn [Nat.eqb orb when]. cbn [bind ret].
    apply bind_Fault. apply iterate_loop_overrun; try assumption;
      try reflexivity; lia.
  - change (is0 (strncmp "hosts=" ("ports=" ++ tok ++ rest) 5)) with false.
    change (is0 (strncmp "ports=" ("ports=" ++ tok ++ rest) 6)) with true.
    cbv beta iota. rewrite length_append, Nat.add_comm.
    change (String.length "ports=") with 6%nat. 
    change (5 + 1)%nat with 6%nat. rewrite leb_longer by assumption.
    change (drop 6 ("ports=" ++ tok ++ rest)) with (tok ++ rest).
    cbn [Nat.eqb orb when]. cbn [bind ret].
    apply bind_Fault. apply iterate_loop_overrun; try assumption;
      try reflexivity; lia.
  - change (is0 (strncmp "hosts=" ("schemes=" ++ tok ++ rest) 5)) with false.
    change (is0 (strncmp "ports=" ("schemes=" ++ tok ++ rest) 6)) with false.
    change (is0 (strncmp "schemes=" ("schemes=" ++ tok ++ rest) 8)) with true.
    cbv beta iota. rewrite length_append, Nat.add_comm.
    change (String.length "schemes=") with 8%nat. 
    change (7 + 1)%nat with 8%nat. rewrite leb_longer by assumption.
    change (drop 8 ("schemes=" ++ tok ++ rest)) with (tok ++ rest).
    cbn [Nat.eqb orb when]. cbn [bind ret].
    apply bind_Fault. apply iterate_loop_overrun; try assumption;
      try reflexivity; lia.
Qed.

(** X14.  Of [hosts=] only the five bytes of [hosts] are compared: the
    byte that follows is never looked at, and a directive with any other
    byte in the place of [=] does the same as the one with [=]. *)
Theorem separator_is_not_inspected (c : ascii) (values : string) (w : world) :
  values <> "" ->
  iterate op ("hosts" ++ String c values) w = iterate op ("hosts=" ++ values) w.
Proof.
  intros Hne. unfold iterate.
  change (is0 (strncmp "hosts=" ("hosts" ++ String c values) 5)) with true.
  change (is0 (strncmp "hosts=" ("hosts=" ++ values) 5)) with true.
  cbv beta iota.
  change (String.length ("hosts" ++ String c values))
    with (String.length ("hosts=" ++ values)).
  change (drop (5 + 1) ("hosts" ++ String c values)) with values.
  change (drop (5 + 1) ("hosts=" ++ values)) with values.
  rewrite length_append, Nat.add_comm.
  change (String.length "hosts=") with 6%nat.
  change (5 + 1)%nat with 6%nat.
  rewrite leb_longer by (destruct values; [congruence | cbn; lia]).
  cbn [Nat.eqb orb when]. cbn [bind ret]. unfold bind.
  rewrite (iterate_loop_arg ("hosts" ++ String c values) ("hosts=" ++ values));
    [reflexivity | | lia | lia].
  intros k Hk.
  replace k with (6 + (k - 6))%nat by lia.
  now rewrite !drop_drop.
Qed.

End MoreIteration.

(** X12 at one host. *)
Lemma single_value_is_set_witness :
  let w := format_world "{host}" in
  In ("hosts=", "host=") iterators
  /\ "example.org" <> ""
  /\ no_space "example.org" = true
  /\ (String.length "host=" + String.length "example.org" < 4096)%nat
  /\ iterate (Some 0%nat) ("hosts=" ++ "example.org") w
     = (setadd (Some 0%nat) ("host=" ++ "example.org") ;;; ret 0%Z) w.
Proof.
  intros w.
  assert (H1 : In ("hosts=", "host=") iterators) by (left; reflexivity).
  assert (H2 : "example.org" <> "") by discriminate.
  assert (H3 : no_space "example.org" = true) by reflexivity.
  assert (H4 : (String.length "host=" + String.length "example.org" < 4096)%nat)
    by (apply Nat.ltb_lt; vm_compute; reflexivity).
  split; [exact H1|]. split; [exact H2|]. split; [exact H3|].
  split; [exact H4|].
  exact (single_value_is_set (Some 0%nat) "hosts=" "host=" "example.org" w
           H1 H2 H3 H4).
Defined.

(** X13 at a host of 4091 bytes, the shortest that does not fit. *)
Lemma long_value_overruns_buffer_witness :
  let w := format_world "{host}" in
  In ("hosts=", "host=") iterators
  /\ no_space long_value = true
  /\ ("" = "" \/ at_ "" 0 = " "%char)
  /\ (4096 <= String.length "host=" + String.length long_value)%nat
  /\ iterate (Some 0%nat) ("hosts=" ++ long_value ++ "") w = Fault w.
Proof.
  intros w.
  assert (H1 : In ("hosts=", "host=") iterators) by (left; reflexivity).
  assert (H2 : no_space long_value = true) by (vm_compute; reflexivity).
  assert (H3 : "" = "" \/ at_ "" 0 = " "%char) by (left; reflexivity).
  assert (H4 : (4096 <= String.length "host=" + String.length long_value)%nat)
    by (apply Nat.leb_le; vm_compute; reflexivity).
  split; [exact H1|]. split; [exact H2|]. split; [exact H3|].
  split; [exact H4|].
  exact (long_value_overruns_buffer (Some 0%nat) "hosts=" "host=" long_value ""
           w H1 H2 H3 H4).
Defined.

(** X14 with a colon in the place of [=]. *)
Lemma separator_is_not_inspected_witness :
  let w := format_world "{host}" in
  "a b" <> ""
  /\ iterate (Some 0%nat) ("hosts" ++ String ":"%char "a b") w
     = iterate (Some 0%nat) ("hosts=" ++ "a b") w.
Proof.
  intros w.
  assert (H1 : "a b" <> "") by discriminate.
  split; [exact H1|].
  exact (separator_is_not_inspected (Some 0%nat) ":"%char "a b" w H1).
Defined.

(** ** More on the set phase *)

Section MoreSet.

Context {E : UrlEngine}.

Lemma set_loop_app (a : nat) (good : list string) :
  forall (uh : CURLU) (varset : list bool) (rest : list string) (w : world),
    Forall (fun d => parse_directive d <> None) good ->
    exists varset',
      set_loop uh (Some a) varset (good ++ rest)%list w
      = set_loop (fold_left apply_directive good uh) (Some a) varset' rest w.
Proof.
  induction good as [|d ds IH]; intros uh varset rest w Hok.
  - exists varset. reflexivity.
  - inversion Hok as [|? ? Hd Hds]; subst.
    destruct (parse_directive_some d Hd) as (p & part & Heq & Hlook & Hparse).
    cbn [set_loop fold_left app]. rewrite Heq. unfold bind at 1.
    pose proof (strchr_bound _ _ _ Heq) as Hb.
    set (vlen := if negb (Ascii.eqb (at_ d p) ":"%char) then S p else p).
    destruct (set_vars_run uh a d (S p) vlen
                (negb (Ascii.eqb (at_ d p) ":"%char)) variables 0
                varset w) as (varset' & Hrun).
    { unfold vlen. destruct (negb _); lia. }
    rewrite Hrun.
    assert (Hv : vlen = if Ascii.eqb (at_ d p) ":"%char then p else S p).
    { unfold vlen. destruct (Ascii.eqb (at_ d p) ":"%char); reflexivity. }
    rewrite Hv. unfold lookup_component in Hlook.
    destruct (find _ variables) as [[name part']|]; [|discriminate].
    cbn in Hlook. inversion Hlook; subst part'.
    assert (Ha : apply_directive uh d
                 = fst (curl_url_set uh part (set_value d (S p))
                          (set_flags (negb (Ascii.eqb (at_ d p) ":"%char))))).
    { unfold apply_directive. rewrite Hparse. reflexivity. }
    rewrite Ha. apply IH. assumption.
Qed.

Lemma set_loop_bad (a : nat) (uh : CURLU) (varset : list bool) (bad : string)
      (rest : list string) (w : world) :
  parse_directive bad = None ->
  set_loop uh (Some a) varset (bad :: rest) w
  = Exit ERROR_SET (with_err (w_err w ++ errorf_text (set_error bad)) w).
Proof.
  intros Hbad. cbn [set_loop]. unfold set_error.
  unfold parse_directive in Hbad.
  destruct (strchr bad "="%char) as [[|p]|] eqn:Heq; try reflexivity.
  pose proof (strchr_bound _ _ _ Heq) as Hb.
  set (vlen := if negb (Ascii.eqb (at_ bad p) ":"%char) then S p else p).
  destruct (set_vars_run uh a bad (S p) vlen
              (negb (Ascii.eqb (at_ bad p) ":"%char)) variables 0
              varset w) as (varset' & Hrun).
  { unfold vlen. destruct (negb _); lia. }
  unfold bind at 1. rewrite Hrun.
  assert (Hv : vlen = if Ascii.eqb (at_ bad p) ":"%char then p else S p).
  { unfold vlen. destruct (Ascii.eqb (at_ bad p) ":"%char); reflexivity. }
  rewrite Hv. unfold lookup_component in Hbad.
  destruct (find _ variables) as [[name part']|]; [discriminate|].
  reflexivity.
Qed.

(** X15.  [set] ends the program at the first directive of the set list
    that is no [component=value] for a known component, whatever follows
    it: with the set exit code and the message for that directive,
    [invalid --set syntax] when it has no [=] or begins with it and
    [Set unknown component] otherwise. *)
Theorem set_stops_at_first_bad_directive (uh : CURLU) (o : ptr)
        (v : struct_option) (w : world) (good : list string) (bad : string)
        (rest : list string) :
  deref o w = Ret v w ->
  slist_data w (o_set_list v) = (good ++ bad :: rest)%list ->
  Forall (fun d => parse_directive d <> None) good ->
  parse_directive bad = None ->
  set uh o w
  = Exit ERROR_SET (with_err (w_err w ++ errorf_text (set_error bad)) w).
Proof.
  intros Hd Hl Hgood Hbad.
  assert (Ho : exists a, o = Some a).
  { destruct o as [a|]; [now exists a | discriminate]. }
  destruct Ho as (a & ->).
  unfold set, bind, gets. rewrite Hd, Hl.
  destruct (set_loop_app a good uh (repeat false NUM_COMPONENTS) (bad :: rest)
              w Hgood) as (varset' & ->).
  now apply set_loop_bad.
Qed.

End MoreSet.

(** ** More on [singleurl] and on the command line *)

Lemma nth_update {A} (l : list A) (i : nat) (x d : A) :
  (i < List.length l)%nat -> nth i (update i x l) d = x.
Proof.
  revert i; induction l as [|y l IH]; intros [|i] H; simpl in *; try lia.
  - reflexivity.
  - apply IH. lia.
Qed.

Lemma length_update {A} (l : list A) (i : nat) (x : A) :
  List.length (update i x l) = List.length l.
Proof.
  revert i; induction l as [|y l IH]; intros [|i]; simpl; auto.
Qed.

Lemma urladd_run (a : nat) (v : struct_option) (u : string) (w : world) :
  nth_error (w_opts w) a = Some v ->
  slist_ok w (o_url_list v) ->
  exists w' p,
    urladd (Some a) u w = Ret tt w' /\
    nth_error (w_opts w') a = Some (set_o_url_list p v) /\
    slist_ok w' p /\
    slist_data w' p = (slist_data w (o_url_list v) ++ [u])%list /\
    w_out w' = w_out w /\ w_err w' = w_err w.
Proof.
  intros Hv Hok.
  assert (Ha : (a < List.length (w_opts w))%nat)
    by (apply nth_error_Some; congruence).
  unfold urladd. erewrite bind_Ret; [|apply deref_run; exact Hv].
  destruct (o_url_list v) as [q|] eqn:Hq; cbn [slist_ok] in Hok.
  - erewrite bind_Ret; [|reflexivity]. cbv beta iota.
    erewrite bind_Ret; [|apply deref_run; exact Hv].
    unfold store. cbn [w_opts with_slists].
    replace (a <? List.length (w_opts w))%nat with true
      by (symmetry; now apply Nat.ltb_lt).
    eexists. exists (Some q). split; [reflexivity|].
    cbn [w_opts with_opts with_slists w_slists w_out w_err slist_ok slist_data].
    rewrite nth_error_update by assumption.
    rewrite length_update, nth_update by assumption.
    cbn [slist_data]. auto.
  - erewrite bind_Ret; [|reflexivity]. cbv beta iota.
    erewrite bind_Ret; [|apply deref_run; exact Hv].
    unfold store. cbn [w_opts with_slists].
    replace (a <? List.length (w_opts w))%nat with true
      by (symmetry; now apply Nat.ltb_lt).
    eexists. exists (Some (List.length (w_slists w))). split; [reflexivity|].
    cbn [w_opts with_opts with_slists w_slists w_out w_err slist_ok slist_data].
    rewrite nth_error_update by assumption.
    rewrite length_app, app_nth2, Nat.sub_diag by lia.
    cbn. repeat split; try reflexivity. lia.
Qed.

Lemma bind_Exit {A B} (m : M A) (k : A -> M B) (w w' : world) (c : Z) :
  m w = Exit c w' -> bind m k w = Exit c w'.
Proof. intros H. unfold bind. now rewrite H. Qed.

Section MoreMain.

Context {E : UrlEngine}.

(** X16.  Arguments that do not begin with [-] are URLs: [main] queues
    them behind those already in the URL list, in the order of the command
    line, and writes nothing while it does. *)
Theorem positional_urls_in_order (a : nat) (urls : list string) :
  forall (v : struct_option) (w : world),
    Forall (fun u => at_ u 0 <> "-"%char) urls ->
    nth_error (w_opts w) a = Some v ->
    slist_ok w (o_url_list v) ->
    exists w' p,
      args_loop (Some a) urls w = Ret tt w' /\
      nth_error (w_opts w') a = Some (set_o_url_list p v) /\
      slist_data w' p = (slist_data w (o_url_list v) ++ urls)%list /\
      w_out w' = w_out w /\ w_err w' = w_err w.
Proof.
  induction urls as [|u urls IH]; intros v w Hall Hv Hok.
  - exists w, (o_url_list v). split; [reflexivity|].
    rewrite app_nil_r. destruct v; auto.
  - inversion Hall as [|? ? Hu Hrest]; subst.
    apply Ascii.eqb_neq in Hu.
    destruct (urladd_run a v u w Hv Hok)
      as (w1 & p1 & Hrun & Hv1 & Hok1 & Hdata1 & Hout1 & Herr1).
    destruct (IH (set_o_url_list p1 v) w1 Hrest Hv1 Hok1)
      as (w2 & p2 & Hloop & Hv2 & Hdata2 & Hout2 & Herr2).
    exists w2, p2. split.
    + cbn [args_loop]. rewrite Hu. cbn [andb orb].
      erewrite bind_Ret; [|erewrite bind_Ret; [reflexivity | exact Hrun]].
      exact Hloop.
    + split; [exact Hv2|]. split.
      * rewrite Hdata2. cbn [o_url_list set_o_url_list]. rewrite Hdata1.
        now rewrite <- app_assoc.
      * split; congruence.
Qed.

(** X17.  A URL the engine does not accept is passed over: nothing is
    written to [stdout] and the counter of the variant stays as it is.
    Without [--verify] the engine's message goes to [stderr] as a warning
    and the run goes on; with it the program ends with the exit code for a
    bad URL. *)
Theorem rejected_url (o : ptr) (v : struct_option) (uh : CURLU) (u : string)
        (w : world) :
  curl_url = Some uh ->
  deref o w = Ret v w ->
  is_ok (snd (curl_url_set uh CURLUPART_URL (Some u)
                (parse_flags (o_accept_space v)))) = false ->
  let msg := curl_url_strerror
               (snd (curl_url_set uh CURLUPART_URL (Some u)
                       (parse_flags (o_accept_space v))))
             ++ " [" ++ u ++ "]" in
  singleurl o (Some u) w
  = if o_verify v
    then Exit ERROR_BADURL (with_err (w_err w ++ errorf_text msg) w)
    else Ret tt (with_err (w_err w ++ warnf_text msg) w).
Proof.
  intros Hu Hd Hrc msg. unfold singleurl. rewrite Hu.
  unfold bind at 1. rewrite Hd.
  unfold msg, parse_flags in *.
  destruct (curl_url_set uh CURLUPART_URL (Some u) _) as [uh' rc].
  cbn [snd] in *. rewrite Hrc. cbn [negb].
  destruct (o_verify v); reflexivity.
Qed.

Lemma help_loop_run (vars : list (string * CURLUPart)) :
  forall (i : nat) (w : world),
    help_loop i vars w = Ret tt (with_err (w_err w ++ names_text i vars) w).
Proof.
  induction vars as [|[name part] vars IH]; intros i w.
  - cbn [help_loop names_text]. rewrite append_nil_r. now destruct w.
  - cbn [help_loop names_text]. unfold bind, eputs, modify.
    rewrite IH. cbn [w_err with_err]. rewrite !append_assoc. reflexivity.
Qed.

(** X18.  The version and the help flags end the program as soon as they
    are met, whatever follows them on the command line: the version goes
    to [stdout] with exit code 0, the help to [stderr] with exit code 1,
    and the help ends with the names of the components, separated by
    commas. *)
Theorem version_and_help_end_the_run (o : ptr) (flag : string)
        (rest : list string) (w : world) :
  (In flag ["-v"; "--version"] ->
   args_loop o (flag :: rest) w
   = Exit 0 (with_out (w_out w ++ PROGNAME ++ " version " ++ TRURL_VERSION_TXT
                       ++ " libcurl/" ++ curl_version ++ nl) w))
  /\ (In flag ["-h"; "--help"] ->
      args_loop o (flag :: rest) w
      = Exit 1 (with_err (w_err w ++ help_text ++ names_text 0 variables ++ nl)
                         w)).
Proof.
  assert (Hh : forall A, @help A w
               = Exit 1 (with_err (w_err w ++ help_text
                                   ++ names_text 0 variables ++ nl) w)).
  { intros A. unfold help, bind, eputs at 1, modify.
    rewrite help_loop_run. unfold eputs, modify, exit.
    cbn [w_err with_err]. rewrite !append_assoc. reflexivity. }
  split; intros H; cbn in H.
  - destruct H as [<- | [<- | []]]; reflexivity.
  - destruct H as [<- | [<- | []]];
      (cbn [args_loop]; apply bind_Exit; apply bind_Exit; apply Hh).
Qed.

End MoreMain.

(** X15 at a set list whose second directive has no [=]. *)
Lemma set_stops_at_first_bad_directive_witness :
  let w := set_world ["host=a"; "nonsense"; "port=1"] in
  deref (Some 0%nat) w = Ret (set_o_set_list (Some 0%nat) zero_option) w
  /\ slist_data w (Some 0%nat) = (["host=a"] ++ "nonsense" :: ["port=1"])%list
  /\ Forall (fun d => parse_directive d <> None) ["host=a"]
  /\ parse_directive "nonsense" = None
  /\ set (E:=Toy.engine) Toy.empty (Some 0%nat) w
     = Exit ERROR_SET
            (with_err (w_err w
                       ++ errorf_text ("invalid --set syntax: " ++ "nonsense")) w).
Proof.
  intros w.
  assert (H1 : deref (Some 0%nat) w
               = Ret (set_o_set_list (Some 0%nat) zero_option) w)
    by reflexivity.
  assert (H2 : slist_data w (o_set_list (set_o_set_list (Some 0%nat) zero_option))
               = (["host=a"] ++ "nonsense" :: ["port=1"])%list) by reflexivity.
  assert (H3 : Forall (fun d => parse_directive d <> None) ["host=a"])
    by (repeat constructor; discriminate).
  assert (H4 : parse_directive "nonsense" = None) by reflexivity.
  split; [exact H1|]. split; [exact H2|]. split; [exact H3|].
  split; [exact H4|].
  exact (set_stops_at_first_bad_directive (E:=Toy.engine) Toy.empty
           (Some 0%nat) _ w ["host=a"] "nonsense" ["port=1"] H1 H2 H3 H4).
Defined.

(** X16 at two URLs. *)
Lemma positional_urls_in_order_witness :
  let w := format_world "{host}" in
  let v := set_o_format (Some "{host}") zero_option in
  Forall (fun u => at_ u 0 <> "-"%char) ["a.example"; "b.example"]
  /\ nth_error (w_opts w) 0 = Some v
  /\ slist_ok w (o_url_list v)
  /\ exists w' p,
       args_loop (E:=Toy.engine) (Some 0%nat) ["a.example"; "b.example"] w
       = Ret tt w' /\
       nth_error (w_opts w') 0 = Some (set_o_url_list p v) /\
       slist_data w' p
       = (slist_data w (o_url_list v) ++ ["a.example"; "b.example"])%list /\
       w_out w' = w_out w /\ w_err w' = w_err w.
Proof.
  intros w v.
  assert (H1 : Forall (fun u => at_ u 0 <> "-"%char) ["a.example"; "b.example"])
    by (repeat constructor; discriminate).
  assert (H2 : nth_error (w_opts w) 0 = Some v) by reflexivity.
  assert (H3 : slist_ok w (o_url_list v)) by exact I.
  split; [exact H1|]. split; [exact H2|]. split; [exact H3|].
  exact (positional_urls_in_order (E:=Toy.engine) 0 ["a.example"; "b.example"]
           v w H1 H2 H3).
Defined.

(** X17 at a URL with a space, which the small engine does not accept. *)
Lemma rejected_url_witness :
  let w := format_world "{host}" in
  let v := set_o_format (Some "{host}") zero_option in
  curl_url (UrlEngine:=Toy.engine) = Some Toy.empty
  /\ deref (Some 0%nat) w = Ret v w
  /\ is_ok (snd (curl_url_set (UrlEngine:=Toy.engine) Toy.empty CURLUPART_URL
                   (Some "bad url") (parse_flags (o_accept_space v)))) = false
  /\ singleurl (E:=Toy.engine) (Some 0%nat) (Some "bad url") w
     = Ret tt (with_err (w_err w
                         ++ warnf_text ("Malformed input to a URL function"
                                        ++ " [" ++ "bad url" ++ "]")) w).
Proof.
  intros w v.
  assert (H1 : curl_url (UrlEngine:=Toy.engine) = Some Toy.empty) by reflexivity.
  assert (H2 : deref (Some 0%nat) w = Ret v w) by reflexivity.
  assert (H3 : is_ok (snd (curl_url_set (UrlEngine:=Toy.engine) Toy.empty
                             CURLUPART_URL (Some "bad url")
                             (parse_flags (o_accept_space v)))) = false)
    by reflexivity.
  split; [exact H1|]. split; [exact H2|]. split; [exact H3|].
  exact (rejected_url (E:=Toy.engine) (Some 0%nat) v Toy.empty "bad url" w
           H1 H2 H3).
Defined.

(** X18 at [-v] before an option that does not exist. *)
Lemma version_and_help_end_the_run_witness :
  In "-v" ["-v"; "--version"]
  /\ args_loop (E:=Toy.engine) (Some 0%nat) ["-v"; "--sort"] w0
     = Exit 0 (with_out (w_out w0 ++ "trurl version 0.2 libcurl/8.0.0" ++ nl) w0).
Proof.
  assert (H1 : In "-v" ["-v"; "--version"]) by (left; reflexivity).
  split; [exact H1|].
  exact (proj1 (version_and_help_end_the_run (E:=Toy.engine) (Some 0%nat) "-v"
                  ["--sort"] w0) H1).
Defined.

(** ** More on the URL file *)

Lemma fgets_split_line (line more : string) :
  forall n : nat,
    strchr line "010"%char = None ->
    (String.length line < n)%nat ->
    fgets_split n (line ++ nl ++ more) = (line ++ nl, more).
Proof.
  induction line as [|c line IH]; intros n Hnl Hlen.
  - destruct n; [cbn in Hlen; lia | reflexivity].
  - destruct n; [cbn in Hlen; lia|].
    cbn [strchr] in Hnl. cbn [append fgets_split].
    destruct (Ascii.eqb c "010"%char); [discriminate|].
    destruct (strchr line "010"%char) eqn:Hs; [discriminate|].
    change (line ++ String "010"%char more) with (line ++ nl ++ more).
    rewrite IH; [reflexivity | reflexivity | cbn in Hlen; lia].
Qed.

Lemma fgets_split_chunk (chunk more : string) :
  forall n : nat,
    strchr chunk "010"%char = None ->
    String.length chunk = n \/ (more = "" /\ (String.length chunk <= n)%nat) ->
    fgets_split n (chunk ++ more) = (chunk, more).
Proof.
  induction chunk as [|c chunk IH]; intros n Hnl Hlen.
  - destruct Hlen as [<- | [-> _]]; [reflexivity | now destruct n].
  - destruct n; [cbn in Hlen; destruct Hlen as [H | [_ H]]; lia|].
    cbn [strchr] in Hnl. cbn [append fgets_split].
    destruct (Ascii.eqb c "010"%char); [discriminate|].
    destruct (strchr chunk "010"%char) eqn:Hs; [discriminate|].
    rewrite IH; [reflexivity | reflexivity |].
    cbn in Hlen. destruct Hlen as [H | [H1 H2]]; [left | right; split]; 
      try assumption; lia.
Qed.

Lemma drop_app_le (n : nat) :
  forall a b : string,
    (n <= String.length a)%nat -> drop n (a ++ b) = drop n a ++ b.
Proof.
  induction n as [|n IH]; intros a b H.
  - destruct a; reflexivity.
  - destruct a as [|x a]; [cbn in H; lia|].
    cbn [append drop]. apply IH. cbn in H. lia.
Qed.

Lemma take_app_le (n : nat) :
  forall a b : string,
    (n <= String.length a)%nat -> take n (a ++ b) = take n a.
Proof.
  induction n as [|n IH]; intros a b H.
  - destruct a; [destruct b|]; reflexivity.
  - destruct a as [|x a]; [cbn in H; lia|].
    cbn [append take]. rewrite IH; [reflexivity | cbn in H; lia].
Qed.

Lemma at_app_lt (n : nat) (a b : string) :
  (n < String.length a)%nat -> at_ (a ++ b) n = at_ a n.
Proof.
  intros H. unfold at_. rewrite drop_app_le by lia.
  destruct (drop n a) eqn:Hd; [|reflexivity].
  apply (f_equal String.length) in Hd. rewrite drop_length in Hd.
  cbn in Hd. lia.
Qed.

Lemma c_str_id (s : string) : is_cstring s = true -> c_str s = s.
Proof.
  induction s as [|c s IH]; intros H; [reflexivity|].
  cbn [is_cstring] in H. apply andb_prop in H. destruct H as [Hc Hs].
  apply negb_true_iff in Hc. cbn [c_str]. rewrite Hc. now rewrite IH.
Qed.

Lemma is_cstring_app (a b : string) :
  is_cstring (a ++ b) = is_cstring a && is_cstring b.
Proof.
  induction a as [|x a IH]; cbn [append is_cstring]; [reflexivity|].
  rewrite IH. now rewrite andb_assoc.
Qed.

Lemma strchr_c_str_none (s : string) (c : ascii) :
  strchr s c = None -> strchr (c_str s) c = None.
Proof.
  induction s as [|x s IH]; intros H; [reflexivity|].
  cbn [strchr] in H. cbn [c_str].
  destruct (Ascii.eqb x zero); [reflexivity|].
  cbn [strchr]. destruct (Ascii.eqb x c); [discriminate|].
  destruct (strchr s c); [discriminate|]. now rewrite IH.
Qed.


Section MoreFileMode.

Context {E : UrlEngine}.

(** X19.  One line of the URL file, shorter than the buffer, without a NUL
    byte and ended by a newline: an empty line is skipped; any other line,
    without its newline and without one carriage return before it, is the
    URL given to the variants, so a line that holds a carriage return alone
    gives the empty URL.  The loop goes on with the rest of the file. *)
Theorem file_line_step (o : ptr) (v : struct_option) (a : nat)
        (line more : string) (fuel : nat) (w : world) :
  deref o w = Ret v w ->
  o_url v = Some a ->
  nth_error (w_streams w) a = Some (line ++ nl ++ more) ->
  strchr line "010"%char = None ->
  is_cstring line = true ->
  (String.length line < 4096 - 1)%nat ->
  file_loop (S fuel) o w
  = (match line with
     | EmptyString => ret tt
     | _ => fuel0 <- chain_fuel ;; file_variants fuel0 o (chomp_cr line)
     end ;;; file_loop fuel o)
      (with_streams (update a more (w_streams w)) w).
Proof.
  intros Hd Hu Hs Hnl Hc Hlen.
  cbn [file_loop]. unfold bind at 1. rewrite Hd.
  unfold bind at 1. rewrite Hu. unfold fgets. rewrite Hs.
  assert (Hne : exists c s, line ++ nl ++ more = String c s)
    by (destruct line; cbn; eauto).
  destruct Hne as (c0 & s0 & Hcs). rewrite Hcs. rewrite <- Hcs.
  rewrite fgets_split_line by assumption.
  cbv zeta.
  rewrite (c_str_id (line ++ nl))
    by (rewrite is_cstring_app, Hc; reflexivity).
  change (line ++ nl) with (line ++ String "010"%char "").
  rewrite strchr_app by assumption.
  destruct line as [|c line]; [reflexivity|].
  cbn [String.length]. unfold chomp_cr. cbn [String.length].
  rewrite at_app_lt by (cbn; lia).
  destruct (Ascii.eqb (at_ (String c line) (String.length line)) "013"%char).
  - rewrite take_app_le by (cbn; lia). reflexivity.
  - rewrite take_app_le by (cbn; lia).
    rewrite (take_all (S (String.length line)) (String c line)) by (cbn; lia).
    reflexivity.
Qed.

(** X20.  What [fgets] returns without a newline is dropped: the first
    4095 bytes of a line that is longer, after which the rest of that line
    is read as a line of its own, and a last line that no newline ends. *)
Theorem chunk_without_newline_is_dropped (o : ptr) (v : struct_option)
        (a : nat) (chunk more : string) (fuel : nat) (w : world) :
  deref o w = Ret v w ->
  o_url v = Some a ->
  nth_error (w_streams w) a = Some (chunk ++ more) ->
  chunk <> "" ->
  strchr chunk "010"%char = None ->
  String.length chunk = (4096 - 1)%nat
  \/ (more = "" /\ (String.length chunk <= 4096 - 1)%nat) ->
  file_loop (S fuel) o w
  = file_loop fuel o (with_streams (update a more (w_streams w)) w).
Proof.
  intros Hd Hu Hs Hne Hnl Hlen.
  cbn [file_loop]. unfold bind at 1. rewrite Hd.
  unfold bind at 1. rewrite Hu. unfold fgets. rewrite Hs.
  assert (Hcs : exists c s, chunk ++ more = String c s)
    by (destruct chunk; [congruence | cbn; eauto]).
  destruct Hcs as (c0 & s0 & Hcs). rewrite Hcs. rewrite <- Hcs.
  rewrite fgets_split_chunk by assumption.
  cbv zeta. rewrite (strchr_c_str_none _ _ Hnl). reflexivity.
Qed.


End MoreFileMode.

(** ** JSON output *)

Section MoreJson.

Context {E : UrlEngine}.

Lemma json_loop_run (uh : CURLU) (vars : list (string * CURLUPart)) :
  forall (i : nat) (w : world),
    exists s,
      json_loop uh i vars w = Ret tt (with_out (w_out w ++ s) w) /\
      (i <> 0%nat -> s = "" \/ starts_with ("," ++ nl) s = true).
Proof.
  induction vars as [|[name part] vars IH]; intros i w.
  - exists "". split; [|now left].
    cbn [json_loop]. rewrite append_nil_r. now destruct w.
  - cbn [json_loop].
    destruct (curl_url_get uh part _) as [rc nurl].
    destruct (is_ok rc).
    + set (entry := (if negb (i =? 0)%nat then "," ++ nl else "")
                    ++ ("    " ++ dq ++ name ++ dq ++ ": ")
                    ++ dq ++ jsonString_loop nurl false ++ dq).
      destruct (IH (S i) (with_out (w_out w ++ entry) w)) as (s & Hs & _).
      exists (entry ++ s). split.
      * unfold bind at 1.
        assert (Hentry :
                  (when (negb (i =? 0)%nat) (fputs ("," ++ nl)) ;;;
                   fputs ("    " ++ dq ++ name ++ dq ++ ": ") ;;;
                   jsonString nurl false) w
                  = Ret tt (with_out (w_out w ++ entry) w)).
        { unfold entry, jsonString, bind, fputs, modify, when.
          destruct (negb (i =? 0)%nat); cbn [ret w_out with_out];
            rewrite ?append_assoc; reflexivity. }
        rewrite Hentry, Hs. cbn [w_out with_out].
        rewrite append_assoc. reflexivity.
      * intros Hi. right. unfold entry.
        apply Nat.eqb_neq in Hi. rewrite Hi. reflexivity.
    + destruct (IH (S i) w) as (s & Hs & Hc).
      exists s. split.
      * unfold bind at 1. cbn [ret]. exact Hs.
      * intros _. apply Hc. discriminate.
Qed.

(** X21.  [json] never ends the program: it writes one object, opened by
    [{] on a line of its own, after a comma when the variant has printed a
    URL before, and closed by [}].  The comma between two entries is
    written in front of every entry but that of the first component of the
    table, whether or not that one is printed: when the engine gives no
    full URL, the object is empty or begins with a comma. *)
Theorem json_object_shape (o : ptr) (v : struct_option) (uh : CURLU)
        (w : world) :
  deref o w = Ret v w ->
  exists s,
    json o uh w
    = Ret tt (with_out (w_out w
                        ++ (if (o_urls v =? 0)%nat then "" else "," ++ nl)
                        ++ "  {" ++ nl ++ s ++ nl ++ "  }") w)
    /\ (is_ok (fst (curl_url_get uh CURLUPART_URL (Z.lor 0 CURLU_URLDECODE)))
        = false ->
        s = "" \/ starts_with ("," ++ nl) s = true).
Proof.
  intros Hd. unfold json. unfold bind at 1. rewrite Hd.
  set (head := (if (o_urls v =? 0)%nat then "" else "," ++ nl) ++ "  {" ++ nl).
  unfold bind at 1. unfold fputs at 1, modify.
  destruct (json_loop_run uh variables 0 (with_out (w_out w ++ head) w))
    as (s & Hs & _).
  exists s. split.
  - unfold bind. rewrite Hs. unfold fputs, modify. cbn [w_out with_out].
    unfold head. rewrite !append_assoc. reflexivity.
  - intros Hurl.
    change variables with (("url", CURLUPART_URL) :: tl variables) in Hs.
    cbn [json_loop] in Hs. cbn [Nat.eqb] in Hs.
    destruct (curl_url_get uh CURLUPART_URL (Z.lor 0 CURLU_URLDECODE))
      as [rc nurl].
    cbn [fst] in Hurl. rewrite Hurl in Hs.
    unfold bind at 1 in Hs. cbn [ret] in Hs.
    destruct (json_loop_run uh (tl variables) 1 (with_out (w_out w ++ head) w))
      as (s' & Hs' & Hc).
    rewrite Hs' in Hs. inversion Hs as [Heq].
    apply append_inv_head in Heq. subst s'. apply Hc. discriminate.
Qed.

End MoreJson.

(** X22.  A control byte without a short escape is written by [jsonString]
    as [u] and four hexadecimal digits, with no backslash before them: it
    cannot be told from the same six bytes as text. *)
Theorem control_byte_is_ambiguous (c : ascii) (rest : string) (lc : bool) :
  (nat_of_ascii c < 32)%nat ->
  ~ In c short_escapes ->
  jsonString_loop (String c rest) lc
  = jsonString_loop (printf_u04x c ++ rest) lc
  /\ jsonString_loop (String c rest) lc
     = printf_u04x c ++ jsonString_loop rest lc.
Proof.
  intros Hlt Hn. apply Nat.ltb_lt in Hlt.
  destruct c as [b0 b1 b2 b3 b4 b5 b6 b7].
  destruct b0, b1, b2, b3, b4, b5, b6, b7;
    try (vm_compute in Hlt; discriminate);
    try (exfalso; apply Hn; cbn; tauto);
    destruct lc; split; reflexivity.
Qed.

(** X19 at a line that ends with carriage return and newline. *)
Lemma file_line_step_witness :
  let line := "a.example" ++ cr in
  let more := "b.example" ++ nl in
  let w := file_world (line ++ nl ++ more) in
  deref (Some 0%nat) w = Ret file_option w
  /\ o_url file_option = Some 1%nat
  /\ nth_error (w_streams w) 1 = Some (line ++ nl ++ more)
  /\ strchr line "010"%char = None
  /\ is_cstring line = true
  /\ (String.length line < 4096 - 1)%nat
  /\ file_loop (E:=Toy.engine) 3 (Some 0%nat) w
     = ((fuel0 <- chain_fuel ;;
         file_variants (E:=Toy.engine) fuel0 (Some 0%nat) "a.example") ;;;
        file_loop (E:=Toy.engine) 2 (Some 0%nat))
         (with_streams (update 1 more (w_streams w)) w).
Proof.
  intros line more w.
  assert (H1 : deref (Some 0%nat) w = Ret file_option w) by reflexivity.
  assert (H2 : o_url file_option = Some 1%nat) by reflexivity.
  assert (H3 : nth_error (w_streams w) 1 = Some (line ++ nl ++ more))
    by reflexivity.
  assert (H4 : strchr line "010"%char = None) by reflexivity.
  assert (Hc : is_cstring line = true) by reflexivity.
  assert (H5 : (String.length line < 4096 - 1)%nat)
    by (apply Nat.ltb_lt; vm_compute; reflexivity).
  split; [exact H1|]. split; [exact H2|]. split; [exact H3|].
  split; [exact H4|]. split; [exact Hc|]. split; [exact H5|].
  exact (file_line_step (E:=Toy.engine) (Some 0%nat) file_option 1 line more 2
           w H1 H2 H3 H4 Hc H5).
Defined.


(** X20 at a file whose only line has no newline. *)
Lemma chunk_without_newline_is_dropped_witness :
  let w := file_world "a.example" in
  deref (Some 0%nat) w = Ret file_option w
  /\ o_url file_option = Some 1%nat
  /\ nth_error (w_streams w) 1 = Some ("a.example" ++ "")
  /\ "a.example" <> ""
  /\ strchr "a.example" "010"%char = None
  /\ (String.length "a.example" = (4096 - 1)%nat
      \/ ("" = "" /\ (String.length "a.example" <= 4096 - 1)%nat))
  /\ file_loop (E:=Toy.engine) 2 (Some 0%nat) w
     = file_loop (E:=Toy.engine) 1 (Some 0%nat)
                 (with_streams (update 1 "" (w_streams w)) w).
Proof.
  intros w.
  assert (H1 : deref (Some 0%nat) w = Ret file_option w) by reflexivity.
  assert (H2 : o_url file_option = Some 1%nat) by reflexivity.
  assert (H3 : nth_error (w_streams w) 1 = Some ("a.example" ++ ""))
    by reflexivity.
  assert (H4 : "a.example" <> "") by discriminate.
  assert (H5 : strchr "a.example" "010"%char = None) by reflexivity.
  assert (H6 : String.length "a.example" = (4096 - 1)%nat
               \/ ("" = "" /\ (String.length "a.example" <= 4096 - 1)%nat))
    by (right; split; [reflexivity | apply Nat.leb_le; vm_compute; reflexivity]).
  split; [exact H1|]. split; [exact H2|]. split; [exact H3|].
  split; [exact H4|]. split; [exact H5|]. split; [exact H6|].
  exact (chunk_without_newline_is_dropped (E:=Toy.engine) (Some 0%nat)
           file_option 1 "a.example" "" 1 w H1 H2 H3 H4 H5 H6).
Defined.

(** X21 on a handle that holds a host and no scheme: the object begins
    with a comma. *)
Lemma json_object_shape_witness :
  let w := format_world "{host}" in
  let uh := Toy.put CURLUPART_HOST (Some "example.com") Toy.empty in
  deref (Some 0%nat) w = Ret (set_o_format (Some "{host}") zero_option) w
  /\ exists s,
       json (E:=Toy.engine) (Some 0%nat) uh w
       = Ret tt (with_out (w_out w ++ "" ++ "  {" ++ nl ++ s ++ nl ++ "  }") w)
       /\ (is_ok (fst (curl_url_get (UrlEngine:=Toy.engine) uh CURLUPART_URL
                         (Z.lor 0 CURLU_URLDECODE))) = false ->
           s = "" \/ starts_with ("," ++ nl) s = true).
Proof.
  intros w uh.
  assert (H1 : deref (Some 0%nat) w
               = Ret (set_o_format (Some "{host}") zero_option) w)
    by reflexivity.
  split; [exact H1|].
  exact (json_object_shape (E:=Toy.engine) (Some 0%nat) _ uh w H1).
Defined.

(** X22 at the byte 1. *)
Lemma control_byte_is_ambiguous_witness :
  (nat_of_ascii "001" < 32)%nat
  /\ ~ In "001"%char short_escapes
  /\ jsonString_loop (String "001" "x") false
     = jsonString_loop ("u0001" ++ "x") false
  /\ jsonString_loop (String "001" "x") false = "u0001" ++ "x".
Proof.
  assert (H1 : (nat_of_ascii "001" < 32)%nat)
    by (apply Nat.ltb_lt; vm_compute; reflexivity).
  assert (H2 : ~ In "001"%char short_escapes).
  { intros H. cbn in H.
    repeat (destruct H as [H | H]; [discriminate H|]). exact H. }
  split; [exact H1|]. split; [exact H2|].
  exact (control_byte_is_ambiguous "001"%char "x" false H1 H2).
Defined.

(** ** What a call leaves as it was *)

Section Frames.

Context {E : UrlEngine}.
Variable R : world -> world -> Prop.
Context {R_pre : PreOrder R}.
Hypothesis R_out : forall w s, R w (with_out s w).
Hypothesis R_err : forall w s, R w (with_err s w).
Hypothesis R_qpairs : forall w q, R w (with_qpairs q w).
Hypothesis R_counter :
  forall o, always R (v <- deref o ;; store o (set_o_urls (uint_succ (o_urls v)) v)).

Lemma always_ret {A} (a : A) : always R (ret a).
Proof. intros w. cbn. reflexivity. Qed.

Lemma always_bind {A B} (m : M A) (k : A -> M B) :
  always R m -> (forall a, always R (k a)) -> always R (bind m k).
Proof.
  intros Hm Hk w. unfold bind. specialize (Hm w).
  destruct (m w) as [a w1| | |]; cbn in *; try assumption.
  transitivity w1; [assumption | apply Hk].
Qed.

Lemma always_exit {A} (c : Z) : always R (@exit A c).
Proof. intros w. cbn. reflexivity. Qed.

Lemma always_fault {A} : always R (@fault A).
Proof. intros w. cbn. reflexivity. Qed.

Lemma always_diverge {A} : always R (@diverge A).
Proof. intros w. cbn. reflexivity. Qed.

Lemma always_gets {A} (f : world -> A) : always R (gets f).
Proof. intros w. cbn. reflexivity. Qed.

Lemma always_deref (o : ptr) : always R (deref o).
Proof.
  intros w. unfold deref. destruct o as [a|]; [|reflexivity].
  destruct (nth_error (w_opts w) a); reflexivity.
Qed.

Lemma always_fputs (s : string) : always R (fputs s).
Proof. intros w. apply R_out. Qed.

Lemma always_eputs (s : string) : always R (eputs s).
Proof. intros w. apply R_err. Qed.

Lemma always_warnf (s : string) : always R (warnf s).
Proof. apply always_eputs. Qed.

Lemma always_errorf {A} (c : Z) (s : string) : always R (@errorf A c s).
Proof.
  unfold errorf. apply always_bind; [apply always_eputs|].
  intros _. apply always_exit.
Qed.

Lemma always_when (b : bool) (m : M unit) : always R m -> always R (when b m).
Proof. intros H. destruct b; [exact H | apply always_ret]. Qed.

Lemma always_qpairs (f : world -> list string) :
  always R (modify (fun w => with_qpairs (f w) w)).
Proof. intros w. apply R_qpairs. Qed.

Ltac frame_step :=
  first
    [ assumption
    | apply always_ret | apply always_exit | apply always_fault
    | apply always_diverge | apply always_gets | apply always_deref
    | apply always_fputs | apply always_eputs | apply always_warnf
    | apply always_errorf | apply always_qpairs | apply R_counter
    | apply always_when
    | apply always_bind; [|intros]
    | match goal with
      | |- always _ (match ?x with _ => _ end) => destruct x
      end ].

Ltac frame := repeat frame_step.

Lemma always_set_vars (uh : CURLU) (o : ptr) (set : string) (eq vlen : nat)
      (enc : bool) (vars : list (string * CURLUPart)) :
  forall (i : nat) (varset : list bool),
    always R (set_vars uh o set eq vlen enc i vars varset).
Proof.
  induction vars as [|[name part] vars IH]; intros i varset;
    cbn [set_vars]; frame. apply IH.
Qed.

Lemma always_set_loop (o : ptr) (nodes : list string) :
  forall (uh : CURLU) (varset : list bool),
    always R (set_loop uh o varset nodes).
Proof.
  induction nodes as [|d nodes IH]; intros uh varset; cbn [set_loop]; frame.
  - apply always_set_vars.
  - apply IH.
Qed.

Lemma always_set (uh : CURLU) (o : ptr) : always R (set uh o).
Proof. unfold set. frame. apply always_set_loop. Qed.

Lemma always_append_path_loop (p : list string) :
  forall uh : CURLU, always R (append_path_loop uh p).
Proof.
  induction p as [|apath p IH]; intros uh; cbn [append_path_loop]; frame.
  apply IH.
Qed.

Lemma always_addqpair (pair : string) (len : nat) :
  always R (addqpair pair len).
Proof. unfold addqpair. frame. Qed.

Lemma always_extract_loop (fuel : nat) :
  forall p : string, always R (extract_loop fuel p).
Proof.
  induction fuel as [|fuel IH]; intros p; destruct p; cbn [extract_loop];
    frame; try apply always_addqpair; apply IH.
Qed.

Lemma always_extractqpairs (uh : CURLU) : always R (extractqpairs uh).
Proof.
  unfold extractqpairs. apply always_bind.
  - apply (always_qpairs (fun _ => [])).
  - intros _. frame. apply always_extract_loop.
Qed.

Lemma always_forM {A} (f : A -> M unit) (l : list A) :
  (forall a, always R (f a)) -> always R (forM l f).
Proof.
  intros Hf. induction l as [|x l IH]; cbn [forM]; frame. apply Hf.
Qed.

Lemma always_trim_loop (nodes : list string) : always R (trim_loop nodes).
Proof.
  induction nodes as [|instr nodes IH]; cbn [trim_loop]; frame.
Qed.

Lemma always_trim (o : ptr) : always R (trim o).
Proof. unfold trim. frame. apply always_trim_loop. Qed.

Lemma always_qpair2query (uh : CURLU) : always R (qpair2query uh).
Proof. unfold qpair2query. frame. Qed.

Lemma always_json_loop (uh : CURLU) (vars : list (string * CURLUPart)) :
  forall i : nat, always R (json_loop uh i vars).
Proof.
  induction vars as [|[name part] vars IH]; intros i; cbn [json_loop];
    unfold jsonString; frame; apply IH.
Qed.

Lemma always_json (o : ptr) (uh : CURLU) : always R (json o uh).
Proof. unfold json. frame. apply always_json_loop. Qed.

Lemma always_get_vars (uh : CURLU) (ptr : string) (vlen : nat) (dec : bool)
      (vars : list (string * CURLUPart)) :
  always R (get_vars uh ptr vlen dec vars).
Proof.
  induction vars as [|[name part] vars IH]; cbn [get_vars]; frame.
Qed.

Lemma always_get_loop (uh : CURLU) (fuel : nat) :
  forall ptr : string, always R (get_loop fuel uh ptr).
Proof.
  induction fuel as [|fuel IH]; intros ptr; destruct ptr as [|c ptr];
    cbn [get_loop]; frame; try apply always_get_vars; apply IH.
Qed.

Lemma always_get (o : ptr) (uh : CURLU) : always R (get o uh).
Proof. unfold get. frame. apply always_get_loop. Qed.

Lemma always_singleurl (o : ptr) (url : option string) :
  always R (singleurl o url).
Proof.
  unfold singleurl, freeqpairs.
  destruct curl_url as [uh|]; [|apply always_errorf].
  apply always_bind; [apply always_deref|]. intros v.
  apply always_bind.
  - destruct url as [u|]; frame.
  - intros [uh'|]; [|apply always_ret].
    apply always_bind; [apply always_set|]. intros uh1.
    apply always_bind; [apply always_deref|]. intros v1.
    apply always_bind; [apply always_gets|]. intros p.
    apply always_bind; [apply always_append_path_loop|]. intros uh2.
    apply always_bind; [apply always_extractqpairs|]. intros _.
    apply always_bind; [apply always_deref|]. intros v2.
    apply always_bind; [apply always_gets|]. intros p2.
    apply always_bind.
    { apply always_forM. intros a. apply always_bind;
        [apply always_addqpair | intros; apply always_ret]. }
    intros _.
    apply always_bind; [apply always_trim|]. intros _.
    apply always_bind; [apply always_qpair2query|]. intros uh3.
    apply always_bind; [apply always_deref|]. intros v3.
    apply always_bind.
    { destruct (o_jsonout v3); [apply always_json|].
      destruct (o_format v3); [apply always_get|]. frame. }
    intros _.
    apply always_bind; [apply (always_qpairs (fun _ => []))|]. intros _.
    apply R_counter.
Qed.

End Frames.

Lemma map_update_same {A B} (f : A -> B) (l : list A) :
  forall (a : nat) (x v : A),
    nth_error l a = Some v -> f x = f v -> map f (update a x l) = map f l.
Proof.
  induction l as [|y l IH]; intros [|a] x v Hn Hf; cbn in *; try discriminate.
  - inversion Hn; subst. now rewrite Hf.
  - f_equal. now apply (IH a x v).
Qed.

Lemma always_deref_store (R : world -> world -> Prop)
      (f : struct_option -> struct_option) (o : ptr) :
  (forall w, R w w) ->
  (forall w a v, nth_error (w_opts w) a = Some v ->
                 R w (with_opts (update a (f v) (w_opts w)) w)) ->
  always R (v <- deref o ;; store o (f v)).
Proof.
  intros Hrefl Hst w. unfold bind, deref, store.
  destruct o as [a|]; [|apply Hrefl].
  destruct (nth_error (w_opts w) a) as [v|] eqn:Hv; [|apply Hrefl].
  destruct (a <? List.length (w_opts w))%nat; [|apply Hrefl].
  cbn. now apply Hst.
Qed.

Lemma counters_only_pre : PreOrder counters_only.
Proof.
  split.
  - intros w. repeat split; reflexivity.
  - intros x y z (A1 & A2 & A3 & A4) (B1 & B2 & B3 & B4).
    repeat split; congruence.
Qed.

Lemma links_kept_pre : PreOrder links_kept.
Proof.
  split.
  - intros w. reflexivity.
  - intros x y z A B. unfold links_kept in *. congruence.
Qed.

Lemma counters_only_counter (o : ptr) :
  always counters_only
         (v <- deref o ;; store o (set_o_urls (uint_succ (o_urls v)) v)).
Proof.
  apply (always_deref_store counters_only
           (fun v => set_o_urls (uint_succ (o_urls v)) v)).
  - apply counters_only_pre.
  - intros w a v Hv. repeat split; cbn [w_opts w_slists w_streams w_fs with_opts].
    now apply (map_update_same _ _ a _ v).
Qed.

Lemma links_kept_store (f : struct_option -> struct_option) (o : ptr) :
  (forall v, o_iterate (f v) = o_iterate v) ->
  always links_kept (v <- deref o ;; store o (f v)).
Proof.
  intros Hf. apply always_deref_store.
  - apply links_kept_pre.
  - intros w a v Hv. unfold links_kept. cbn [w_opts with_opts].
    apply (map_update_same _ _ a _ v); [assumption | apply Hf].
Qed.

Lemma links_kept_store_then {A} (f : struct_option -> struct_option) (o : ptr)
      (k : M A) :
  (forall v, o_iterate (f v) = o_iterate v) ->
  always links_kept k ->
  always links_kept (v <- deref o ;; store o (f v) ;;; k).
Proof.
  intros Hf Hk w.
  pose proof (links_kept_store f o Hf w) as H.
  unfold bind, deref, store in *.
  destruct o as [a|]; [|exact H].
  destruct (nth_error (w_opts w) a) as [v|] eqn:Hv; [|exact H].
  destruct (a <? List.length (w_opts w))%nat; [|exact H].
  cbn in H.
  exact (@PreOrder_Transitive _ _ links_kept_pre _ _ _ H (Hk _)).
Qed.

(** The rules for [links_kept]. *)
Lemma lk_ret {A} (a : A) : always links_kept (ret a).
Proof. exact (always_ret links_kept (R_pre:=links_kept_pre) a). Qed.

Lemma lk_bind {A B} (m : M A) (k : A -> M B) :
  always links_kept m -> (forall a, always links_kept (k a)) ->
  always links_kept (bind m k).
Proof. exact (always_bind links_kept (R_pre:=links_kept_pre) m k). Qed.

Lemma lk_exit {A} (c : Z) : always links_kept (@exit A c).
Proof. exact (always_exit links_kept (R_pre:=links_kept_pre) c). Qed.

Lemma lk_fault {A} : always links_kept (@fault A).
Proof. exact (always_fault links_kept (R_pre:=links_kept_pre)). Qed.

Lemma lk_diverge {A} : always links_kept (@diverge A).
Proof. exact (always_diverge links_kept (R_pre:=links_kept_pre)). Qed.

Lemma lk_gets {A} (f : world -> A) : always links_kept (gets f).
Proof. exact (always_gets links_kept (R_pre:=links_kept_pre) f). Qed.

Lemma lk_deref (o : ptr) : always links_kept (deref o).
Proof. exact (always_deref links_kept (R_pre:=links_kept_pre) o). Qed.

Lemma lk_fputs (s : string) : always links_kept (fputs s).
Proof. intros w. reflexivity. Qed.

Lemma lk_eputs (s : string) : always links_kept (eputs s).
Proof. intros w. reflexivity. Qed.

Lemma lk_errorf {A} (c : Z) (s : string) : always links_kept (@errorf A c s).
Proof. exact (always_errorf links_kept (R_pre:=links_kept_pre) (fun w s => eq_refl) c s). Qed.

Lemma lk_when (b : bool) (m : M unit) :
  always links_kept m -> always links_kept (when b m).
Proof. exact (always_when links_kept (R_pre:=links_kept_pre) b m). Qed.

Lemma lk_slist_append (list : ptr) (data : string) :
  always links_kept (curl_slist_append list data).
Proof. intros w. destruct list; reflexivity. Qed.

Ltac links_step :=
  first
    [ assumption
    | apply lk_ret | apply lk_exit | apply lk_fault | apply lk_diverge
    | apply lk_gets | apply lk_deref | apply lk_fputs | apply lk_eputs
    | apply lk_errorf | apply lk_slist_append
    | apply links_kept_store; intros; reflexivity
    | apply links_kept_store_then; [intros; reflexivity|]
    | apply lk_when
    | apply lk_bind; [|intros]
    | match goal with
      | |- always _ (match ?x with _ => _ end) => destruct x
      end ].

Ltac links := repeat links_step.

Section MoreSingleUrl.

Context {E : UrlEngine}.

(** X23.  However it ends, [singleurl] leaves every list, every stream and
    every variant as it found them, but for the counters of processed
    URLs: one variant's run cannot change what another variant will do. *)
Theorem singleurl_changes_counters_only (o : ptr) (url : option string)
        (w : world) :
  counters_only w (world_of (singleurl o url w)).
Proof.
  apply (always_singleurl counters_only (R_pre:=counters_only_pre)).
  - intros w1 s. repeat split; reflexivity.
  - intros w1 s. repeat split; reflexivity.
  - intros w1 q. repeat split; reflexivity.
  - apply counters_only_counter.
Qed.

Lemma links_kept_singleurl (o : ptr) (url : option string) :
  always links_kept (singleurl o url).
Proof.
  apply (always_singleurl links_kept (R_pre:=links_kept_pre)).
  - intros w1 s. reflexivity.
  - intros w1 s. reflexivity.
  - intros w1 q. reflexivity.
  - intros o1. now apply links_kept_store.
Qed.

Lemma links_kept_variants (url : option string) (fuel : nat) :
  forall opt : ptr, always links_kept (variants fuel opt url).
Proof.
  induction fuel as [|fuel IH]; intros [a|]; cbn [variants].
  - apply lk_diverge.
  - apply lk_ret.
  - apply lk_bind; [apply links_kept_singleurl|]. intros _.
    apply lk_bind; [apply lk_deref|]. intros v. apply IH.
  - apply lk_ret.
Qed.

Lemma links_kept_url_loop (o : ptr) (node : list string) :
  always links_kept (url_loop o node).
Proof.
  induction node as [|url node IH]; cbn [url_loop].
  - apply lk_bind; [apply lk_gets|]. intros fuel.
    apply links_kept_variants.
  - apply lk_bind; [apply lk_gets|]. intros fuel.
    apply lk_bind; [apply links_kept_variants|]. intros _.
    destruct node; [apply lk_ret | apply IH].
Qed.

Lemma links_kept_file_variants (buffer : string) (fuel : nat) :
  forall opt : ptr, always links_kept (file_variants fuel opt buffer).
Proof.
  induction fuel as [|fuel IH]; intros opt; cbn [file_variants];
    [apply lk_diverge|].
  apply lk_bind; [apply lk_deref|]. intros v.
  destruct (o_iterate v); [|apply lk_ret].
  apply lk_bind; [apply links_kept_singleurl|]. intros _.
  apply lk_bind; [apply lk_deref|]. intros v1. apply IH.
Qed.

Lemma links_kept_fgets (size : nat) (f : ptr) : always links_kept (fgets size f).
Proof.
  intros w. unfold fgets. destruct f as [a|]; [|reflexivity].
  destruct (nth_error (w_streams w) a) as [[|c s]|]; try reflexivity.
  destruct (fgets_split (size - 1) (String c s)). reflexivity.
Qed.

Lemma links_kept_file_loop (o : ptr) (fuel : nat) :
  always links_kept (file_loop fuel o).
Proof.
  induction fuel as [|fuel IH]; cbn [file_loop]; [apply lk_diverge|].
  apply lk_bind; [apply lk_deref|]. intros v.
  apply lk_bind; [apply links_kept_fgets|]. intros [buffer|];
    [|apply lk_ret].
  cbv zeta. apply lk_bind; [|intros _; apply IH].
  destruct (strchr (c_str buffer) "010"%char) as [[|e]|]; try apply lk_ret.
  apply lk_bind; [apply lk_gets|]. intros fuel0.
  apply links_kept_file_variants.
Qed.

Lemma bind_never {A B} (m : M A) (k : A -> M B) (w : world) :
  (forall a w1, m w = Ret a w1 -> forall b w2, k a w1 <> Ret b w2) ->
  forall b w2, bind m k w <> Ret b w2.
Proof.
  intros H b w2. unfold bind.
  destruct (m w) as [a w1| | |] eqn:Hm; try discriminate.
  now apply (H a w1).
Qed.

Lemma last_link (a : nat) (w w' : world) :
  nth_error (map o_iterate (w_opts w)) a = Some None ->
  links_kept w w' ->
  exists v, deref (Some a) w' = Ret v w' /\ o_iterate v = None.
Proof.
  intros Hn Hl. unfold links_kept in Hl. rewrite <- Hl in Hn.
  rewrite nth_error_map in Hn. unfold deref.
  destruct (nth_error (w_opts w') a) as [v|]; [|discriminate].
  exists v. split; [reflexivity|]. cbn in Hn. congruence.
Qed.

Lemma kept_after {A} (m : M A) (w w1 : world) (a : A) :
  always links_kept m -> m w = Ret a w1 -> links_kept w w1.
Proof.
  intros H Hm. specialize (H w). now rewrite Hm in H.
Qed.

(** The clean-up at the end of [main] begins at [o.iterate]: when that is
    NULL, the processing of the URLs never ends in a return. *)
Lemma main_process_never_returns (a : nat) (w : world) :
  nth_error (map o_iterate (w_opts w)) a = Some None ->
  forall z w', main_process (Some a) w <> Ret z w'.
Proof.
  intros Hn. unfold main_process.
  destruct (last_link a w w Hn ltac:(reflexivity)) as (v & Hd & Hit).
  unfold bind at 1. rewrite Hd.
  apply bind_never. intros [] w1 H1.
  pose proof (kept_after _ _ _ _ (lk_when _ _ (lk_fputs _)) H1) as K1.
  apply bind_never. intros [] w2 H2.
  assert (K2 : links_kept w1 w2).
  { destruct (o_url v).
    - refine (kept_after _ _ _ _ _ H2).
      apply lk_bind; [apply lk_gets|]. intros fuel.
      apply links_kept_file_loop.
    - refine (kept_after _ _ _ _ _ H2).
      apply lk_bind; [apply lk_gets|]. intros node.
      apply links_kept_url_loop. }
  apply bind_never. intros [] w3 H3.
  pose proof (kept_after _ _ _ _ (lk_when _ _ (lk_fputs _)) H3) as K3.
  assert (K : links_kept w w3) by (unfold links_kept in *; congruence).
  destruct (last_link a w w3 Hn K) as (v3 & Hd3 & Hit3).
  intros z w'. unfold bind at 1. rewrite Hd3.
  unfold bind at 1. unfold chain_fuel, gets. rewrite Hit3.
  cbn [optcleanup]. discriminate.
Qed.

End MoreSingleUrl.

(** ** A run without [--iterate] *)

Section NoIterate.

Context {E : UrlEngine}.

Lemma lk_fopen (file : string) : always links_kept (fopen file).
Proof.
  intros w. unfold fopen. destruct (lookup_file file (w_fs w)); reflexivity.
Qed.

Lemma lk_setadd_loop (set : string) (fuel : nat) :
  forall o : ptr, always links_kept (setadd_loop fuel o set).
Proof.
  induction fuel as [|fuel IH]; intros o; cbn [setadd_loop]; links.
  apply IH.
Qed.

Lemma lk_help_loop (vars : list (string * CURLUPart)) :
  forall i : nat, always links_kept (help_loop i vars).
Proof.
  induction vars as [|[name part] vars IH]; intros i; cbn [help_loop]; links.
  apply IH.
Qed.

Lemma lk_checkoptarg (str given : string) (arg : option string) :
  always links_kept (checkoptarg str given arg).
Proof. unfold checkoptarg. links. Qed.

Lemma lk_not_iterate {A} (flag : string) (arg : option string)
      (k : bool -> M A) :
  is0 (strcmp "--iterate" flag) = false ->
  always links_kept (k false) ->
  always links_kept (bind (checkoptarg "--iterate" flag arg) k).
Proof.
  intros H Hk. unfold checkoptarg. rewrite H. exact Hk.
Qed.

Lemma lk_getarg (op : ptr) (flag : string) (arg : option string) :
  is0 (strcmp "--iterate" flag) = false ->
  always links_kept (getarg op flag arg).
Proof.
  intros H.
  unfold getarg, show_version, help, urladd, urlfile, appendadd, pathadd,
    queryadd, setadd, trimadd, orM, the_arg, chain_fuel.
  repeat first
         [ apply (lk_not_iterate flag arg); [exact H|]
         | apply lk_checkoptarg
         | apply lk_fopen
         | apply lk_setadd_loop
         | apply lk_help_loop
         | links_step ].
Qed.

Lemma lk_args_loop (o : ptr) (n : nat) :
  forall argv : list string,
    (List.length argv <= n)%nat ->
    Forall (fun a => is_cstring a = true) argv ->
    ~ In "--iterate" argv ->
    always links_kept (args_loop o argv).
Proof.
  induction n as [|n IH]; intros [|a0 rest] Hlen Hc Hn;
    try apply lk_ret; [cbn in Hlen; lia|].
  inversion Hc as [|? ? Ha0 Hrest]; subst.
  assert (Hflag : is0 (strcmp "--iterate" a0) = false).
  { rewrite strcmp_eqb by (reflexivity || assumption).
    apply String.eqb_neq. intros <-. apply Hn. now left. }
  assert (Hnr : ~ In "--iterate" rest) by (intros H; apply Hn; now right).
  cbn [args_loop]. apply lk_bind.
  - destruct (_ || _).
    + apply lk_bind; [now apply lk_getarg|]. intros r. links.
    + unfold urladd. links.
  - intros usedarg. destruct usedarg.
    + destruct rest as [|a1 rest']; [apply lk_ret|].
      inversion Hrest; subst.
      apply IH; [cbn in Hlen |- *; lia | assumption |].
      intros H. apply Hnr. now right.
    + apply IH; [cbn in Hlen |- *; lia | assumption | assumption].
Qed.

Lemma main_without_iterate (argv : list string) (stdin_text : string)
      (fs : list (string * string)) (z : Z) (w' : world) :
  Forall (fun a => is_cstring a = true) argv ->
  ~ In "--iterate" argv ->
  main argv (init_world stdin_text fs) <> Ret z w'.
Proof.
  intros Hc Hn. rewrite main_eq.
  erewrite bind_Ret; [|reflexivity].
  apply bind_never. intros [] w2 H2.
  apply main_process_never_returns.
  assert (K : links_kept
                (with_opts ([] ++ [zero_option]) (init_world stdin_text fs)) w2).
  { refine (kept_after _ _ _ _ _ H2).
    apply (lk_args_loop _ (List.length (tl argv))); [lia | |].
    - destruct argv; [constructor | now inversion Hc].
    - intros H. apply Hn. destruct argv; [contradiction | now right]. }
  unfold links_kept in K. rewrite K. reflexivity.
Qed.

(** X24.  [main] ends with the clean-up of the chain from [o.iterate] on,
    which reads through that pointer.  Without [--iterate] on the command
    line the pointer is NULL when the clean-up is reached: whatever the
    other arguments, the URLs and the files, the program never returns
    from [main].  It ends in [exit], or in the read through NULL. *)
Theorem no_return_without_iterate (argv : list string) (stdin_text : string)
        (fs : list (string * string)) :
  Forall (fun a => is_cstring a = true) argv ->
  ~ In "--iterate" argv ->
  returns (main argv (init_world stdin_text fs)) = false.
Proof.
  intros Hc Hn.
  destruct (main argv (init_world stdin_text fs)) as [z w'| | |] eqn:Hm;
    try reflexivity.
  exfalso. exact (main_without_iterate argv stdin_text fs z w' Hc Hn Hm).
Qed.

End NoIterate.

(** X24 at one URL, which is processed and printed before the run ends in
    the read through NULL. *)
Lemma no_return_without_iterate_witness :
  let argv := ["trurl"; "https://example.com/x"] in
  Forall (fun a => is_cstring a = true) argv
  /\ ~ In "--iterate" argv
  /\ returns (main (E:=Toy.engine) argv (init_world "" [])) = false.
Proof.
  intros argv.
  assert (H1 : Forall (fun a => is_cstring a = true) argv)
    by (repeat constructor).
  assert (H2 : ~ In "--iterate" argv).
  { intros H. cbn in H.
    repeat (destruct H as [H | H]; [discriminate H|]). exact H. }
  split; [exact H1|]. split; [exact H2|].
  exact (no_return_without_iterate (E:=Toy.engine) argv "" [] H1 H2).
Defined.

Lemma strncmp_starts_with (p : string) :
  forall s : string,
    is_cstring p = true ->
    is0 (strncmp p s (String.length p)) = starts_with p s.
Proof.
  induction p as [|x p IH]; intros s Hp; [reflexivity|].
  cbn [is_cstring] in Hp. apply andb_prop in Hp. destruct Hp as [Hx Hp].
  apply negb_true_iff, Ascii.eqb_neq in Hx.
  cbn [String.length strncmp starts_with]. destruct s as [|y s].
  - unfold is0. apply Z.eqb_neq. intros H. now apply Hx, code_zero.
  - destruct (Ascii.eqb x y) eqn:Hxy; cbn [andb]; [now apply IH|].
    unfold is0. apply Z.eqb_neq. intros H. apply code_inj in H.
    subst. now rewrite Ascii.eqb_refl in Hxy.
Qed.

Lemma strncmp_take_l (n : nat) :
  forall a b : string, strncmp a b n = strncmp (take n a) b n.
Proof.
  induction n as [|n IH]; intros a b; [destruct a; reflexivity|].
  destruct a as [|x a], b as [|y b]; cbn [take strncmp]; try reflexivity.
  destruct (Ascii.eqb x y); [apply IH | reflexivity].
Qed.

Lemma drop_nil_length (n : nat) (s : string) :
  drop n s = "" -> (String.length s <= n)%nat.
Proof.
  intros H. apply (f_equal String.length) in H.
  rewrite drop_length in H. cbn in H. lia.
Qed.

Section MoreIterationErrors.

Context {E : UrlEngine}.

(** X25.  [iterate] ends the program with the iterator exit code when the
    directive begins with none of [hosts], [ports=] and [schemes=], and
    when nothing follows the name and the byte after it. *)
Theorem iterate_rejects (op : ptr) (arg : string) (w : world) :
  iterate_values arg = None \/ iterate_values arg = Some "" ->
  iterate op arg w
  = Exit ERROR_ITER
         (with_err (w_err w
                    ++ errorf_text ("Missing arguments for iterator " ++ arg)) w).
Proof.
  intros H. unfold iterate.
  assert (H1 : is0 (strncmp "hosts=" arg 5) = starts_with "hosts" arg)
    by (rewrite (strncmp_take_l 5 "hosts=" arg);
        exact (strncmp_starts_with "hosts" arg eq_refl)).
  assert (H2 : is0 (strncmp "ports=" arg 6) = starts_with "ports=" arg)
    by exact (strncmp_starts_with "ports=" arg eq_refl).
  assert (H3 : is0 (strncmp "schemes=" arg 8) = starts_with "schemes=" arg)
    by exact (strncmp_starts_with "schemes=" arg eq_refl).
  rewrite H1, H2, H3. clear H1 H2 H3.
  unfold iterate_values in H.
  destruct (starts_with "hosts" arg);
    [|destruct (starts_with "ports=" arg);
      [|destruct (starts_with "schemes=" arg)]];
    cbv beta iota.
  4: reflexivity.
  all: destruct H as [H | H]; [discriminate|];
    match type of H with
    | Some (drop ?n _) = _ =>
        assert (H0 : drop n arg = "") by congruence
    end;
    apply drop_nil_length in H0;
    replace (String.length arg <=? _)%nat with true
      by (symmetry; apply Nat.leb_le; cbn; lia);
    reflexivity.
Qed.

(** X26.  The segments of [--append path=] are added one after the other,
    each behind a [/] unless the path already ends with one.  This is so
    for an engine that gives back the path it was given; the path the run
    starts from must not be empty, its last byte is read. *)
Theorem append_path_joins (uh : CURLU) (segments : list string) (w : world) :
  (forall h p,
      curl_url_get (fst (curl_url_set h CURLUPART_PATH (Some p) 0))
                   CURLUPART_PATH 0 = (CURLUE_OK, p)) ->
  forall p0 : string,
    curl_url_get uh CURLUPART_PATH 0 = (CURLUE_OK, p0) ->
    p0 <> "" ->
    exists uh',
      append_path_loop uh segments w = Ret uh' w /\
      curl_url_get uh' CURLUPART_PATH 0
      = (CURLUE_OK, fold_left join_path segments p0).
Proof.
  intros Hget. revert uh.
  induction segments as [|seg segments IH]; intros uh p0 Hp Hne.
  - exists uh. split; [reflexivity | exact Hp].
  - cbn [append_path_loop fold_left]. rewrite Hp. cbn [is_ok negb].
    replace (String.length p0 =? 0)%nat with false
      by (symmetry; apply Nat.eqb_neq; destruct p0; [congruence | cbn; lia]).
    apply IH.
    + apply Hget.
    + unfold join_path. destruct p0; [congruence | discriminate].
Qed.

End MoreIterationErrors.

(** X25 at a name [iterate] is not written for. *)
Lemma iterate_rejects_witness :
  let w := format_world "{host}" in
  (iterate_values "users=a b" = None \/ iterate_values "users=a b" = Some "")
  /\ iterate (Some 0%nat) "users=a b" w
     = Exit ERROR_ITER
            (with_err (w_err w
                       ++ errorf_text ("Missing arguments for iterator "
                                       ++ "users=a b")) w).
Proof.
  intros w.
  assert (H1 : iterate_values "users=a b" = None
               \/ iterate_values "users=a b" = Some "")
    by (left; reflexivity).
  split; [exact H1|].
  exact (iterate_rejects (Some 0%nat) "users=a b" w H1).
Defined.

(** X26 with the small engine, on a path that ends with a slash. *)
Lemma append_path_joins_witness :
  let uh := Toy.put CURLUPART_PATH (Some "/a/") Toy.empty in
  (forall h p,
      curl_url_get (UrlEngine:=Toy.engine)
        (fst (curl_url_set (UrlEngine:=Toy.engine) h CURLUPART_PATH (Some p) 0))
        CURLUPART_PATH 0 = (CURLUE_OK, p))
  /\ curl_url_get (UrlEngine:=Toy.engine) uh CURLUPART_PATH 0 = (CURLUE_OK, "/a/")
  /\ "/a/" <> ""
  /\ exists uh',
       append_path_loop (E:=Toy.engine) uh ["b"; "c"] w0 = Ret uh' w0 /\
       curl_url_get (UrlEngine:=Toy.engine) uh' CURLUPART_PATH 0
       = (CURLUE_OK, "/a/b/c").
Proof.
  intros uh.
  assert (H1 : forall h p,
             curl_url_get (UrlEngine:=Toy.engine)
               (fst (curl_url_set (UrlEngine:=Toy.engine) h CURLUPART_PATH
                       (Some p) 0))
               CURLUPART_PATH 0 = (CURLUE_OK, p))
    by (intros h p; reflexivity).
  assert (H2 : curl_url_get (UrlEngine:=Toy.engine) uh CURLUPART_PATH 0
               = (CURLUE_OK, "/a/")) by reflexivity.
  assert (H3 : "/a/" <> "") by discriminate.
  split; [exact H1|]. split; [exact H2|]. split; [exact H3|].
  exact (append_path_joins (E:=Toy.engine) uh ["b"; "c"] w0 H1 "/a/" H2 H3).
Defined.

(** ** The unclosed brace, wherever it stands *)

Lemma bind_assoc {A B C} (m : M A) (k1 : A -> M B) (k2 : B -> M C) (w : world) :
  bind (bind m k1) k2 w = bind m (fun a => bind (k1 a) k2) w.
Proof. unfold bind. destruct (m w); reflexivity. Qed.

Lemma plain_app (a b : string) : plain (a ++ b) = plain a && plain b.
Proof.
  induction a as [|x a IH]; cbn [append plain]; [reflexivity|].
  rewrite IH. now rewrite andb_assoc.
Qed.

Lemma token_length (t : string) : token t -> (1 <= String.length t)%nat.
Proof. intros []; cbn; lia. Qed.

Section UnclosedBrace.

Context {E : UrlEngine}.
Variable uh : CURLU.

(** Fuel beyond the length of the text makes no difference. *)
Lemma get_loop_fuel (f : nat) :
  forall (ptr : string) (f' : nat) (w : world),
    (String.length ptr <= f)%nat -> (String.length ptr <= f')%nat ->
    get_loop f uh ptr w = get_loop f' uh ptr w.
Proof.
  induction f as [|f IH]; intros [|c p] f' w Hf Hf';
    try (destruct f'; reflexivity); try (cbn in Hf; lia).
  destruct f' as [|f']; [cbn in Hf'; lia|].
  assert (Hdrop : forall k w1, (1 <= k)%nat ->
             get_loop f uh (drop k (String c p)) w1
             = get_loop f' uh (drop k (String c p)) w1).
  { intros k w1 Hk. apply IH; rewrite drop_length; cbn [String.length] in *; lia. }
  cbn [get_loop].
  destruct (Ascii.eqb "{"%char c).
  - destruct (Ascii.eqb "{"%char (at_ (String c p) 1)).
    + apply bind_ext. intros _ w1. apply Hdrop. lia.
    + destruct (strchr (String c p) "}"%char) as [e|]; [|apply Hdrop; lia].
      destruct (Ascii.eqb (at_ (drop 1 (String c p)) 0) ":"%char);
        apply bind_ext; intros _ w1; apply Hdrop; lia.
  - destruct (Ascii.eqb "\"%char c && negb (Ascii.eqb (at_ (String c p) 1) zero));
      apply bind_ext; intros _ w1; apply Hdrop; lia.
Qed.

(** The step at an unclosed brace, with any fuel. *)
Lemma get_loop_unclosed (rest : string) (fuel : nat) (w : world) :
  at_ rest 0 <> "{"%char ->
  strchr rest "}"%char = None ->
  get_loop (S fuel) uh ("{" ++ rest) w = get_loop fuel uh rest w.
Proof.
  intros Hnb Hnc.
  change ("{" ++ rest) with (String "{"%char rest).
  cbn [get_loop]. rewrite Ascii.eqb_refl.
  change (at_ (String "{"%char rest) 1) with (at_ rest 0).
  destruct (Ascii.eqb "{"%char (at_ rest 0)) eqn:Hb.
  - apply Ascii.eqb_eq in Hb. congruence.
  - cbn [strchr]. change (Ascii.eqb "{"%char "}"%char) with false.
    cbn iota. rewrite Hnc. cbn [option_map drop]. reflexivity.
Qed.

Lemma get_vars_take (a b : string) (dec : bool)
      (vars : list (string * CURLUPart)) (w : world) :
  get_vars uh (a ++ b) (String.length a) dec vars w
  = get_vars uh a (String.length a) dec vars w.
Proof.
  rewrite !get_vars_filter by (rewrite ?length_append; lia).
  rewrite take_app_exact, (take_all (String.length a) a) by lia.
  reflexivity.
Qed.

(** The step at a reference that is closed. *)
Lemma get_loop_reference (body rest : string) (fuel : nat) (w : world) :
  strchr body "}"%char = None ->
  Ascii.eqb (at_ body 0) "{"%char = false ->
  let dec := negb (Ascii.eqb (at_ body 0) ":"%char) in
  let name := if dec then body else drop 1 body in
  get_loop (S fuel) uh (("{" ++ body ++ "}") ++ rest) w
  = (get_vars uh name (String.length name) dec variables ;;;
     get_loop fuel uh rest) w.
Proof.
  intros Hclose Hopen dec name.
  change (("{" ++ body ++ "}") ++ rest)
    with (String "{"%char ((body ++ "}") ++ rest)).
  rewrite append_assoc.
  change ("}" ++ rest) with (String "}"%char rest).
  cbn [get_loop]. rewrite Ascii.eqb_refl.
  change (at_ (String "{"%char (body ++ String "}"%char rest)) 1)
    with (at_ (body ++ String "}"%char rest) 0).
  assert (Hat : at_ (body ++ String "}"%char rest) 0
                = match body with EmptyString => "}"%char | _ => at_ body 0 end).
  { destruct body; reflexivity. }
  assert (Hb : Ascii.eqb "{"%char (at_ (body ++ String "}"%char rest) 0) = false).
  { rewrite Hat. destruct body as [|c body]; [reflexivity|].
    rewrite Ascii.eqb_sym. exact Hopen. }
  rewrite Hb.
  cbn [strchr]. change (Ascii.eqb "{"%char "}"%char) with false. cbn iota.
  rewrite (strchr_app body rest _ Hclose). cbn [option_map].
  change (drop 1 (String "{"%char (body ++ String "}"%char rest)))
    with (body ++ String "}"%char rest).
  assert (Hrest : drop (S (S (String.length body)))
                       (String "{"%char (body ++ String "}"%char rest)) = rest).
  { change (drop (S (S (String.length body)))
                 (String "{"%char (body ++ String "}"%char rest)))
      with (drop (S (String.length body)) (body ++ String "}"%char rest)).
    replace (S (String.length body)) with (String.length body + 1)%nat by lia.
    rewrite drop_drop, drop_app_exact. reflexivity. }
  rewrite Hrest.
  assert (Hcolon : Ascii.eqb (at_ (body ++ String "}"%char rest) 0) ":"%char
                   = Ascii.eqb (at_ body 0) ":"%char).
  { rewrite Hat. destruct body; reflexivity. }
  rewrite Hcolon. subst dec name.
  destruct (Ascii.eqb (at_ body 0) ":"%char) eqn:Hc; cbn [negb].
  - destruct body as [|c body]; [discriminate|].
    change (drop 1 (String c body ++ String "}"%char rest))
      with (body ++ String "}"%char rest).
    change (drop 1 (String c body)) with body.
    cbn [String.length].
    replace (S (S (String.length body)) - 2)%nat
      with (String.length body) by lia.
    unfold bind. now rewrite get_vars_take.
  - replace (S (String.length body) - 1)%nat with (String.length body) by lia.
    unfold bind. now rewrite get_vars_take.
Qed.

(** One turn of the loop at a piece: what is done does not depend on the
    text behind the piece, and the loop goes on there. *)
Lemma token_step (t : string) :
  token t ->
  exists m : M unit,
    forall (fuel : nat) (rest : string) (w : world),
      get_loop (S fuel) uh (t ++ rest) w = (m ;;; get_loop fuel uh rest) w.
Proof.
  intros [c Hb Hs| |c Hz|body Hclose Hopen].
  - exists (fputs (String c "")). intros fuel rest w.
    cbn [append get_loop].
    rewrite (Ascii.eqb_sym "{"%char c), Hb.
    rewrite (Ascii.eqb_sym "\"%char c), Hs. reflexivity.
  - exists (fputs "{"). intros fuel rest w. reflexivity.
  - destruct c as [[] [] [] [] [] [] [] []]; try discriminate Hz;
      (eexists; intros fuel rest w;
       cbn [append get_loop Ascii.eqb Bool.eqb andb negb at_ drop];
       reflexivity).
  - eexists. intros fuel rest w.
    exact (get_loop_reference body rest fuel w Hclose Hopen).
Qed.

(** The loop over a text made of pieces, with more text behind it. *)
Lemma tokens_run (pre : string) :
  tokens pre ->
  exists m : M unit,
    forall (f f' : nat) (rest : string) (w : world),
      (String.length (pre ++ rest) <= f)%nat ->
      (String.length rest <= f')%nat ->
      get_loop f uh (pre ++ rest) w = (m ;;; get_loop f' uh rest) w.
Proof.
  induction 1 as [|t s Ht Hs [ms IH]].
  - exists (ret tt). intros f f' rest w Hf Hf'. cbn [append].
    now apply get_loop_fuel.
  - destruct (token_step t Ht) as [mt Hstep].
    exists (mt ;;; ms). intros f f' rest w Hf Hf'.
    rewrite append_assoc. rewrite append_assoc in Hf.
    pose proof (token_length t Ht) as Hlen.
    rewrite length_append in Hf.
    destruct f as [|f]; [lia|].
    rewrite Hstep, bind_assoc. apply bind_ext. intros _ w1.
    apply IH; [lia | exact Hf'].
Qed.

(** C6, as amended.  At a [{] that is not followed by another [{] and has
    no [}] in the text behind it, the loop of [get] writes nothing and
    goes on with the byte after it, whatever it has read before: with any
    fuel the step leads to the loop on the text behind the brace; a format
    with such a brace behind a text made of whole pieces (bytes, escapes
    and closed references) is rendered as the format without that brace
    is; and where the text before and the text behind the brace have no
    brace and no backslash, they are written as they are, one after the
    other, followed by the newline. *)
Theorem unclosed_brace_is_skipped (pre rest : string) :
  tokens pre ->
  at_ rest 0 <> "{"%char ->
  strchr rest "}"%char = None ->
  (forall (fuel : nat) (w : world),
      get_loop (S fuel) uh ("{" ++ rest) w = get_loop fuel uh rest w)
  /\ (forall (op : ptr) (v : struct_option) (w : world),
         deref op w = Ret v w ->
         o_format v = Some (pre ++ "{" ++ rest) ->
         get op uh w
         = (get_loop (String.length (pre ++ rest)) uh (pre ++ rest) ;;;
            fputs nl) w)
  /\ (forall (op : ptr) (v : struct_option) (w : world),
         deref op w = Ret v w ->
         o_format v = Some (pre ++ "{" ++ rest) ->
         plain pre = true -> plain rest = true ->
         get op uh w = Ret tt (with_out (w_out w ++ pre ++ rest ++ nl) w)).
Proof.
  intros Hpre Hnb Hnc.
  assert (Hwhole : forall (op : ptr) (v : struct_option) (w : world),
             deref op w = Ret v w ->
             o_format v = Some (pre ++ "{" ++ rest) ->
             get op uh w
             = (get_loop (String.length (pre ++ rest)) uh (pre ++ rest) ;;;
                fputs nl) w).
  { intros op v w Hd Hf.
    destruct (tokens_run pre Hpre) as [m Hrun].
    assert (Hg : get_loop (String.length (pre ++ "{" ++ rest)) uh
                          (pre ++ "{" ++ rest) w
                 = get_loop (String.length (pre ++ rest)) uh (pre ++ rest) w).
    { rewrite (Hrun _ (S (String.length rest)) ("{" ++ rest) w)
        by (cbn [append String.length]; lia).
      rewrite (Hrun _ (String.length rest) rest w)
        by (rewrite ?length_append; lia).
      apply bind_ext. intros _ w1. now apply get_loop_unclosed. }
    unfold get. unfold bind at 1. rewrite Hd. rewrite Hf.
    unfold bind at 1. rewrite Hg. reflexivity. }
  split; [|split].
  - intros fuel w. now apply get_loop_unclosed.
  - exact Hwhole.
  - intros op v w Hd Hf Hp Hr. rewrite (Hwhole op v w Hd Hf). unfold bind.
    rewrite get_loop_plain
      by (lia || (rewrite plain_app, Hp, Hr; reflexivity)).
    unfold fputs, modify. cbn [w_out with_out].
    rewrite !append_assoc. reflexivity.
Qed.

End UnclosedBrace.

(** C6, as amended, at the format [{{x{host}-{ab] and a handle with a
    host: the brace before [ab] is the only thing that is not written. *)
Lemma unclosed_brace_is_skipped_witness :
  let w := format_world "{{x{host}-{ab" in
  let uh := Toy.put CURLUPART_HOST (Some "example.com") Toy.empty in
  tokens "{{x{host}-"
  /\ at_ "ab" 0 <> "{"%char
  /\ strchr "ab" "}"%char = None
  /\ deref (Some 0%nat) w
     = Ret (set_o_format (Some "{{x{host}-{ab") zero_option) w
  /\ get (E:=Toy.engine) (Some 0%nat) uh w
     = Ret tt (with_out ("{xexample.com-ab" ++ nl) w).
Proof.
  intros w uh.
  assert (H0 : tokens "{{x{host}-").
  { exact (tokens_cons "{{" _ tok_brace
             (tokens_cons "x" _ (tok_char "x"%char eq_refl eq_refl)
                (tokens_cons "{host}" _ (tok_reference "host" eq_refl eq_refl)
                   (tokens_cons "-" _ (tok_char "-"%char eq_refl eq_refl)
                      tokens_nil)))). }
  assert (H1 : deref (Some 0%nat) w
               = Ret (set_o_format (Some "{{x{host}-{ab") zero_option) w)
    by reflexivity.
  assert (H2 : o_format (set_o_format (Some "{{x{host}-{ab") zero_option)
               = Some ("{{x{host}-" ++ "{" ++ "ab")) by reflexivity.
  assert (H3 : at_ "ab" 0 <> "{"%char) by discriminate.
  assert (H4 : strchr "ab" "}"%char = None) by reflexivity.
  split; [exact H0|]. split; [exact H3|]. split; [exact H4|].
  split; [exact H1|].
  exact (proj1 (proj2 (unclosed_brace_is_skipped (E:=Toy.engine) uh
                         "{{x{host}-" "ab" H0 H3 H4))
               (Some 0%nat) _ w H1 H2).
Defined.
